(** * Credential lifecycle and abuse-control gate of the booking API

    A shallow embedding of the token codec ([lib/jwt.ts]), the revocation
    registry (two [lru-cache] instances), the fixed-window rate limiter and
    the security gate ([lib/security.ts], [lib/auth.ts]) together with the
    refresh route handler, followed by the properties proved about them.

    Conventions.  Timestamps are integers ([Z]) in milliseconds, as returned
    by [Date.now()]; every function that reads the clock takes the reading
    as its argument [now], one reading for the whole call, and the caches
    age their entries by the same clock.  Module-level caches live in an
    explicit [World] that is threaded through the calls.  Thrown
    exceptions are the left summand of a sum type.  Of the console output
    only the security events are kept. *)

From Stdlib Require Import ZArith Lia Bool List Ascii String.
From Stdlib Require Import DecimalString DecimalZ.
From stdpp Require Import base option list strings gmap pretty.

Local Open Scope string_scope.
Local Open Scope Z_scope.

(** ** JavaScript string and truthiness helpers *)

Module JS.

(** [!!s] for [s : string]: only the empty string is falsy. *)
Definition truthy_string (s : string) : bool :=
  negb (String.eqb s "").

(** [!!o] for [o : string | null | undefined]. *)
Definition truthy (o : option string) : bool :=
  match o with
  | Some s => truthy_string s
  | None => false
  end.

(** [o || d] for [o : string | null | undefined]. *)
Definition or_default (o : option string) (d : string) : string :=
  match o with
  | Some s => if truthy_string s then s else d
  | None => d
  end.

(** [s.split(sep)] for a one-character separator. The result is never
    empty: [''.split(',')] is [['']]. *)
Fixpoint split (sep : ascii) (s : string) : list string :=
  match s with
  | EmptyString => [EmptyString]
  | String c rest =>
      if Ascii.eqb c sep then EmptyString :: split sep rest
      else match split sep rest with
           | h :: t => String c h :: t
           | [] => [String c EmptyString]
           end
  end.

(** White space removed by [String.prototype.trim] among the code units
    below 256: TAB, LF, VT, FF, CR, SPACE and NBSP. *)
Definition is_space (c : ascii) : bool :=
  let n := nat_of_ascii c in
  (Nat.eqb n 9 || Nat.eqb n 10 || Nat.eqb n 11 || Nat.eqb n 12
   || Nat.eqb n 13 || Nat.eqb n 32 || Nat.eqb n 160)%bool.

Fixpoint trim_start (s : string) : string :=
  match s with
  | EmptyString => EmptyString
  | String c rest => if is_space c then trim_start rest else s
  end.

Fixpoint trim_end (s : string) : string :=
  match s with
  | EmptyString => EmptyString
  | String c rest =>
      match trim_end rest with
      | EmptyString => if is_space c then EmptyString else String c EmptyString
      | r => String c r
      end
  end.

Definition trim (s : string) : string := trim_end (trim_start s).

(** [s.startsWith(p)] *)
Definition startsWith (s p : string) : bool := String.prefix p s.

(** [s.includes(sub)] *)
Fixpoint includes (s sub : string) : bool :=
  (String.prefix sub s
   || match s with
      | EmptyString => false
      | String _ rest => includes rest sub
      end)%bool.

(** [n.toString()] for an integer [n]. *)
Definition toString (n : Z) : string := pretty n.

(** [Math.ceil(n / d)] for integers [n] and [d > 0]. *)
Definition ceil_div (n d : Z) : Z := - ((- n) / d).

End JS.

(** ** The [lru-cache] package

    [new LRUCache({ max, ttl })] as used by the repository: a store of at
    most [max] entries, each stamped with the time of its last [set]; an
    entry older than [ttl] is stale.  The entries are kept most recently
    used first, so the entry evicted at capacity is the last one. *)

Module LRU.

Section Cache.
Context {V : Type}.

Record Entry : Type := mkEntry
  { ekey : string; evalue : V; estart : Z }.

Record t : Type := mkCache
  { max : Z; ttl : Z; items : list Entry }.

Definition create (max : Z) (ttl : Z) : t :=
  {| max := max; ttl := ttl; items := [] |}.

Definition with_items (c : t) (l : list Entry) : t :=
  {| max := max c; ttl := ttl c; items := l |}.

Definition size (c : t) : Z := Z.of_nat (length (items c)).

Definition is_key (k : string) (e : Entry) : bool := String.eqb (ekey e) k.

Definition lookup (k : string) (c : t) : option Entry :=
  List.find (is_key k) (items c).

Definition remove (k : string) (l : list Entry) : list Entry :=
  List.filter (fun e => negb (is_key k e)) l.

(** [#isStale]: [!!ttl && !!start && now - start > ttl]. *)
Definition isStale (c : t) (now : Z) (e : Entry) : bool :=
  (negb (ttl c =? 0) && negb (estart e =? 0) && (ttl c <? now - estart e))%bool.

(** [cache.has(k)]: present and not stale; neither the order of use
    nor the age of the entry changes. *)
Definition has (now : Z) (k : string) (c : t) : bool :=
  match lookup k c with
  | Some e => negb (isStale c now e)
  | None => false
  end.

(** [cache.get(k)]: a stale entry is deleted and [undefined] is
    returned; a live entry becomes the most recently used one. *)
Definition get (now : Z) (k : string) (c : t) : option V * t :=
  match lookup k c with
  | None => (None, c)
  | Some e =>
      if isStale c now e
      then (None, with_items c (remove k (items c)))
      else (Some (evalue e), with_items c (e :: remove k (items c)))
  end.

(** [cache.set(k, v)]: an existing key is overwritten and moved to the
    front; a new key evicts the least recently used entry when the
    cache is full.  Either way the entry's age restarts at [now]. *)
Definition set (now : Z) (k : string) (v : V) (c : t) : t :=
  let e := {| ekey := k; evalue := v;
              estart := if ttl c =? 0 then 0 else now |} in
  match lookup k c with
  | Some _ => with_items c (e :: remove k (items c))
  | None =>
      let kept := if size c =? max c
                  then removelast (items c) else items c in
      with_items c (e :: kept)
  end.

End Cache.

Arguments Entry : clear implicits.
Arguments t : clear implicits.

End LRU.

(** ** Data model *)

(** [process.env]: the variables the gate reads. *)
Record ProcessEnv : Type := mkEnv
  { JWT_SECRET : option string;
    JWT_EXPIRES_IN : option string;
    JWT_REFRESH_SECRET : option string;
    JWT_REFRESH_EXPIRES_IN : option string;
    ALLOWED_ORIGINS : option string }.

(** The claims object carried by a token.  [JWTPayload] is
    [{ userId, email, role? }], [RefreshTokenPayload] is
    [{ userId, tokenId }]; signing adds [iat] and [exp] (seconds). *)
Record Payload : Type := mkPayload
  { userId : string;
    email : option string;
    role : option string;
    tokenId : option string;
    iat : option Z;
    exp : option Z }.

Definition JWTPayload (userId email : string) : Payload :=
  {| userId := userId; email := Some email; role := None;
     tokenId := None; iat := None; exp := None |}.

Definition RefreshTokenPayload (userId tokenId : string) : Payload :=
  {| userId := userId; email := None; role := None;
     tokenId := Some tokenId; iat := None; exp := None |}.

(** The payload as [jwt.sign] stamps it before encoding. *)
Definition stamp (p : Payload) (issued expires : Z) : Payload :=
  {| userId := userId p; email := email p; role := role p;
     tokenId := tokenId p; iat := Some issued; exp := Some expires |}.

(** Exceptions, each with its [message].  [TokenExpiredError] and
    [NotBeforeError] are subclasses of [JsonWebTokenError]. *)
Inductive Exn : Type :=
| Error (message : string)
| TokenBlacklistedError (message : string)
| RefreshTokenBlacklistedError (message : string)
| JsonWebTokenError (message : string)
| TokenExpiredError (message : string)
| NotBeforeError (message : string).

Definition message_of (e : Exn) : string :=
  match e with
  | Error m | TokenBlacklistedError m | RefreshTokenBlacklistedError m
  | JsonWebTokenError m | TokenExpiredError m | NotBeforeError m => m
  end.

(** A request: its headers (names in lower case, as [Headers.get] looks
    them up), the path of its URL, and the [user] field that
    [AuthenticatedRequest] adds. *)
Module NextRequest.
Record t : Type := make
  { headers : gmap string string;
    pathname : string;
    user : option Payload }.

(** [request.headers.get(name)] *)
Definition get (request : t) (name : string) : option string :=
  headers request !! name.

(** [request.user = payload] *)
Definition set_user (request : t) (payload : Payload) : t :=
  {| headers := headers request; pathname := pathname request;
     user := Some payload |}.
End NextRequest.

Module NextResponse.
Record t : Type := make
  { status : Z;
    body : list (string * string);
    headers : gmap string string }.

(** [NextResponse.json(body, { status })] *)
Definition json (body : list (string * string)) (status : Z) : t :=
  {| status := status; body := body; headers := ∅ |}.

(** [NextResponse.next()] *)
Definition next : t :=
  {| status := 200; body := []; headers := ∅ |}.

(** [Object.entries(hs).forEach(([k, v]) => response.headers.set(k, v))] *)
Definition set_all (hs : gmap string string) (response : t) : t :=
  {| status := status response; body := body response;
     headers := hs ∪ headers response |}.
End NextResponse.

(** The document returned by the user store, reduced to the fields the
    gate reads. *)
Record IUserResponse : Type := mkUser
  { _id : string; user_email : string }.

(** One rate window. *)
Record RateWindow : Type := mkWindow
  { count : Z; resetTime : Z }.

(** One line of the audit trail written by [logSecurityEvent]. *)
Record SecurityEvent : Type := mkEvent
  { timestamp : string;
    event : string;
    details : list (string * string);
    severity : string }.

(** The module-level mutable state of [lib/jwt.ts] and [lib/security.ts],
    and the audit trail. *)
Record World : Type := mkWorld
  { blacklistedTokens : LRU.t bool;
    blacklistedRefreshTokens : LRU.t bool;
    rateLimitCache : LRU.t RateWindow;
    securityLog : list SecurityEvent }.

Definition initial : World :=
  {| blacklistedTokens := LRU.create 1000 (1000 * 60 * 60 * 24);
     blacklistedRefreshTokens := LRU.create 1000 (1000 * 60 * 60 * 24 * 7);
     rateLimitCache := LRU.create 10000 (1000 * 60 * 15);
     securityLog := [] |}.

Definition with_blacklistedTokens (c : LRU.t bool) (w : World) : World :=
  {| blacklistedTokens := c;
     blacklistedRefreshTokens := blacklistedRefreshTokens w;
     rateLimitCache := rateLimitCache w;
     securityLog := securityLog w |}.

Definition with_blacklistedRefreshTokens (c : LRU.t bool) (w : World) : World :=
  {| blacklistedTokens := blacklistedTokens w;
     blacklistedRefreshTokens := c;
     rateLimitCache := rateLimitCache w;
     securityLog := securityLog w |}.

Definition with_rateLimitCache (c : LRU.t RateWindow) (w : World) : World :=
  {| blacklistedTokens := blacklistedTokens w;
     blacklistedRefreshTokens := blacklistedRefreshTokens w;
     rateLimitCache := c;
     securityLog := securityLog w |}.

Definition with_securityLog (l : list SecurityEvent) (w : World) : World :=
  {| blacklistedTokens := blacklistedTokens w;
     blacklistedRefreshTokens := blacklistedRefreshTokens w;
     rateLimitCache := rateLimitCache w;
     securityLog := l |}.

(** ** External collaborators *)

(** The [jsonwebtoken] package.  [jwt_sign payload secret expiresIn now]
    is [jwt.sign(payload, secret, { expiresIn })] and
    [jwt_verify token secret now] is [jwt.verify(token, secret)], both
    evaluated when [Date.now()] reads [now].  [timespan expiresIn] is the
    number of seconds the package reads in an [expiresIn] string such as
    ["15m"], undefined when it cannot read one. *)
Class Jsonwebtoken : Type :=
  { timespan : string -> option Z;
    jwt_sign : Payload -> string -> string -> Z -> Exn + string;
    jwt_verify : string -> string -> Z -> Exn + Payload }.

(** What the package guarantees.  A payload without [iat] and [exp] is
    signed under any non-empty secret when [expiresIn] is a time span; a
    token it signed verifies under the same secret to the payload stamped
    with [iat = floor(now / 1000)] and [exp = iat + timespan], until the
    clock reaches [exp], and to [TokenExpiredError] from then on. *)
Class JsonwebtokenLaws (J : Jsonwebtoken) : Prop :=
  { jwt_sign_succeeds :
      forall (p : Payload) (secret expiresIn : string) (now span : Z),
        timespan expiresIn = Some span ->
        secret <> "" -> iat p = None -> exp p = None ->
        exists token : string, jwt_sign p secret expiresIn now = inr token;
    jwt_verify_sign :
      forall (p : Payload) (secret expiresIn token : string) (now : Z),
        jwt_sign p secret expiresIn now = inr token ->
        iat p = None -> exp p = None ->
        exists span : Z,
          timespan expiresIn = Some span /\
          forall now' : Z,
            jwt_verify token secret now' =
              if now / 1000 + span <=? now' / 1000
              then inl (TokenExpiredError "jwt expired")
              else inr (stamp p (now / 1000) (now / 1000 + span)) }.

(** The JavaScript runtime: [new Date(ms).toISOString()]. *)
Class Runtime : Type :=
  { toISOString : Z -> string }.

(** [UserService.findUserById], backed by the document store. *)
Class UserService : Type :=
  { findUserById : string -> Exn + option IUserResponse }.

(** ** Computations that may throw and that update the [World] *)

Definition Js (A : Type) : Type := World -> (Exn + A) * World.

Definition ret {A : Type} (a : A) : Js A := fun w => (inr a, w).

Definition bind {A B : Type} (m : Js A) (k : A -> Js B) : Js B :=
  fun w =>
    match m w with
    | (inr a, w') => k a w'
    | (inl e, w') => (inl e, w')
    end.

Definition throw {A : Type} (e : Exn) : Js A := fun w => (inl e, w).

(** [try { m } catch (error) { handler error }] *)
Definition try_catch {A : Type} (m : Js A) (handler : Exn -> Js A) : Js A :=
  fun w =>
    match m w with
    | (inr a, w') => (inr a, w')
    | (inl e, w') => handler e w'
    end.

(** A call that reads the [World] without changing it. *)
Definition reads {A : Type} (f : World -> Exn + A) : Js A :=
  fun w => (f w, w).

(** A call that changes the [World] and returns nothing. *)
Definition writes (f : World -> World) : Js unit :=
  fun w => (inr tt, f w).

(** A call that cannot throw. *)
Definition total {A : Type} (f : World -> A * World) : Js A :=
  fun w => let (a, w') := f w in (inr a, w').

(** A call independent of the [World]. *)
Definition pure {A : Type} (r : Exn + A) : Js A := fun w => (r, w).

Declare Scope js_scope.
Delimit Scope js_scope with js.
Notation "x <- m ;; k" := (bind m (fun x => k))
  (at level 100, m at next level, right associativity) : js_scope.
Notation "m ;;; k" := (bind m (fun _ => k))
  (at level 100, right associativity) : js_scope.

Section Model.

Context {J : Jsonwebtoken} {R : Runtime} {U : UserService}.
Variable env : ProcessEnv.

Local Open Scope js_scope.

(** ** [lib/jwt.ts]: token codec and revocation registry *)

Definition generateAccessToken (now : Z) (payload : Payload) : Exn + string :=
  let secret := JWT_SECRET env in
  let expiresIn := JS.or_default (JWT_EXPIRES_IN env) "15m" in
  match secret with
  | Some secret =>
      if JS.truthy_string secret
      then jwt_sign payload secret expiresIn now
      else inl (Error "JWT_SECRET environment variable is not defined")
  | None => inl (Error "JWT_SECRET environment variable is not defined")
  end.

Definition generateRefreshToken (now : Z) (payload : Payload) : Exn + string :=
  let secret := JWT_REFRESH_SECRET env in
  let expiresIn := JS.or_default (JWT_REFRESH_EXPIRES_IN env) "7d" in
  match secret with
  | Some secret =>
      if JS.truthy_string secret
      then jwt_sign payload secret expiresIn now
      else inl (Error "JWT_REFRESH_SECRET environment variable is not defined")
  | None => inl (Error "JWT_REFRESH_SECRET environment variable is not defined")
  end.

Definition verifyAccessToken (now : Z) (token : string) (w : World) : Exn + Payload :=
  let secret := JWT_SECRET env in
  match secret with
  | Some secret =>
      if JS.truthy_string secret
      then
        if LRU.has now token (blacklistedTokens w)
        then inl (TokenBlacklistedError "Token has been revoked")
        else jwt_verify token secret now
      else inl (Error "JWT_SECRET environment variable is not defined")
  | None => inl (Error "JWT_SECRET environment variable is not defined")
  end.

Definition verifyRefreshToken (now : Z) (token : string) (w : World) : Exn + Payload :=
  let secret := JWT_REFRESH_SECRET env in
  match secret with
  | Some secret =>
      if JS.truthy_string secret
      then
        if LRU.has now token (blacklistedRefreshTokens w)
        then inl (RefreshTokenBlacklistedError "Refresh token has been revoked")
        else jwt_verify token secret now
      else inl (Error "JWT_REFRESH_SECRET environment variable is not defined")
  | None => inl (Error "JWT_REFRESH_SECRET environment variable is not defined")
  end.

Definition blacklistToken (now : Z) (token : string) (w : World) : World :=
  with_blacklistedTokens (LRU.set now token true (blacklistedTokens w)) w.

Definition blacklistRefreshToken (now : Z) (token : string) (w : World) : World :=
  with_blacklistedRefreshTokens
    (LRU.set now token true (blacklistedRefreshTokens w)) w.

(** [tokenId] is the draw [Math.random().toString(36).substring(2)]. *)
Definition generateTokenPair (now : Z) (tokenId : string) (userId email : string)
  : Exn + (string * string) :=
  match generateAccessToken now (JWTPayload userId email) with
  | inl e => inl e
  | inr accessToken =>
      match generateRefreshToken now (RefreshTokenPayload userId tokenId) with
      | inl e => inl e
      | inr refreshToken => inr (accessToken, refreshToken)
      end
  end.

Definition isTokenBlacklisted (now : Z) (token : string) (w : World) : bool :=
  LRU.has now token (blacklistedTokens w).

Definition isRefreshTokenBlacklisted (now : Z) (token : string) (w : World) : bool :=
  LRU.has now token (blacklistedRefreshTokens w).

Definition blacklistTokenPair (now : Z) (accessToken refreshToken : string)
    (w : World) : World :=
  let w1 :=
    if (JS.truthy_string accessToken && JS.truthy_string (JS.trim accessToken))%bool
    then blacklistToken now accessToken w else w in
  if (JS.truthy_string refreshToken && JS.truthy_string (JS.trim refreshToken))%bool
  then blacklistRefreshToken now refreshToken w1 else w1.

Definition getBlacklistStats (w : World) : Z * Z :=
  (LRU.size (blacklistedTokens w), LRU.size (blacklistedRefreshTokens w)).


(** ** [lib/security.ts]: rate limiter and gate *)

Definition SECURITY_HEADERS : gmap string string :=
  list_to_map
    [ ("X-Frame-Options", "DENY");
      ("X-Content-Type-Options", "nosniff");
      ("X-XSS-Protection", "1; mode=block");
      ("Referrer-Policy", "strict-origin-when-cross-origin");
      ("Permissions-Policy", "camera=(), microphone=(), geolocation=()");
      ("Strict-Transport-Security", "max-age=31536000; includeSubDomains");
      ("Content-Security-Policy",
       "default-src 'self'; script-src 'self' 'unsafe-eval' 'unsafe-inline'; style-src 'self' 'unsafe-inline'; img-src 'self' data: https:; font-src 'self' data:; connect-src 'self' https:; frame-ancestors 'none';") ].

(** [keyof typeof RATE_LIMITS] *)
Inductive RateLimitType : Type := auth | api | strict.

Definition type_name (type : RateLimitType) : string :=
  match type with
  | auth => "auth"
  | api => "api"
  | strict => "strict"
  end.

Record RateLimit : Type := mkLimit { windowMs : Z; max : Z }.

Definition RATE_LIMITS (type : RateLimitType) : RateLimit :=
  match type with
  | auth => {| windowMs := 15 * 60 * 1000; max := 5 |}
  | api => {| windowMs := 15 * 60 * 1000; max := 100 |}
  | strict => {| windowMs := 15 * 60 * 1000; max := 10 |}
  end.

(** The object returned by [rateLimit]; [message] and [headers] are
    optional properties. *)
Record RateLimitResult : Type := mkResult
  { success : bool;
    message : option string;
    result_headers : option (gmap string string) }.

Definition getClientIP (request : NextRequest.t) : string :=
  let forwarded := NextRequest.get request "x-forwarded-for" in
  let realIP := NextRequest.get request "x-real-ip" in
  let cfConnectingIP := NextRequest.get request "cf-connecting-ip" in
  if JS.truthy forwarded
  then JS.trim (hd "" (JS.split "," (default "" forwarded)))
  else if JS.truthy realIP then default "" realIP
  else if JS.truthy cfConnectingIP then default "" cfConnectingIP
  else "unknown".

(** The key under which [rateLimit] stores the window of a request. *)
Definition rateLimitKey (request : NextRequest.t) (type : RateLimitType) : string :=
  type_name type +:+ ":" +:+ getClientIP request.

Definition rateLimit (now : Z) (request : NextRequest.t) (type : RateLimitType)
    (w : World) : RateLimitResult * World :=
  let key := rateLimitKey request type in
  let limit := RATE_LIMITS type in
  let (current, cache) := LRU.get now key (rateLimitCache w) in
  let fresh :=
    (* First request or window expired *)
    ({| success := true; message := None; result_headers := None |},
     with_rateLimitCache
       (LRU.set now key {| count := 1; resetTime := now + windowMs limit |} cache) w) in
  match current with
  | None => fresh
  | Some current =>
      if resetTime current <? now then fresh
      else if max limit <=? count current then
        ({| success := false;
            message := Some "Too many requests";
            result_headers := Some (list_to_map
              [ ("X-RateLimit-Limit", JS.toString (max limit));
                ("X-RateLimit-Remaining", "0");
                ("X-RateLimit-Reset", toISOString (resetTime current));
                ("Retry-After",
                 JS.toString (JS.ceil_div (resetTime current - now) 1000)) ]) |},
         with_rateLimitCache cache w)
      else
        (* Increment counter *)
        let current := {| count := count current + 1;
                          resetTime := resetTime current |} in
        ({| success := true;
            message := None;
            result_headers := Some (list_to_map
              [ ("X-RateLimit-Limit", JS.toString (max limit));
                ("X-RateLimit-Remaining", JS.toString (max limit - count current));
                ("X-RateLimit-Reset", toISOString (resetTime current)) ]) |},
         with_rateLimitCache (LRU.set now key current cache) w)
  end.

Definition allowedOrigins : list string :=
  match ALLOWED_ORIGINS env with
  | Some s => JS.split "," s
  | None => ["http://localhost:3000"]
  end.

Definition validateOrigin (request : NextRequest.t) : bool :=
  let origin := NextRequest.get request "origin" in
  if negb (JS.truthy origin)
  then true (* Allow requests without origin (e.g., server-to-server) *)
  else existsb (String.eqb (default "" origin)) allowedOrigins.

Definition securityMiddleware (request : NextRequest.t) : NextResponse.t :=
  let response := NextResponse.set_all SECURITY_HEADERS NextResponse.next in
  if negb (validateOrigin request)
  then NextResponse.json [("error", "Invalid origin")] 403
  else response.

(** Check if this is an actual auth endpoint (login, signup, etc.) *)
Definition isAuthEndpoint (url : string) : bool :=
  (JS.includes url "/auth/"
   && (JS.includes url "/login" || JS.includes url "/signup"
       || JS.includes url "/logout" || JS.includes url "/refresh"))%bool.

Definition authMiddleware (now : Z) (request : NextRequest.t) (w : World)
  : NextResponse.t * World :=
  let authHeader := NextRequest.get request "authorization" in
  if (negb (JS.truthy authHeader)
      || negb (JS.startsWith (default "" authHeader) "Bearer "))%bool
  then (NextResponse.json [("error", "Authentication required")] 401, w)
  else
    let url := NextRequest.pathname request in
    (* Apply strict rate limiting only for auth endpoints *)
    let rateLimitType := if isAuthEndpoint url then auth else api in
    let (rateLimitResult, w') := rateLimit now request rateLimitType w in
    if negb (success rateLimitResult)
    then
      let errorMessage :=
        if isAuthEndpoint url then "Too many authentication attempts"
        else "Too many requests" in
      (NextResponse.json [("error", errorMessage)] 429, w')
    else (NextResponse.next, w').

Definition logSecurityEvent (now : Z) (event : string)
    (details : list (string * string)) (w : World) : World :=
  with_securityLog
    (securityLog w ++
       [ {| timestamp := toISOString now; event := event;
            details := details; severity := "info" |} ]) w.

(** [request.headers.get("x-forwarded-for") || "unknown"] *)
Definition ip_of (request : NextRequest.t) : string :=
  JS.or_default (NextRequest.get request "x-forwarded-for") "unknown".

(** A property of a JSON object that is left out when undefined. *)
Definition optional_field (key : string) (value : option string)
  : list (string * string) :=
  match value with
  | Some v => [(key, v)]
  | None => []
  end.

(** ** [lib/auth.ts]: authentication of protected routes *)

Definition authenticateToken (now : Z) (request : NextRequest.t) (w : World)
  : (NextResponse.t + Payload) * World :=
  let authHeader := NextRequest.get request "authorization" in
  (* authHeader && authHeader.split(" ")[1], Bearer TOKEN *)
  let token : option string :=
    if JS.truthy authHeader
    then JS.split " " (default "" authHeader) !! 1%nat
    else authHeader in
  if negb (JS.truthy token)
  then
    (inl (NextResponse.json [("error", "Access token required")] 401),
     logSecurityEvent now "authentication_failed"
       [ ("reason", "no_token"); ("ip", ip_of request);
         ("endpoint", NextRequest.pathname request) ] w)
  else
    match verifyAccessToken now (default "" token) w with
    | inr user =>
        (inr user,
         logSecurityEvent now "authentication_successful"
           ([ ("userId", userId user) ] ++ optional_field "email" (email user)
            ++ [ ("ip", ip_of request);
                 ("endpoint", NextRequest.pathname request) ]) w)
    | inl (TokenBlacklistedError _) =>
        (inl (NextResponse.json
                [("error", "Token has been revoked. Please login again.")] 401),
         logSecurityEvent now "authentication_failed"
           [ ("reason", "token_blacklisted"); ("ip", ip_of request);
             ("endpoint", NextRequest.pathname request) ] w)
    | inl _ =>
        (inl (NextResponse.json [("error", "Invalid or expired token")] 401),
         logSecurityEvent now "authentication_failed"
           [ ("reason", "invalid_token"); ("ip", ip_of request);
             ("endpoint", NextRequest.pathname request) ] w)
    end.

Definition withAuth {C : Type}
    (handler : NextRequest.t -> C -> Js NextResponse.t)
    (now : Z) (request : NextRequest.t) (context : C) : Js NextResponse.t :=
  fun w =>
    (* Apply security authentication middleware first *)
    let (securityAuthResponse, w1) := authMiddleware now request w in
    if negb (NextResponse.status securityAuthResponse =? 200)
    then (inr securityAuthResponse, w1)
    else
      let (authResult, w2) := authenticateToken now request w1 in
      match authResult with
      | inl response => (inr response, w2)
      | inr payload => handler (NextRequest.set_user request payload) context w2
      end.

(** ** [app/api/auth/refresh/route.ts]: the refresh entry point *)

(** The [try { user = verifyRefreshToken(refreshToken) } catch ...] block:
    either the response returned from the [catch] clause or the verified
    claims; an error of no listed class is thrown again. *)
Definition verify_or_respond (now : Z) (request : NextRequest.t)
    (refreshToken : string) : Js (NextResponse.t + Payload) :=
  try_catch
    (user <- reads (verifyRefreshToken now refreshToken) ;; ret (inr user))
    (fun error =>
       match error with
       | RefreshTokenBlacklistedError _ =>
           writes (logSecurityEvent now "refresh_token_revoked"
                     [ ("ip", ip_of request) ]) ;;;
           ret (inl (NextResponse.json
                  [("error", "Refresh token has been revoked. Please login again.")]
                  401))
       | TokenExpiredError _ =>
           writes (logSecurityEvent now "refresh_token_expired"
                     [ ("ip", ip_of request) ]) ;;;
           ret (inl (NextResponse.json
                  [("error", "Refresh token has expired. Please login again.")]
                  401))
       | JsonWebTokenError _ | NotBeforeError _ =>
           writes (logSecurityEvent now "refresh_token_invalid"
                     [ ("userId", "unknown"); ("error", message_of error);
                       ("ip", ip_of request) ]) ;;;
           ret (inl (NextResponse.json [("error", "Invalid refresh token")] 401))
       | _ => throw error
       end).

(** [tokenId] is the random draw made by [generateTokenPair]. *)
Definition GETHandler (now : Z) (tokenId : string) (request : NextRequest.t)
  : Js NextResponse.t :=
  try_catch
    ((* Apply security middleware *)
     let securityResponse := securityMiddleware request in
     if negb (NextResponse.status securityResponse =? 200)
     then ret securityResponse
     else
       (* Apply rate limiting for auth endpoints *)
       rateLimitResult <- total (rateLimit now request auth) ;;
       if negb (success rateLimitResult)
       then
         writes (logSecurityEvent now "rate_limit_exceeded"
                   [ ("endpoint", "/api/auth/refresh");
                     ("ip", ip_of request) ]) ;;;
         ret (NextResponse.json
                [("error", "Too many refresh attempts. Please try again later.")]
                429)
       else
         let refreshToken := NextRequest.get request "x-refresh-token" in
         if negb (JS.truthy refreshToken)
         then
           writes (logSecurityEvent now "refresh_token_missing"
                     [ ("ip", ip_of request) ]) ;;;
           ret (NextResponse.json [("error", "Refresh token required")] 401)
         else
           let refreshToken := default "" refreshToken in
           verified <- verify_or_respond now request refreshToken ;;
           match verified with
           | inl response => ret response
           | inr user =>
               (* Fetch user email from database using UserService *)
               userDoc <- pure (findUserById (userId user)) ;;
               match userDoc with
               | None =>
                   writes (logSecurityEvent now "refresh_user_not_found"
                             [ ("userId", userId user);
                               ("ip", ip_of request) ]) ;;;
                   ret (NextResponse.json
                          [("error", "Invalid refresh token")] 401)
               | Some userDoc =>
                   (* Blacklist the old refresh token before generating new ones *)
                   writes (blacklistRefreshToken now refreshToken) ;;;
                   (* Generate new token pair *)
                   pair <- pure (generateTokenPair now tokenId (userId user)
                                   (user_email userDoc)) ;;
                   writes (logSecurityEvent now "token_refreshed"
                             [ ("userId", userId user);
                               ("ip", ip_of request) ]) ;;;
                   let response :=
                     NextResponse.json
                       [ ("accessToken", fst pair);
                         ("refreshToken", snd pair) ] 200 in
                   (* Add rate limit headers *)
                   ret (match result_headers rateLimitResult with
                        | Some hs => NextResponse.set_all hs response
                        | None => response
                        end)
               end
           end)
    (fun error =>
       writes (logSecurityEvent now "refresh_token_error"
                 [ ("error", message_of error); ("ip", ip_of request) ]) ;;;
       ret (NextResponse.json [("error", "Internal server error")] 500)).

End Model.

(** ** Vocabulary of the properties *)

(** A secret is configured when the variable is set and not empty. *)
Definition configured (secret : option string) : Prop :=
  JS.truthy secret = true.

(** The rate window stored for a key, stale or not. *)
Definition stored_window (key : string) (w : World) : option RateWindow :=
  LRU.evalue <$> LRU.lookup key (rateLimitCache w).

(** [!current || current.resetTime < now]: the window is absent (never
    set, evicted or stale) or its reset time has passed. *)
Definition window_expired (now : Z) (key : string) (w : World) : bool :=
  match fst (LRU.get now key (rateLimitCache w)) with
  | None => true
  | Some current => resetTime current <? now
  end.

(** The three results [rateLimit] can return. *)
Definition fresh_result : RateLimitResult :=
  {| success := true; message := None; result_headers := None |}.

Definition allowed_result {R : Runtime} (limit : RateLimit) (current : RateWindow)
  : RateLimitResult :=
  {| success := true;
     message := None;
     result_headers := Some (list_to_map
       [ ("X-RateLimit-Limit", JS.toString (max limit));
         ("X-RateLimit-Remaining", JS.toString (max limit - count current));
         ("X-RateLimit-Reset", toISOString (resetTime current)) ]) |}.

Definition denied_result {R : Runtime} (limit : RateLimit) (current : RateWindow)
    (now : Z) : RateLimitResult :=
  {| success := false;
     message := Some "Too many requests";
     result_headers := Some (list_to_map
       [ ("X-RateLimit-Limit", JS.toString (max limit));
         ("X-RateLimit-Remaining", "0");
         ("X-RateLimit-Reset", toISOString (resetTime current));
         ("Retry-After",
          JS.toString (JS.ceil_div (resetTime current - now) 1000)) ]) |}.

Definition bump (current : RateWindow) : RateWindow :=
  {| count := count current + 1; resetTime := resetTime current |}.

(** The value of a rate-limit header in a result, if the result carries
    that header. *)
Definition header (name : string) (result : RateLimitResult) : option string :=
  match result_headers result with
  | Some hs => hs !! name
  | None => None
  end.

(** Successive calls of [rateLimit] by one client for one limit class,
    at the given clock readings. *)
Fixpoint rateLimits {R : Runtime} (times : list Z) (request : NextRequest.t)
    (type : RateLimitType) (w : World) : list RateLimitResult * World :=
  match times with
  | [] => ([], w)
  | now :: later =>
      let (result, w1) := rateLimit now request type w in
      let (results, w2) := rateLimits later request type w1 in
      (result :: results, w2)
  end.

(** The rate cache was created with the 15 minute life time of
    [lib/security.ts]. *)
Definition rate_cache_configured (w : World) : Prop :=
  LRU.ttl (rateLimitCache w) = 1000 * 60 * 15.

(** The worlds the module-level state can be in when the clock reads
    [now]: the initial one, and those produced from it by the operations
    that write to the state, called at clock readings that never
    decrease. *)
Inductive reachable {R : Runtime} : Z -> World -> Prop :=
| reach_initial : forall now, reachable now initial
| reach_wait : forall now now' w,
    reachable now w -> now <= now' -> reachable now' w
| reach_rateLimit : forall now w request type,
    reachable now w -> reachable now (snd (rateLimit now request type w))
| reach_blacklistToken : forall now w token,
    reachable now w -> reachable now (blacklistToken now token w)
| reach_blacklistRefreshToken : forall now w token,
    reachable now w -> reachable now (blacklistRefreshToken now token w)
| reach_logSecurityEvent : forall now w event details,
    reachable now w -> reachable now (logSecurityEvent now event details w).

(** What every reachable rate cache satisfies: no entry was set in the
    future, and no window outlives its cache entry. *)
Definition rate_inv (now : Z) (w : World) : Prop :=
  rate_cache_configured w
  /\ Forall (fun e => LRU.estart e <= now
                      /\ resetTime (LRU.evalue e) <= LRU.estart e + 1000 * 60 * 15)
       (LRU.items (rateLimitCache w)).

(** A live window of the epoch ending at [reset], holding [n] requests. *)
Definition open_window (key : string) (n reset : Z) (w : World) : Prop :=
  rate_cache_configured w
  /\ exists start : Z,
       LRU.lookup key (rateLimitCache w)
       = Some (LRU.mkEntry key {| count := n; resetTime := reset |} start)
       /\ reset <= start + 1000 * 60 * 15.

(** The number of entries of a cache used more recently than the entry
    of [k]. *)
Fixpoint lru_rank {V : Type} (k : string) (l : list (LRU.Entry V)) : nat :=
  match l with
  | [] => 0
  | e :: l' => if LRU.is_key k e then 0 else S (lru_rank k l')
  end.

(** Revocations of access tokens, one after the other, each at its clock
    reading. *)
Definition blacklistTokens (revocations : list (Z * string)) (w : World) : World :=
  fold_left (fun w r => blacklistToken (fst r) (snd r) w) revocations w.

(** Revocations of refresh tokens, one after the other, each at its
    clock reading. *)
Definition blacklistRefreshTokens (revocations : list (Z * string)) (w : World)
  : World :=
  fold_left (fun w r => blacklistRefreshToken (fst r) (snd r) w) revocations w.

(** ** A reference platform

    An executable instance of the three interfaces, on which the handlers
    can be run on concrete requests: a token is the secret followed by the
    fields of the stamped payload, every character of a field escaped by
    [~] and every field closed by [.]. *)

Module Reference.

Fixpoint enc_str (s : string) : string :=
  match s with
  | EmptyString => "."
  | String c rest => String "~" (String c (enc_str rest))
  end.

Fixpoint dec_str (s : string) : option (string * string) :=
  match s with
  | String "." rest => Some (EmptyString, rest)
  | String "~" (String c rest) =>
      match dec_str rest with
      | Some (field, rest') => Some (String c field, rest')
      | None => None
      end
  | _ => None
  end.

Definition enc_opt (o : option string) : string :=
  match o with
  | Some s => String "S" (enc_str s)
  | None => "N"
  end.

Definition dec_opt (s : string) : option (option string * string) :=
  match s with
  | String "N" rest => Some (None, rest)
  | String "S" rest =>
      match dec_str rest with
      | Some (field, rest') => Some (Some field, rest')
      | None => None
      end
  | _ => None
  end.

Definition Z_to_string (z : Z) : string := NilEmpty.string_of_int (Z.to_int z).

Definition Z_of_string (s : string) : option Z :=
  match NilEmpty.int_of_string s with
  | Some d => Some (Z.of_int d)
  | None => None
  end.

Definition dec_num (s : string) : option (option Z * string) :=
  match dec_opt s with
  | Some (Some digits, rest) =>
      match Z_of_string digits with
      | Some z => Some (Some z, rest)
      | None => None
      end
  | Some (None, rest) => Some (None, rest)
  | None => None
  end.

Definition encode (secret : string) (p : Payload) : string :=
  enc_str secret +:+ enc_str (userId p) +:+ enc_opt (email p)
  +:+ enc_opt (role p) +:+ enc_opt (tokenId p)
  +:+ enc_opt (Z_to_string <$> iat p) +:+ enc_opt (Z_to_string <$> exp p).

Definition decode (token : string) : option (string * Payload) :=
  '(secret, r) ← dec_str token;
  '(uid, r) ← dec_str r;
  '(em, r) ← dec_opt r;
  '(ro, r) ← dec_opt r;
  '(tid, r) ← dec_opt r;
  '(issued, r) ← dec_num r;
  '(expires, r) ← dec_num r;
  if String.eqb r "" then
    Some (secret, {| userId := uid; email := em; role := ro; tokenId := tid;
                     iat := issued; exp := expires |})
  else None.

Definition span_of (expiresIn : string) : option Z :=
  if String.eqb expiresIn "15m" then Some 900
  else if String.eqb expiresIn "1h" then Some 3600
  else if String.eqb expiresIn "7d" then Some 604800
  else if String.eqb expiresIn "30d" then Some 2592000
  else None.

Definition sign (p : Payload) (secret expiresIn : string) (now : Z)
  : Exn + string :=
  match span_of expiresIn with
  | Some span =>
      inr (encode secret (stamp p (now / 1000) (now / 1000 + span)))
  | None =>
      inl (Error "expiresIn should be a number of seconds or string representing a timespan")
  end.

Definition verify (token secret : string) (now : Z) : Exn + Payload :=
  match decode token with
  | None => inl (JsonWebTokenError "jwt malformed")
  | Some (signer, p) =>
      if String.eqb signer secret then
        match exp p with
        | Some expires =>
            if expires <=? now / 1000
            then inl (TokenExpiredError "jwt expired")
            else inr p
        | None => inr p
        end
      else inl (JsonWebTokenError "invalid signature")
  end.

#[export] Instance jsonwebtoken : Jsonwebtoken :=
  {| timespan := span_of; jwt_sign := sign; jwt_verify := verify |}.

(** Dates are rendered by their millisecond count. *)
#[export] Instance runtime : Runtime :=
  {| toISOString := fun ms => pretty ms |}.

(** A store with one registered user. *)
#[export] Instance users : UserService :=
  {| findUserById := fun id =>
       if String.eqb id "64b7f0c2a1" then
         inr (Some {| _id := "64b7f0c2a1"; user_email := "ann@example.com" |})
       else inr None |}.

Definition env : ProcessEnv :=
  {| JWT_SECRET := Some "access-secret";
     JWT_EXPIRES_IN := None;
     JWT_REFRESH_SECRET := Some "refresh-secret";
     JWT_REFRESH_EXPIRES_IN := None;
     ALLOWED_ORIGINS := None |}.

(** HTTP whitespace: TAB, LF, CR and SPACE. *)
Definition is_http_space (c : ascii) : bool :=
  let n := nat_of_ascii c in
  (Nat.eqb n 9 || Nat.eqb n 10 || Nat.eqb n 13 || Nat.eqb n 32)%bool.

Fixpoint strip_start (s : string) : string :=
  match s with
  | EmptyString => EmptyString
  | String c rest => if is_http_space c then strip_start rest else s
  end.

Fixpoint strip_end (s : string) : string :=
  match s with
  | EmptyString => EmptyString
  | String c rest =>
      match strip_end rest with
      | EmptyString => if is_http_space c then EmptyString else String c EmptyString
      | r => String c r
      end
  end.

(** A header value as the [Headers] class stores it: without its
    leading and trailing HTTP whitespace. *)
Definition normalize (value : string) : string := strip_end (strip_start value).

(** A request with the given headers to the given path, as
    [new NextRequest(url, { headers })] builds it: every value is
    normalized, so that ["Bearer "] reads back as ["Bearer"]. *)
Definition request (path : string) (hs : list (string * string)) : NextRequest.t :=
  {| NextRequest.headers :=
       list_to_map (map (fun h => (fst h, normalize (snd h))) hs);
     NextRequest.pathname := path;
     NextRequest.user := None |}.

End Reference.

(** * The rest of the gate

    The functions of [lib/security.ts], [lib/auth.ts], [middleware.ts]
    and of the route files that the properties above did not need.  A
    string stands for a sequence of code units below 256. *)

(** ** Regular expressions of [lib/security.ts] *)

Module Regex.

Definition code (c : ascii) : nat := nat_of_ascii c.

Definition between (lo hi : nat) (c : ascii) : bool :=
  (Nat.leb lo (code c) && Nat.leb (code c) hi)%bool.

(** [[A-Z]], [[a-z]], [\d] and [\w] *)
Definition is_upper (c : ascii) : bool := between 65 90 c.
Definition is_lower (c : ascii) : bool := between 97 122 c.
Definition is_digit (c : ascii) : bool := between 48 57 c.
Definition is_word (c : ascii) : bool :=
  (is_upper c || is_lower c || is_digit c || Nat.eqb (code c) 95)%bool.

(** The class of special characters of [validatePassword]; the double
    quote is code 34. *)
Definition is_special (c : ascii) : bool :=
  (existsb (Ascii.eqb c) (list_ascii_of_string "!@#$%^&*(),.?:{}|<>")
   || Nat.eqb (code c) 34)%bool.

(** [/[<>]/] *)
Definition is_angle (c : ascii) : bool :=
  (Ascii.eqb c "<" || Ascii.eqb c ">")%bool.

(** [/cls/.test(s)] for a character class. *)
Fixpoint test (cls : ascii -> bool) (s : string) : bool :=
  match s with
  | EmptyString => false
  | String c rest => (cls c || test cls rest)%bool
  end.

(** [s.replace(/cls/g, "")] for a character class. *)
Fixpoint remove_class (cls : ascii -> bool) (s : string) : string :=
  match s with
  | EmptyString => EmptyString
  | String c rest =>
      if cls c then remove_class cls rest else String c (remove_class cls rest)
  end.

(** The [i] flag on an ASCII pattern: letters match in either case. *)
Definition lower (c : ascii) : ascii :=
  if is_upper c then ascii_of_nat (code c + 32) else c.

(** A lower-case literal read at the start of [s], whatever the case. *)
Fixpoint literal_i (pattern s : string) : bool :=
  match pattern, s with
  | EmptyString, _ => true
  | String p pattern', String c s' =>
      (Ascii.eqb (lower c) p && literal_i pattern' s')%bool
  | String _ _, EmptyString => false
  end.

(** The number of leading characters of [s] in a class. *)
Fixpoint run (cls : ascii -> bool) (s : string) : nat :=
  match s with
  | String c rest => if cls c then S (run cls rest) else 0%nat
  | EmptyString => 0%nat
  end.

(** The length of the match of [/javascript:/i] at the start of [s]. *)
Definition match_javascript (s : string) : option nat :=
  if literal_i "javascript:" s then Some 11%nat else None.

(** The length of the match of [/on\w+=/i] at the start of [s]: the
    greedy [\w+] takes the whole run of word characters, and giving some
    of them back cannot make [=] match. *)
Definition match_handler (s : string) : option nat :=
  match s with
  | String o (String n rest) =>
      if (Ascii.eqb (lower o) "o" && Ascii.eqb (lower n) "n")%bool then
        let len := run is_word rest in
        if (Nat.ltb 0 len
            && match String.get len rest with
               | Some c => Ascii.eqb c "="
               | None => false
               end)%bool
        then Some (2 + len + 1)%nat else None
      else None
  | _ => None
  end.

(** [s.replace(/re/g, "")], where [matcher] gives the length of the match
    of [re] at the start of a string: the matches are found from left to
    right and do not overlap.  [skip] counts the characters of the
    current match still to be dropped. *)
Fixpoint remove_matches (matcher : string -> option nat) (skip : nat)
    (s : string) : string :=
  match s with
  | EmptyString => EmptyString
  | String c rest =>
      match skip with
      | S k => remove_matches matcher k rest
      | O =>
          match matcher s with
          | Some (S k) => remove_matches matcher k rest
          | _ => String c (remove_matches matcher 0 rest)
          end
      end
  end.

End Regex.

(** ** [lib/security.ts]: validation helpers *)

Definition sanitizeInput (input : string) : string :=
  Regex.remove_matches Regex.match_handler 0
    (Regex.remove_matches Regex.match_javascript 0
       (Regex.remove_class Regex.is_angle (JS.trim input))).

Record PasswordValidation : Type := mkValidation
  { valid : bool; errors : list string }.

Definition validatePassword (password : string) : PasswordValidation :=
  let errors : list string := [] in
  let errors :=
    if Nat.ltb (String.length password) 8
    then (errors ++ ["Password must be at least 8 characters long"])%list
    else errors in
  let errors :=
    if negb (Regex.test Regex.is_upper password)
    then (errors ++ ["Password must contain at least one uppercase letter"])%list
    else errors in
  let errors :=
    if negb (Regex.test Regex.is_lower password)
    then (errors ++ ["Password must contain at least one lowercase letter"])%list
    else errors in
  let errors :=
    if negb (Regex.test Regex.is_digit password)
    then (errors ++ ["Password must contain at least one number"])%list
    else errors in
  let errors :=
    if negb (Regex.test Regex.is_special password)
    then (errors ++ ["Password must contain at least one special character"])%list
    else errors in
  {| valid := Nat.eqb (length errors) 0; errors := errors |}.

(** [byte.toString(16)] for a byte. *)
Definition hex_digit (d : N) : ascii :=
  default "0"%char (String.get (N.to_nat d) "0123456789abcdef").

Definition byte_toString16 (b : Byte.byte) : string :=
  let n := Byte.to_N b in
  if (n <? 16)%N then String (hex_digit n) EmptyString
  else String (hex_digit (n / 16)%N) (String (hex_digit (n mod 16)%N) EmptyString).

(** [s.padStart(n, fill)] for a one-character [fill]. *)
Definition padStart (n : nat) (fill : ascii) (s : string) : string :=
  string_of_list_ascii (repeat fill (n - String.length s)) +:+ s.

(** [array] is the [Uint8Array] after [crypto.getRandomValues] has filled
    it; its length is the [length] argument of the source. *)
Definition generateSecureToken (array : list Byte.byte) : string :=
  String.concat "" (map (fun byte => padStart 2 "0" (byte_toString16 byte)) array).

Definition validateCSRFToken (token storedToken : string) : bool :=
  String.eqb token storedToken.

(** ** [middleware.ts], the route exports and the login entry point *)

(** The user document with its password hash, reduced to the fields the
    login handler reads. *)
Module IUser.
Record t : Type := make
  { _id : option string; email : string; password : string }.
End IUser.

(** What the login handler calls outside the gate: [loginSchema.parse]
    (the errors of the [ZodError] it throws, or the validated email and
    password), [UserService.findUserByEmail], [UserService.verifyPassword]
    and the JSON text of a user document without its password.  [Body] is
    the type of a parsed request body. *)
Class LoginServices (Body : Type) : Type :=
  { loginSchema_parse : Body -> string + string * string;
    findUserByEmail : string -> Exn + option IUser.t;
    verifyPassword : IUser.t -> string -> Exn + bool;
    userWithoutPassword : IUser.t -> string }.

Section Routes.

Context {J : Jsonwebtoken} {R : Runtime}.
Variable env : ProcessEnv.

Local Open Scope js_scope.

(** [response.headers.set(key, value)] *)
Definition set_header (key value : string) (response : NextResponse.t)
  : NextResponse.t :=
  {| NextResponse.status := NextResponse.status response;
     NextResponse.body := NextResponse.body response;
     NextResponse.headers := <[key := value]> (NextResponse.headers response) |}.

(** [middleware.ts]; [method] is [request.method].  A response that lets
    the request through and the empty 200 response to a preflight request
    are both responses with status 200 and no body. *)
Definition middleware (method : string) (request : NextRequest.t)
  : NextResponse.t :=
  let response := NextResponse.set_all SECURITY_HEADERS NextResponse.next in
  let api := JS.startsWith (NextRequest.pathname request) "/api/" in
  if (api && negb (validateOrigin env request))%bool
  then NextResponse.json [("error", "Invalid origin")] 403
  else if api then
    let origin := NextRequest.get request "origin" in
    let response :=
      if (JS.truthy origin
          && existsb (String.eqb (default "" origin)) (allowedOrigins env))%bool
      then set_header "Access-Control-Allow-Origin" (default "" origin) response
      else response in
    let response :=
      set_header "Access-Control-Allow-Methods"
        "GET, POST, PUT, DELETE, OPTIONS" response in
    let response :=
      set_header "Access-Control-Allow-Headers"
        "Content-Type, Authorization" response in
    let response := set_header "Access-Control-Allow-Credentials" "true" response in
    (* Handle preflight requests *)
    if String.eqb method "OPTIONS"
    then {| NextResponse.status := 200; NextResponse.body := [];
            NextResponse.headers := NextResponse.headers response |}
    else response
  else response.

(** The export of a protected route, as in [app/api/bookings/route.ts]:
    [GET(request)] around its [GETHandler]. *)
Definition GET {C : Type} (GETHandler : NextRequest.t -> C -> Js NextResponse.t)
    (now : Z) (request : NextRequest.t) (context : C) : Js NextResponse.t :=
  fun w =>
    (* Apply security authentication middleware first *)
    let securityAuthResponse := securityMiddleware env request in
    if negb (NextResponse.status securityAuthResponse =? 200)
    then (inr securityAuthResponse, w)
    else
      let (authResult, w1) := authenticateToken env now request w in
      match authResult with
      | inl response => (inr response, w1)
      | inr payload =>
          GETHandler (NextRequest.set_user request payload) context w1
      end.

(** [app/api/auth/login/route.ts]; [body] is the outcome of
    [request.json()] and [tokenId] the random draw of
    [generateTokenPair]. *)
Definition POST {Body : Type} {S : LoginServices Body} (now : Z)
    (tokenId : string) (request : NextRequest.t) (body : Exn + Body)
  : Js NextResponse.t :=
  try_catch
    ((* Apply security middleware *)
     let securityResponse := securityMiddleware env request in
     if negb (NextResponse.status securityResponse =? 200)
     then ret securityResponse
     else
       (* Apply strict rate limiting for auth endpoints *)
       rateLimitResult <- total (rateLimit now request auth) ;;
       if negb (success rateLimitResult)
       then
         writes (logSecurityEvent now "rate_limit_exceeded"
                   [ ("endpoint", "/api/auth/login");
                     ("ip", ip_of request) ]) ;;;
         ret (NextResponse.json
                [("error", "Too many login attempts. Please try again later.")]
                429)
       else
         body <- pure body ;;
         (* Validate request body using security module schema *)
         match loginSchema_parse body with
         | inl zodErrors =>
             writes (logSecurityEvent now "validation_error"
                       [ ("endpoint", "/api/auth/login");
                         ("errors", zodErrors);
                         ("ip", ip_of request) ]) ;;;
             ret (NextResponse.json
                    [("error", "Validation error"); ("details", zodErrors)]
                    400)
         | inr (validatedEmail, validatedPassword) =>
             (* Find user by email using UserService *)
             found <- pure (findUserByEmail validatedEmail) ;;
             match found with
             | None =>
                 writes (logSecurityEvent now "login_failed"
                           [ ("email", validatedEmail);
                             ("reason", "user_not_found");
                             ("ip", ip_of request) ]) ;;;
                 ret (NextResponse.json
                        [("error", "Invalid email or password")] 401)
             | Some user =>
                 (* Verify password using UserService *)
                 isPasswordValid <- pure (verifyPassword user validatedPassword) ;;
                 if negb isPasswordValid
                 then
                   writes (logSecurityEvent now "login_failed"
                             [ ("email", validatedEmail);
                               ("reason", "invalid_password");
                               ("ip", ip_of request) ]) ;;;
                   ret (NextResponse.json
                          [("error", "Invalid email or password")] 401)
                 else
                   (* Generate tokens *)
                   id <- pure (match IUser._id user with
                               | Some id => inr id
                               | None =>
                                   inl (Error "Cannot read properties of undefined")
                               end) ;;
                   pair <- pure (generateTokenPair env now tokenId id
                                   (IUser.email user)) ;;
                   (* Log successful login *)
                   writes (logSecurityEvent now "login_successful"
                             [ ("userId", id);
                               ("email", IUser.email user);
                               ("ip", ip_of request) ]) ;;;
                   let response :=
                     NextResponse.json
                       [ ("message", "Login successful");
                         ("user", userWithoutPassword user);
                         ("accessToken", fst pair);
                         ("refreshToken", snd pair) ] 200 in
                   (* Add rate limit headers *)
                   ret (match result_headers rateLimitResult with
                        | Some hs => NextResponse.set_all hs response
                        | None => response
                        end)
             end
         end)
    (fun error =>
       ret (NextResponse.json [("error", "Internal server error")] 500)).

End Routes.

(** A login service on which the login handler can be run: the body is
    an email and a password, the schema wants an [@] in the email and a
    password that is not empty, and the store holds one account whose
    hash is its password behind a prefix. *)
Module ReferenceLogin.

Definition account : IUser.t :=
  {| IUser._id := Some "64b7f0c2a1";
     IUser.email := "ann@example.com";
     IUser.password := "hash:Correct-horse-1" |}.

#[export] Instance services : LoginServices (string * string) :=
  {| loginSchema_parse := fun body =>
       if (JS.includes (fst body) "@" && JS.truthy_string (snd body))%bool
       then inr body else inl "invalid credentials";
     findUserByEmail := fun email =>
       if String.eqb email (IUser.email account)
       then inr (Some account) else inr None;
     verifyPassword := fun user password =>
       inr (String.eqb ("hash:" +:+ password) (IUser.password user));
     userWithoutPassword := fun user => IUser.email user |}.

End ReferenceLogin.

(** ** Vocabulary of the further properties *)

(** [authHeader && authHeader.split(" ")[1]], the token that
    [authenticateToken] reads in the Authorization header. *)
Definition token_of (request : NextRequest.t) : option string :=
  let authHeader := NextRequest.get request "authorization" in
  if JS.truthy authHeader
  then JS.split " " (default "" authHeader) !! 1%nat
  else authHeader.

(** A cache created with [max] and [ttl] that holds at most [max]
    entries, no key twice. *)
Definition cache_inv {V : Type} (max ttl : Z) (c : LRU.t V) : Prop :=
  LRU.max c = max /\ LRU.ttl c = ttl
  /\ LRU.size c <= max
  /\ List.NoDup (map LRU.ekey (LRU.items c)).

Definition world_inv (w : World) : Prop :=
  cache_inv 1000 (1000 * 60 * 60 * 24) (blacklistedTokens w)
  /\ cache_inv 1000 (1000 * 60 * 60 * 24 * 7) (blacklistedRefreshTokens w)
  /\ cache_inv 10000 (1000 * 60 * 15) (rateLimitCache w).

(** Every stored window belongs to a limit class and counts between one
    request and the maximum of that class. *)
Definition count_inv (w : World) : Prop :=
  Forall (fun e =>
            forall (request : NextRequest.t) (type : RateLimitType),
              LRU.ekey e = rateLimitKey request type ->
              1 <= count (LRU.evalue e) <= max (RATE_LIMITS type))
    (LRU.items (rateLimitCache w)).

(** The entry of [token] sits in the cache behind entries whose keys
    are [seen], most recently used first. *)
Definition lru_behind {V : Type} (token : string) (seen : list string)
    (c : LRU.t V) : Prop :=
  exists (front : list (LRU.Entry V)) (e : LRU.Entry V)
         (back : list (LRU.Entry V)),
    LRU.items c = (front ++ e :: back)%list
    /\ LRU.ekey e = token /\ map LRU.ekey front = seen.

(** The two revocation sets of a world. *)
Definition revocations (w : World) : LRU.t bool * LRU.t bool :=
  (blacklistedTokens w, blacklistedRefreshTokens w).

(** Reading a pair of hexadecimal digits back. *)
Definition hex_value (c : ascii) : option N :=
  let n := N.of_nat (nat_of_ascii c) in
  if ((48 <=? n) && (n <=? 57))%N then Some (n - 48)%N
  else if ((97 <=? n) && (n <=? 102))%N then Some (n - 87)%N
  else None.

Fixpoint parse_hex (s : string) : option (list Byte.byte) :=
  match s with
  | EmptyString => Some []
  | String hi (String lo rest) =>
      match hex_value hi, hex_value lo, parse_hex rest with
      | Some h, Some l, Some bytes =>
          match Byte.of_N (16 * h + l) with
          | Some b => Some (b :: bytes)
          | None => None
          end
      | _, _, _ => None
      end
  | String _ EmptyString => None
  end.

(** * Properties *)

(** ** The helpers on concrete inputs *)

Example split_bearer : JS.split " " "Bearer abc" = ["Bearer"; "abc"].
Proof. reflexivity. Qed.

Example split_bearer_empty : JS.split " " "Bearer " = ["Bearer"; ""].
Proof. reflexivity. Qed.

Example split_empty : JS.split "," "" = [""].
Proof. reflexivity. Qed.

Example trim_hop : JS.trim " 203.0.113.7 " = "203.0.113.7".
Proof. reflexivity. Qed.

Example includes_auth : JS.includes "/api/auth/refresh" "/auth/" = true.
Proof. reflexivity. Qed.

Example ceil_div_up : JS.ceil_div 899001 1000 = 900.
Proof. reflexivity. Qed.

Example client_of_forwarded :
  getClientIP
    (Reference.request "/api/bookings"
       [("x-forwarded-for", "203.0.113.7, 10.0.0.1"); ("x-real-ip", "10.0.0.2")])
  = "203.0.113.7".
Proof. reflexivity. Qed.

Example client_unknown : getClientIP (Reference.request "/api/bookings" []) = "unknown".
Proof. reflexivity. Qed.

Example login_is_auth_endpoint : isAuthEndpoint "/api/auth/login" = true.
Proof. reflexivity. Qed.

Example bookings_is_not_auth_endpoint : isAuthEndpoint "/api/bookings" = false.
Proof. reflexivity. Qed.

(** ** The cache *)

Section LRUFacts.

Context {V : Type}.
Implicit Types (c : LRU.t V) (e : LRU.Entry V) (k : string) (v : V).

Lemma lru_is_key_true k e : LRU.is_key k e = true <-> LRU.ekey e = k.
Proof. unfold LRU.is_key. apply String.eqb_eq. Qed.

Lemma lru_lookup_key k c e : LRU.lookup k c = Some e -> LRU.ekey e = k.
Proof.
  unfold LRU.lookup. intros Hfind.
  apply find_some in Hfind as [_ Hkey]. now apply lru_is_key_true.
Qed.

Lemma lru_lookup_front k c e l :
  LRU.ekey e = k -> LRU.lookup k (LRU.with_items c (e :: l)) = Some e.
Proof.
  intros Hkey. unfold LRU.lookup. simpl.
  destruct (LRU.is_key k e) eqn:Hk; [reflexivity|].
  apply lru_is_key_true in Hkey. congruence.
Qed.

Lemma lru_lookup_set k v c now :
  LRU.lookup k (LRU.set now k v c)
  = Some (LRU.mkEntry k v (if LRU.ttl c =? 0 then 0 else now)).
Proof.
  unfold LRU.set. destruct (LRU.lookup k c); now apply lru_lookup_front.
Qed.

Lemma lru_ttl_set k v c now : LRU.ttl (LRU.set now k v c) = LRU.ttl c.
Proof. unfold LRU.set. now destruct (LRU.lookup k c). Qed.

Lemma lru_max_set k v c now : LRU.max (LRU.set now k v c) = LRU.max c.
Proof. unfold LRU.set. now destruct (LRU.lookup k c). Qed.

Lemma lru_ttl_get k c now : LRU.ttl (snd (LRU.get now k c)) = LRU.ttl c.
Proof.
  unfold LRU.get. destruct (LRU.lookup k c) as [e|]; [|reflexivity].
  now destruct (LRU.isStale c now e).
Qed.

Lemma lru_max_get k c now : LRU.max (snd (LRU.get now k c)) = LRU.max c.
Proof.
  unfold LRU.get. destruct (LRU.lookup k c) as [e|]; [|reflexivity].
  now destruct (LRU.isStale c now e).
Qed.

(** An entry is live as long as no more than [ttl] has elapsed since it
    was set. *)
Lemma lru_fresh_not_stale c e now :
  now - LRU.estart e <= LRU.ttl c -> LRU.isStale c now e = false.
Proof.
  intros Hage. unfold LRU.isStale.
  destruct (LRU.ttl c <? now - LRU.estart e) eqn:Hlt.
  - apply Z.ltb_lt in Hlt. lia.
  - now rewrite andb_false_r.
Qed.

Lemma lru_has_set k v c now now' :
  now' - now <= LRU.ttl c -> LRU.has now' k (LRU.set now k v c) = true.
Proof.
  intros Hage. unfold LRU.has. rewrite lru_lookup_set.
  unfold LRU.isStale. rewrite lru_ttl_set. simpl.
  destruct (LRU.ttl c =? 0) eqn:Hz; simpl; [reflexivity|].
  destruct (now =? 0); simpl; [reflexivity|].
  destruct (LRU.ttl c <? now' - now) eqn:Hlt; [|reflexivity].
  apply Z.ltb_lt in Hlt. lia.
Qed.

Lemma lru_lookup_remove_other k k' (l : list (LRU.Entry V)) :
  k' <> k ->
  List.find (LRU.is_key k') (LRU.remove k l) = List.find (LRU.is_key k') l.
Proof.
  intros Hne. induction l as [|e l IH]; simpl; [reflexivity|].
  destruct (LRU.is_key k e) eqn:Hk; simpl.
  - destruct (LRU.is_key k' e) eqn:Hk'; [|exact IH].
    apply lru_is_key_true in Hk, Hk'. congruence.
  - destruct (LRU.is_key k' e); [reflexivity | exact IH].
Qed.

Lemma lru_lookup_removelast k (l : list (LRU.Entry V)) :
  List.find (LRU.is_key k) (removelast l) = None
  \/ List.find (LRU.is_key k) (removelast l) = List.find (LRU.is_key k) l.
Proof.
  induction l as [|e l IH]; simpl; [now left|].
  destruct l as [|e' l']; [now left|].
  change (List.find (LRU.is_key k) (e :: removelast (e' :: l')))
    with (if LRU.is_key k e then Some e
          else List.find (LRU.is_key k) (removelast (e' :: l'))).
  change (List.find (LRU.is_key k) (e :: e' :: l'))
    with (if LRU.is_key k e then Some e
          else List.find (LRU.is_key k) (e' :: l')).
  destruct (LRU.is_key k e); [now right | exact IH].
Qed.

(** Setting a key never makes another key appear, nor changes its entry;
    it can only evict it. *)
Lemma lru_lookup_set_other k k' v c now :
  k' <> k ->
  LRU.lookup k' (LRU.set now k v c) = None
  \/ LRU.lookup k' (LRU.set now k v c) = LRU.lookup k' c.
Proof.
  intros Hne. unfold LRU.set, LRU.lookup.
  assert (LRU.is_key k' (LRU.mkEntry k v (if LRU.ttl c =? 0 then 0 else now))
          = false) as Hnew.
  { destruct (LRU.is_key k' _) eqn:Hk; [|reflexivity].
    apply lru_is_key_true in Hk. simpl in Hk. congruence. }
  destruct (List.find (LRU.is_key k) (LRU.items c)); simpl; rewrite Hnew.
  - right. now apply lru_lookup_remove_other.
  - destruct (LRU.size c =? LRU.max c); [apply lru_lookup_removelast | now right].
Qed.

Lemma lru_has_set_other k k' v c now now' :
  k' <> k ->
  LRU.has now' k' c = false ->
  LRU.has now' k' (LRU.set now k v c) = false.
Proof.
  intros Hne Hfree. unfold LRU.has in *.
  destruct (lru_lookup_set_other k k' v c now Hne) as [-> | ->];
    [reflexivity|].
  destruct (LRU.lookup k' c) as [e|]; [|reflexivity].
  unfold LRU.isStale in *. now rewrite lru_ttl_set.
Qed.

(** How long an entry survives the insertion of other keys *)

Lemma lru_rank_remove_other k k' (l : list (LRU.Entry V)) :
  k' <> k ->
  (lru_rank k (LRU.remove k' l) <= lru_rank k l)%nat.
Proof.
  intros Hne. induction l as [|x l IH]; simpl; [lia|].
  destruct (LRU.is_key k' x) eqn:Hk'; simpl.
  - destruct (LRU.is_key k x) eqn:Hk; [|lia].
    apply lru_is_key_true in Hk, Hk'. congruence.
  - destruct (LRU.is_key k x); lia.
Qed.

Lemma lru_removelast_keeps k (l : list (LRU.Entry V)) e :
  List.find (LRU.is_key k) l = Some e ->
  (S (lru_rank k l) < length l)%nat ->
  List.find (LRU.is_key k) (removelast l) = Some e
  /\ lru_rank k (removelast l) = lru_rank k l.
Proof.
  induction l as [|x l IH]; [discriminate|].
  destruct l as [|y l'].
  - intros _ Hlen. simpl in Hlen. lia.
  - change (removelast (x :: y :: l')) with (x :: removelast (y :: l')).
    cbn [List.find lru_rank length].
    destruct (LRU.is_key k x); [now intros|].
    intros Hfind Hlen.
    destruct (IH Hfind) as [H1 H2]; [cbn [length lru_rank] in *; lia|].
    split; [exact H1 | now f_equal].
Qed.

(** Setting another key leaves the entry of [k] as it is, one place
    further from the front at most, unless the entry of [k] is the least
    recently used one of a full cache. *)
Lemma lru_set_other_keeps k k' v c now e :
  k' <> k ->
  LRU.lookup k c = Some e ->
  Z.of_nat (lru_rank k (LRU.items c)) + 1 < LRU.max c ->
  LRU.lookup k (LRU.set now k' v c) = Some e
  /\ (lru_rank k (LRU.items (LRU.set now k' v c))
      <= S (lru_rank k (LRU.items c)))%nat.
Proof.
  intros Hne Hlookup Hrank. unfold LRU.set, LRU.lookup in *.
  assert (LRU.is_key k (LRU.mkEntry k' v (if LRU.ttl c =? 0 then 0 else now))
          = false) as Hnew.
  { destruct (LRU.is_key k _) eqn:Hk; [|reflexivity].
    apply lru_is_key_true in Hk. simpl in Hk. congruence. }
  destruct (List.find (LRU.is_key k') (LRU.items c)); simpl; rewrite Hnew.
  - split.
    + rewrite lru_lookup_remove_other; [assumption | congruence].
    + pose proof (lru_rank_remove_other k k' (LRU.items c) Hne). lia.
  - destruct (LRU.size c =? LRU.max c) eqn:Hfull.
    + apply Z.eqb_eq in Hfull. unfold LRU.size in Hfull.
      destruct (lru_removelast_keeps k (LRU.items c) e Hlookup ltac:(lia))
        as [H1 H2].
      split; [exact H1 | lia].
    + split; [assumption | lia].
Qed.

Lemma lru_sets_other_keep (sets : list (Z * string)) v :
  forall c k e,
    LRU.lookup k c = Some e ->
    Forall (fun r => snd r <> k) sets ->
    Z.of_nat (lru_rank k (LRU.items c)) + Z.of_nat (length sets) < LRU.max c ->
    let c' := fold_left (fun c r => LRU.set (fst r) (snd r) v c) sets c in
    LRU.lookup k c' = Some e /\ LRU.ttl c' = LRU.ttl c.
Proof.
  induction sets as [|[now k'] sets IH]; intros c k e Hlookup Hother Hroom.
  - now split.
  - inversion Hother as [|? ? Hne Hrest]; subst. simpl in Hne.
    cbn [fold_left fst snd]. cbn [length] in Hroom.
    destruct (lru_set_other_keeps k k' v c now e Hne Hlookup ltac:(lia))
      as [Hkept Hrank].
    destruct (IH (LRU.set now k' v c) k e Hkept Hrest) as [H1 H2].
    + rewrite lru_max_set. lia.
    + split; [exact H1|]. now rewrite H2, lru_ttl_set.
Qed.

End LRUFacts.

(** Properties of all entries that the operations preserve *)

Section LRUInvariants.

Context {V : Type}.
Variable P : LRU.Entry V -> Prop.
Implicit Types (c : LRU.t V) (e : LRU.Entry V) (k : string) (v : V).

Lemma lru_lookup_In k c e : LRU.lookup k c = Some e -> In e (LRU.items c).
Proof. unfold LRU.lookup. intros H. now apply find_some in H. Qed.

Lemma Forall_lru_remove k (l : list (LRU.Entry V)) :
  Forall P l -> Forall P (LRU.remove k l).
Proof.
  intros H. apply List.Forall_forall. intros e He.
  apply filter_In in He as [He _].
  revert e He. now apply List.Forall_forall.
Qed.

Lemma Forall_removelast (l : list (LRU.Entry V)) :
  Forall P l -> Forall P (removelast l).
Proof.
  induction 1 as [|e l He Hl IH]; simpl; [constructor|].
  destruct l; [constructor | now constructor].
Qed.

Lemma Forall_lru_get k c now :
  Forall P (LRU.items c) -> Forall P (LRU.items (snd (LRU.get now k c))).
Proof.
  intros H. unfold LRU.get.
  destruct (LRU.lookup k c) as [e|] eqn:Hlookup; [|assumption].
  destruct (LRU.isStale c now e); simpl.
  - now apply Forall_lru_remove.
  - constructor; [|now apply Forall_lru_remove].
    apply lru_lookup_In in Hlookup. revert e Hlookup.
    now apply List.Forall_forall.
Qed.

Lemma Forall_lru_set k v c now :
  Forall P (LRU.items c) ->
  P (LRU.mkEntry k v (if LRU.ttl c =? 0 then 0 else now)) ->
  Forall P (LRU.items (LRU.set now k v c)).
Proof.
  intros H Hnew. unfold LRU.set.
  destruct (LRU.lookup k c); simpl; constructor; try assumption.
  - now apply Forall_lru_remove.
  - destruct (LRU.size c =? LRU.max c); [now apply Forall_removelast | assumption].
Qed.

Lemma lru_get_Some_In k c now v :
  fst (LRU.get now k c) = Some v ->
  exists e, In e (LRU.items c) /\ LRU.evalue e = v.
Proof.
  unfold LRU.get. destruct (LRU.lookup k c) as [e|] eqn:Hlookup; [|discriminate].
  destruct (LRU.isStale c now e); simpl; [discriminate|].
  intros [= <-]. exists e. split; [|reflexivity]. now apply lru_lookup_In in Hlookup.
Qed.

End LRUInvariants.

(** ** Revocation: a revoked token is rejected as revoked *)

Section Revocation.

Context {J : Jsonwebtoken}.
Variable env : ProcessEnv.

Lemma verifyAccessToken_revoked now token w :
  configured (JWT_SECRET env) ->
  LRU.has now token (blacklistedTokens w) = true ->
  verifyAccessToken env now token w
  = inl (TokenBlacklistedError "Token has been revoked").
Proof.
  unfold configured, verifyAccessToken. intros Hsecret Hhas.
  destruct (JWT_SECRET env) as [secret|]; simpl in Hsecret; [|discriminate].
  now rewrite Hsecret, Hhas.
Qed.

Lemma verifyRefreshToken_revoked now token w :
  configured (JWT_REFRESH_SECRET env) ->
  LRU.has now token (blacklistedRefreshTokens w) = true ->
  verifyRefreshToken env now token w
  = inl (RefreshTokenBlacklistedError "Refresh token has been revoked").
Proof.
  unfold configured, verifyRefreshToken. intros Hsecret Hhas.
  destruct (JWT_REFRESH_SECRET env) as [secret|]; simpl in Hsecret; [|discriminate].
  now rewrite Hsecret, Hhas.
Qed.

(** With the access secret configured, [verifyAccessToken token] called
    in the world that [blacklistToken token] returns, within the life
    time of the revocation entry, throws [TokenBlacklistedError], for
    every token string and whatever [jwt.verify] would say of its
    signature and expiry. *)
Lemma verifyAccessToken_after_blacklistToken :
  forall (now now' : Z) (token : string) (w : World),
    configured (JWT_SECRET env) ->
    now' - now <= LRU.ttl (blacklistedTokens w) ->
    verifyAccessToken env now' token (blacklistToken now token w)
    = inl (TokenBlacklistedError "Token has been revoked").
Proof.
  intros now now' token w Hsecret Hage.
  apply verifyAccessToken_revoked; [assumption|].
  unfold blacklistToken. simpl. now apply lru_has_set.
Qed.

(** The revocation also outlives later revocations of other access
    tokens, as long as they are fewer than the capacity of the set (1000
    in every world reached from [initial]): the least recently revoked
    token is the one evicted. *)
Lemma revoked_token_survives_other_revocations :
  forall (revocations : list (Z * string)) (now now' : Z) (token : string)
         (w : World),
    configured (JWT_SECRET env) ->
    Forall (fun r => snd r <> token) revocations ->
    Z.of_nat (length revocations) < LRU.max (blacklistedTokens w) ->
    now' - now <= LRU.ttl (blacklistedTokens w) ->
    verifyAccessToken env now' token
      (blacklistTokens revocations (blacklistToken now token w))
    = inl (TokenBlacklistedError "Token has been revoked").
Proof.
  intros revocations now now' token w Hsecret Hother Hroom Hage.
  apply verifyAccessToken_revoked; [assumption|].
  assert (blacklistedTokens
            (blacklistTokens revocations (blacklistToken now token w))
          = fold_left (fun c r => LRU.set (fst r) (snd r) true c) revocations
              (LRU.set now token true (blacklistedTokens w))) as ->.
  { unfold blacklistTokens.
    change (LRU.set now token true (blacklistedTokens w))
      with (blacklistedTokens (blacklistToken now token w)).
    generalize (blacklistToken now token w). clear.
    induction revocations as [|r rs IH]; intros w0; [reflexivity|].
    simpl. now rewrite IH. }
  set (c := LRU.set now token true (blacklistedTokens w)).
  destruct (lru_sets_other_keep revocations true c token _
              (lru_lookup_set token true (blacklistedTokens w) now) Hother)
    as [Hkept Httl].
  { subst c. rewrite lru_max_set.
    assert (lru_rank token (LRU.items (LRU.set now token true
                                         (blacklistedTokens w))) = 0%nat)
      as ->; [|lia].
    unfold LRU.set.
    destruct (LRU.lookup token (blacklistedTokens w)); simpl;
      unfold LRU.is_key; simpl; now rewrite String.eqb_refl. }
  unfold LRU.has. rewrite Hkept. unfold LRU.isStale. simpl.
  rewrite Httl. subst c. rewrite lru_ttl_set.
  destruct (LRU.ttl (blacklistedTokens w) =? 0); simpl; [reflexivity|].
  destruct (now =? 0); simpl; [reflexivity|].
  destruct (LRU.ttl (blacklistedTokens w) <? now' - now) eqn:Hlt; [|reflexivity].
  apply Z.ltb_lt in Hlt. lia.
Qed.

End Revocation.

(** ** The reference platform satisfies the contract of [jsonwebtoken] *)

Module ReferenceFacts.
Import Reference.

Lemma dec_enc_str (s r : string) : dec_str (enc_str s +:+ r) = Some (s, r).
Proof.
  induction s as [|c s IH]; simpl; [reflexivity|]. now rewrite IH.
Qed.

Lemma dec_enc_opt (o : option string) (r : string) :
  dec_opt (enc_opt o +:+ r) = Some (o, r).
Proof.
  destruct o as [s|]; simpl; [|reflexivity]. now rewrite dec_enc_str.
Qed.

Lemma Z_of_to_string (z : Z) : Z_of_string (Z_to_string z) = Some z.
Proof.
  unfold Z_of_string, Z_to_string. rewrite NilEmpty.isi.
  now rewrite DecimalZ.of_to.
Qed.

Lemma dec_enc_num (o : option Z) (r : string) :
  dec_num (enc_opt (Z_to_string <$> o) +:+ r) = Some (o, r).
Proof.
  unfold dec_num. rewrite dec_enc_opt.
  destruct o as [z|]; simpl; [|reflexivity]. now rewrite Z_of_to_string.
Qed.

Lemma append_nil_r (a : string) : a +:+ "" = a.
Proof.
  induction a as [|x a IH]; [reflexivity|].
  change (String x (a +:+ "") = String x a). now f_equal.
Qed.

Lemma decode_encode (secret : string) (p : Payload) :
  decode (encode secret p) = Some (secret, p).
Proof.
  unfold decode, encode.
  rewrite dec_enc_str. simpl. rewrite dec_enc_str. simpl.
  do 3 (rewrite dec_enc_opt; simpl).
  rewrite dec_enc_num. simpl.
  rewrite <- (append_nil_r (enc_opt (Z_to_string <$> exp p))).
  rewrite dec_enc_num. simpl. now destruct p.
Qed.

Lemma verify_encode (secret : string) (p : Payload) (now : Z) :
  verify (encode secret p) secret now
  = match exp p with
    | Some expires =>
        if expires <=? now / 1000
        then inl (TokenExpiredError "jwt expired") else inr p
    | None => inr p
    end.
Proof.
  unfold verify. rewrite decode_encode. now rewrite String.eqb_refl.
Qed.

#[export] Instance laws : JsonwebtokenLaws jsonwebtoken.
Proof.
  split.
  - intros p secret expiresIn now span Hspan _ _ _. simpl in *.
    unfold sign. rewrite Hspan. eauto.
  - intros p secret expiresIn token now Hsign _ _. simpl in *.
    unfold sign in Hsign. destruct (span_of expiresIn) as [span|]; [|discriminate].
    injection Hsign as <-. exists span. split; [reflexivity|].
    intros now'. now rewrite verify_encode.
Qed.

End ReferenceFacts.

(** ** C2 and C4: verification of access and refresh tokens *)

Lemma truthy_string_true (s : string) : JS.truthy_string s = true <-> s <> "".
Proof.
  unfold JS.truthy_string. rewrite negb_true_iff. apply String.eqb_neq.
Qed.

Lemma configured_inv (o : option string) :
  configured o -> exists s, o = Some s /\ JS.truthy_string s = true.
Proof.
  unfold configured. destruct o as [s|]; simpl; [eauto | discriminate].
Qed.

Section Verification.

Context {J : Jsonwebtoken}.
Variable env : ProcessEnv.

Lemma verifyAccessToken_spec now token w secret :
  JWT_SECRET env = Some secret -> JS.truthy_string secret = true ->
  verifyAccessToken env now token w
  = if LRU.has now token (blacklistedTokens w)
    then inl (TokenBlacklistedError "Token has been revoked")
    else jwt_verify token secret now.
Proof. intros Hs Ht. unfold verifyAccessToken. now rewrite Hs, Ht. Qed.

Lemma verifyRefreshToken_spec now token w secret :
  JWT_REFRESH_SECRET env = Some secret -> JS.truthy_string secret = true ->
  verifyRefreshToken env now token w
  = if LRU.has now token (blacklistedRefreshTokens w)
    then inl (RefreshTokenBlacklistedError "Refresh token has been revoked")
    else jwt_verify token secret now.
Proof. intros Hs Ht. unfold verifyRefreshToken. now rewrite Hs, Ht. Qed.

Lemma generateAccessToken_spec now p secret :
  JWT_SECRET env = Some secret -> JS.truthy_string secret = true ->
  generateAccessToken env now p
  = jwt_sign p secret (JS.or_default (JWT_EXPIRES_IN env) "15m") now.
Proof. intros Hs Ht. unfold generateAccessToken. now rewrite Hs, Ht. Qed.

Lemma generateRefreshToken_spec now p secret :
  JWT_REFRESH_SECRET env = Some secret -> JS.truthy_string secret = true ->
  generateRefreshToken env now p
  = jwt_sign p secret (JS.or_default (JWT_REFRESH_EXPIRES_IN env) "7d") now.
Proof. intros Hs Ht. unfold generateRefreshToken. now rewrite Hs, Ht. Qed.

(** C4, as the code has it.  Both verifiers consult the revocation set
    first and validate signature and expiry only for a token that is not
    in it: a token in the set is reported revoked whatever [jwt.verify]
    would say of it, and a token outside the set gets exactly the verdict
    of [jwt.verify] (the claims, [JsonWebTokenError] for a bad signature
    or structure, [TokenExpiredError] for an expired token). *)
Theorem verification_consults_revocation_first :
  forall (now : Z) (token : string) (w : World),
    (forall secret : string,
        JWT_SECRET env = Some secret -> secret <> "" ->
        verifyAccessToken env now token w
        = if LRU.has now token (blacklistedTokens w)
          then inl (TokenBlacklistedError "Token has been revoked")
          else jwt_verify token secret now)
    /\
    (forall secret : string,
        JWT_REFRESH_SECRET env = Some secret -> secret <> "" ->
        verifyRefreshToken env now token w
        = if LRU.has now token (blacklistedRefreshTokens w)
          then inl (RefreshTokenBlacklistedError "Refresh token has been revoked")
          else jwt_verify token secret now).
Proof.
  intros now token w. split; intros secret Hs Hne.
  - apply verifyAccessToken_spec; [assumption | now apply truthy_string_true].
  - apply verifyRefreshToken_spec; [assumption | now apply truthy_string_true].
Qed.

Context {L : JsonwebtokenLaws J}.

(** C2. With the access secret configured and a readable expiry setting,
    [generateAccessToken] issues a token for every payload
    [{ userId, email, role? }], and [verifyAccessToken] accepts that token
    at every time before its expiry in every world whose revocation set
    does not hold it, returning claims with the same [userId] and
    [email]. *)
Theorem issued_access_token_verifies :
  forall (p : Payload) (now span : Z),
    configured (JWT_SECRET env) ->
    timespan (JS.or_default (JWT_EXPIRES_IN env) "15m") = Some span ->
    iat p = None -> exp p = None ->
    exists token : string,
      generateAccessToken env now p = inr token /\
      forall (now' : Z) (w : World),
        now' / 1000 < now / 1000 + span ->
        LRU.has now' token (blacklistedTokens w) = false ->
        exists claims : Payload,
          verifyAccessToken env now' token w = inr claims /\
          userId claims = userId p /\ email claims = email p.
Proof.
  intros p now span Hconf Hspan Hiat Hexp.
  destruct (configured_inv _ Hconf) as (secret & Hs & Ht).
  destruct (jwt_sign_succeeds p secret _ now span Hspan
              (proj1 (truthy_string_true secret) Ht) Hiat Hexp) as [token Hsign].
  exists token. split.
  - now rewrite (generateAccessToken_spec now p secret Hs Ht).
  - intros now' w Hbefore Hfree.
    destruct (jwt_verify_sign p secret _ token now Hsign Hiat Hexp)
      as (span' & Hspan' & Hverify).
    assert (span' = span) as -> by congruence.
    exists (stamp p (now / 1000) (now / 1000 + span)).
    rewrite (verifyAccessToken_spec now' token w secret Hs Ht), Hfree, Hverify.
    destruct (now / 1000 + span <=? now' / 1000) eqn:Hle.
    + apply Z.leb_le in Hle. lia.
    + now split.
Qed.

End Verification.

Lemma verification_consults_revocation_first_witness :
  verifyAccessToken (J := Reference.jsonwebtoken) Reference.env 5000
    "not-even-a-jwt" initial
  = inl (JsonWebTokenError "jwt malformed").
Proof.
  destruct (verification_consults_revocation_first
              (J := Reference.jsonwebtoken) Reference.env 5000
              "not-even-a-jwt" initial) as [Haccess _].
  rewrite (Haccess "access-secret"); [reflexivity | reflexivity | discriminate].
Defined.

(** C4, as stated, fails: a revoked token is reported revoked although
    its structure is invalid, and although it has expired. *)
Lemma revoked_token_is_reported_revoked_first :
  let J := Reference.jsonwebtoken in
  let garbage := "not-even-a-jwt" in
  let w := blacklistToken 1000 garbage initial in
  let issued :=
    Reference.encode "access-secret"
      (stamp (JWTPayload "64b7f0c2a1" "ann@example.com") 1 901) in
  let w' := blacklistToken 2000 issued initial in
  (jwt_verify garbage "access-secret" 5000
   = inl (JsonWebTokenError "jwt malformed")
   /\ verifyAccessToken Reference.env 5000 garbage w
      = inl (TokenBlacklistedError "Token has been revoked"))
  /\
  (generateAccessToken Reference.env 1000 (JWTPayload "64b7f0c2a1" "ann@example.com")
   = inr issued
   /\ jwt_verify issued "access-secret" 1000000
      = inl (TokenExpiredError "jwt expired")
   /\ verifyAccessToken Reference.env 1000000 issued w'
      = inl (TokenBlacklistedError "Token has been revoked")).
Proof. vm_compute. repeat split. Qed.

Lemma issued_access_token_verifies_witness :
  exists token : string,
    generateAccessToken (J := Reference.jsonwebtoken) Reference.env 1000
      (JWTPayload "64b7f0c2a1" "ann@example.com") = inr token /\
    exists claims : Payload,
      verifyAccessToken (J := Reference.jsonwebtoken) Reference.env 60000
        token initial = inr claims /\
      userId claims = "64b7f0c2a1" /\ email claims = Some "ann@example.com".
Proof.
  destruct (issued_access_token_verifies (J := Reference.jsonwebtoken)
              (L := ReferenceFacts.laws) Reference.env
              (JWTPayload "64b7f0c2a1" "ann@example.com") 1000 900)
    as (token & Hissue & Hverify);
    [reflexivity | reflexivity | reflexivity | reflexivity |].
  exists token. split; [exact Hissue|].
  apply (Hverify 60000 initial); [vm_compute; reflexivity | reflexivity].
Defined.

(** ** The rate limiter *)

Section RateLimiter.

Context {R : Runtime}.
Implicit Types (w : World) (request : NextRequest.t) (type : RateLimitType).

Lemma windowMs_RATE_LIMITS type : windowMs (RATE_LIMITS type) = 900000.
Proof. now destruct type. Qed.

Lemma rateLimit_touches_only_the_rate_cache now request type w :
  let w' := snd (rateLimit now request type w) in
  blacklistedTokens w' = blacklistedTokens w
  /\ blacklistedRefreshTokens w' = blacklistedRefreshTokens w
  /\ securityLog w' = securityLog w.
Proof.
  unfold rateLimit.
  destruct (LRU.get now _ (rateLimitCache w)) as [[current|] cache]; simpl.
  - destruct (resetTime current <? now); [now simpl|].
    destruct (max (RATE_LIMITS type) <=? count current); now simpl.
  - now simpl.
Qed.

Lemma rateLimit_ttl now request type w :
  LRU.ttl (rateLimitCache (snd (rateLimit now request type w)))
  = LRU.ttl (rateLimitCache w).
Proof.
  unfold rateLimit.
  pose proof (lru_ttl_get (rateLimitKey request type) (rateLimitCache w) now) as Hget.
  destruct (LRU.get now _ (rateLimitCache w)) as [[current|] cache];
    simpl in *.
  - destruct (resetTime current <? now); simpl; [now rewrite lru_ttl_set|].
    destruct (max (RATE_LIMITS type) <=? count current); simpl;
      [assumption | now rewrite lru_ttl_set].
  - now rewrite lru_ttl_set.
Qed.

(** First request of an epoch: a fresh window is installed. *)
Lemma rateLimit_fresh now request type w :
  let key := rateLimitKey request type in
  window_expired now key w = true ->
  fst (rateLimit now request type w) = fresh_result
  /\ LRU.lookup key (rateLimitCache (snd (rateLimit now request type w)))
     = Some (LRU.mkEntry key
               {| count := 1; resetTime := now + windowMs (RATE_LIMITS type) |}
               (if LRU.ttl (rateLimitCache w) =? 0 then 0 else now)).
Proof.
  intros key. unfold window_expired, rateLimit. fold key.
  pose proof (lru_ttl_get key (rateLimitCache w) now) as Httl.
  destruct (LRU.get now key (rateLimitCache w)) as [[current|] cache];
    simpl in *; intros Hexp.
  - rewrite Hexp. simpl. rewrite lru_lookup_set, Httl. now split.
  - rewrite lru_lookup_set, Httl. now split.
Qed.

(** A later request of the epoch on a live window. *)
Lemma rateLimit_live now request type w e :
  let key := rateLimitKey request type in
  let limit := RATE_LIMITS type in
  LRU.lookup key (rateLimitCache w) = Some e ->
  LRU.isStale (rateLimitCache w) now e = false ->
  now <= resetTime (LRU.evalue e) ->
  let '(result, w') := rateLimit now request type w in
  if max limit <=? count (LRU.evalue e)
  then result = denied_result limit (LRU.evalue e) now
       /\ LRU.lookup key (rateLimitCache w') = Some e
  else result = allowed_result limit (bump (LRU.evalue e))
       /\ LRU.lookup key (rateLimitCache w')
          = Some (LRU.mkEntry key (bump (LRU.evalue e))
                    (if LRU.ttl (rateLimitCache w) =? 0 then 0 else now)).
Proof.
  intros key limit Hlookup Hlive Hepoch.
  unfold rateLimit. fold key. fold limit.
  unfold LRU.get. rewrite Hlookup, Hlive.
  assert ((resetTime (LRU.evalue e) <? now) = false) as ->
      by (apply Z.ltb_ge; lia).
  destruct (max limit <=? count (LRU.evalue e)); simpl.
  - split; [reflexivity|]. apply lru_lookup_front.
    now apply lru_lookup_key in Hlookup.
  - split; [reflexivity|]. now rewrite lru_lookup_set.
Qed.

End RateLimiter.

(** *** The invariant of the rate cache *)

Section RateInvariant.

Context {R : Runtime}.
Implicit Types (w : World) (request : NextRequest.t) (type : RateLimitType).

Lemma rate_inv_initial now : rate_inv now initial.
Proof. split; [reflexivity | constructor]. Qed.

Lemma rate_inv_wait now now' w : rate_inv now w -> now <= now' -> rate_inv now' w.
Proof.
  intros [Httl Hall] Hle. split; [assumption|].
  eapply List.Forall_impl; [|exact Hall]. simpl. intros e [Hs Hr]. lia.
Qed.

Lemma rate_inv_rateLimit now request type w :
  rate_inv now w -> rate_inv now (snd (rateLimit now request type w)).
Proof.
  intros [Httl Hall]. split.
  - unfold rate_cache_configured in *. now rewrite rateLimit_ttl.
  - unfold rate_cache_configured in Httl.
    pose proof (windowMs_RATE_LIMITS type) as Hwin.
    set (key := rateLimitKey request type).
    pose proof (Forall_lru_get _ key (rateLimitCache w) now Hall) as Hget.
    pose proof (lru_ttl_get key (rateLimitCache w) now) as Httl'.
    pose proof (lru_get_Some_In key (rateLimitCache w) now) as Hin.
    unfold rateLimit. fold key.
    destruct (LRU.get now key (rateLimitCache w)) as [[current|] cache];
      simpl in *; rewrite Httl in Httl'.
    + destruct (Hin current eq_refl) as (e & He & <-).
      pose proof (proj1 (List.Forall_forall _ _) Hall e He) as [Hs Hr].
      simpl in Hs, Hr.
      destruct (resetTime (LRU.evalue e) <? now); simpl.
      * apply Forall_lru_set; [assumption|]. rewrite Httl'. simpl. lia.
      * destruct (max (RATE_LIMITS type) <=? count (LRU.evalue e)); simpl;
          [assumption|].
        apply Forall_lru_set; [assumption|]. rewrite Httl'. simpl. lia.
    + apply Forall_lru_set; [assumption|]. rewrite Httl'. simpl. lia.
Qed.

(** Every reachable world satisfies the invariant. *)
Lemma reachable_rate_inv now w : reachable now w -> rate_inv now w.
Proof.
  induction 1 as [now | now now' w _ IH Hle | now w request type _ IH
                 | now w token _ IH | now w token _ IH
                 | now w event details _ IH].
  - apply rate_inv_initial.
  - now apply rate_inv_wait with now.
  - now apply rate_inv_rateLimit.
  - exact IH.
  - exact IH.
  - exact IH.
Qed.

(** Under the invariant a stored window whose reset time has not passed
    is live: the cache has not aged it out. *)
Lemma rate_inv_live now now' w key e :
  rate_inv now w ->
  LRU.lookup key (rateLimitCache w) = Some e ->
  now' <= resetTime (LRU.evalue e) ->
  LRU.isStale (rateLimitCache w) now' e = false.
Proof.
  intros [Httl Hall] Hlookup Hepoch.
  apply lru_lookup_In in Hlookup.
  pose proof (proj1 (List.Forall_forall _ _) Hall e Hlookup) as [_ Hr].
  simpl in Hr. apply lru_fresh_not_stale.
  unfold rate_cache_configured in Httl. rewrite Httl. lia.
Qed.

End RateInvariant.

(** *** C6 and C8: one call of the limiter *)

Section RateLimitCall.

Context {R : Runtime}.
Implicit Types (w : World) (request : NextRequest.t) (type : RateLimitType).

Lemma denied_result_headers (limit : RateLimit) (current : RateWindow) (now : Z) :
  let result := denied_result limit current now in
  header "X-RateLimit-Limit" result = Some (JS.toString (max limit))
  /\ header "X-RateLimit-Remaining" result = Some "0"
  /\ header "X-RateLimit-Reset" result = Some (toISOString (resetTime current))
  /\ header "Retry-After" result
     = Some (JS.toString (JS.ceil_div (resetTime current - now) 1000)).
Proof. repeat split. Qed.

Lemma allowed_result_headers (limit : RateLimit) (current : RateWindow) :
  let result := allowed_result limit current in
  header "X-RateLimit-Limit" result = Some (JS.toString (max limit))
  /\ header "X-RateLimit-Remaining" result
     = Some (JS.toString (max limit - count current))
  /\ header "X-RateLimit-Reset" result = Some (toISOString (resetTime current))
  /\ header "Retry-After" result = None.
Proof. repeat split. Qed.

Lemma stored_window_lookup key w e :
  LRU.lookup key (rateLimitCache w) = Some e ->
  stored_window key w = Some (LRU.evalue e).
Proof. unfold stored_window. now intros ->. Qed.

Lemma window_expired_after_reset now key w e :
  LRU.lookup key (rateLimitCache w) = Some e ->
  resetTime (LRU.evalue e) < now ->
  window_expired now key w = true.
Proof.
  intros Hlookup Hpast. unfold window_expired, LRU.get. rewrite Hlookup.
  destruct (LRU.isStale (rateLimitCache w) now e); simpl; [reflexivity|].
  now apply Z.ltb_lt.
Qed.

(** C6. For every rate window stored in a reachable world and every call
    of the limiter for its key:
    - while the reset time has not passed, a denied call (count at or
      above the maximum) leaves count and reset time as they are and
      reports remaining 0, and an allowed call adds exactly one to the
      count and leaves the reset time as it is, so the count never
      decreases;
    - once the reset time has passed, the call is allowed and the window
      is replaced by a fresh one with count 1. *)
Theorem window_count_within_epoch :
  forall (now : Z) (request : NextRequest.t) (type : RateLimitType)
         (w : World) (current : RateWindow),
    let key := rateLimitKey request type in
    let limit := RATE_LIMITS type in
    let result := fst (rateLimit now request type w) in
    let w' := snd (rateLimit now request type w) in
    reachable now w ->
    stored_window key w = Some current ->
    (now <= resetTime current ->
     exists current' : RateWindow,
       stored_window key w' = Some current'
       /\ resetTime current' = resetTime current
       /\ count current <= count current'
       /\ if success result
          then count current < max limit
               /\ count current' = count current + 1
          else max limit <= count current
               /\ count current' = count current
               /\ header "X-RateLimit-Remaining" result = Some "0")
    /\
    (resetTime current < now ->
     success result = true
     /\ stored_window key w'
        = Some {| count := 1; resetTime := now + windowMs limit |}).
Proof.
  intros now request type w current key limit result w' Hreach Hstored.
  apply reachable_rate_inv in Hreach.
  unfold stored_window in Hstored.
  destruct (LRU.lookup key (rateLimitCache w)) as [e|] eqn:Hlookup;
    [|discriminate].
  injection Hstored as <-. split.
  - intros Hepoch.
    pose proof (rate_inv_live now now w key e Hreach Hlookup Hepoch) as Hlive.
    pose proof (rateLimit_live now request type w e Hlookup Hlive Hepoch) as Hcall.
    subst result w'. fold key in Hcall. fold limit in Hcall.
    destruct (rateLimit now request type w) as [result w']. simpl.
    destruct (max limit <=? count (LRU.evalue e)) eqn:Hmax;
      destruct Hcall as [-> Hlookup'].
    + exists (LRU.evalue e). apply Z.leb_le in Hmax.
      rewrite (stored_window_lookup _ _ _ Hlookup'). simpl.
      repeat split; try lia.
    + exists (bump (LRU.evalue e)). apply Z.leb_gt in Hmax.
      rewrite (stored_window_lookup _ _ _ Hlookup'). simpl.
      repeat split; lia.
  - intros Hpast.
    pose proof (window_expired_after_reset now key w e Hlookup Hpast) as Hexp.
    destruct (rateLimit_fresh now request type w Hexp) as [Hres Hlookup'].
    subst result w' key limit. rewrite Hres. split; [reflexivity|].
    now rewrite (stored_window_lookup _ _ _ Hlookup').
Qed.

(** The first request of an epoch is allowed without any rate-limit
    header, unlike every later request of the epoch. *)
Lemma first_request_carries_no_headers now request type w :
  window_expired now (rateLimitKey request type) w = true ->
  let result := fst (rateLimit now request type w) in
  success result = true /\ result_headers result = None.
Proof.
  intros Hexp. destruct (rateLimit_fresh now request type w Hexp) as [Hres _].
  simpl. now rewrite Hres.
Qed.

End RateLimitCall.

(** *** C5: the quota of one window *)

Section RateLimitQuota.

Context {R : Runtime}.
Implicit Types (w : World) (request : NextRequest.t) (type : RateLimitType).

Lemma open_window_fresh now request type w :
  rate_cache_configured w ->
  window_expired now (rateLimitKey request type) w = true ->
  let '(result, w') := rateLimit now request type w in
  result = fresh_result
  /\ open_window (rateLimitKey request type) 1
       (now + windowMs (RATE_LIMITS type)) w'.
Proof.
  intros Httl Hexp.
  destruct (rateLimit_fresh now request type w Hexp) as [Hres Hlookup].
  pose proof (rateLimit_ttl now request type w) as Httl'.
  destruct (rateLimit now request type w) as [result w']. simpl in *.
  split; [assumption|]. split.
  - unfold rate_cache_configured in *. congruence.
  - unfold rate_cache_configured in Httl. rewrite Httl in Hlookup.
    simpl in Hlookup. eexists. split; [exact Hlookup|].
    rewrite windowMs_RATE_LIMITS. simpl. lia.
Qed.

Lemma open_window_step now request type w n reset :
  open_window (rateLimitKey request type) n reset w ->
  reset - 1000 * 60 * 15 <= now <= reset ->
  let '(result, w') := rateLimit now request type w in
  if max (RATE_LIMITS type) <=? n
  then success result = false
       /\ open_window (rateLimitKey request type) n reset w'
  else success result = true
       /\ open_window (rateLimitKey request type) (n + 1) reset w'.
Proof.
  intros (Httl & start & Hlookup & Hstart) [Hlo Hhi].
  unfold rate_cache_configured in Httl.
  assert (LRU.isStale (rateLimitCache w) now
            (LRU.mkEntry (rateLimitKey request type)
               {| count := n; resetTime := reset |} start) = false) as Hlive.
  { apply lru_fresh_not_stale. simpl. rewrite Httl. lia. }
  pose proof (rateLimit_live now request type w _ Hlookup Hlive Hhi) as Hcall.
  pose proof (rateLimit_ttl now request type w) as Httl'.
  destruct (rateLimit now request type w) as [result w']. simpl in *.
  rewrite Httl in Hcall. simpl in Hcall.
  destruct (max (RATE_LIMITS type) <=? n); destruct Hcall as [-> Hlookup'].
  - split; [reflexivity|]. split; [unfold rate_cache_configured; congruence|].
    exists start. now split.
  - split; [reflexivity|]. split; [unfold rate_cache_configured; congruence|].
    exists now. split; [exact Hlookup'|]. lia.
Qed.

(** As long as the quota is not exhausted, every call within the epoch
    is allowed and counted. *)
Lemma rateLimits_within_quota times request type :
  forall w n reset,
    open_window (rateLimitKey request type) n reset w ->
    Forall (fun now => reset - 1000 * 60 * 15 <= now <= reset) times ->
    n + Z.of_nat (length times) <= max (RATE_LIMITS type) ->
    let '(results, w') := rateLimits times request type w in
    map success results = repeat true (length times)
    /\ open_window (rateLimitKey request type)
         (n + Z.of_nat (length times)) reset w'.
Proof.
  induction times as [|now later IH]; intros w n reset Hopen Htimes Hquota.
  - simpl. split; [reflexivity|]. now rewrite Z.add_0_r.
  - inversion Htimes as [|? ? Hnow Hlater]; subst.
    simpl length in *. simpl rateLimits.
    pose proof (open_window_step now request type w n reset Hopen Hnow) as Hstep.
    destruct (rateLimit now request type w) as [result w1].
    destruct (max (RATE_LIMITS type) <=? n) eqn:Hmax;
      [apply Z.leb_le in Hmax; lia|].
    destruct Hstep as [Hok Hopen1].
    specialize (IH w1 (n + 1) reset Hopen1 Hlater ltac:(lia)).
    destruct (rateLimits later request type w1) as [results w2].
    destruct IH as [Hall Hopen2]. split.
    + simpl. now rewrite Hok, Hall.
    + replace (n + Z.of_nat (S (length later)))
        with (n + 1 + Z.of_nat (length later)) by lia.
      exact Hopen2.
Qed.

(** The quota of a window, for every limit class: from an absent or
    expired window, [max] calls in the epoch are allowed and the next
    one is denied. *)
Lemma rateLimits_quota t1 times t_last request type w :
  rate_cache_configured w ->
  window_expired t1 (rateLimitKey request type) w = true ->
  Z.of_nat (length times) = max (RATE_LIMITS type) - 1 ->
  Forall (fun now => t1 <= now <= t1 + windowMs (RATE_LIMITS type))
    (times ++ [t_last])%list ->
  let '(results, w') := rateLimits (t1 :: times ++ [t_last])%list request type w in
  map success results = (repeat true (S (length times)) ++ [false])%list
  /\ open_window (rateLimitKey request type) (max (RATE_LIMITS type))
       (t1 + windowMs (RATE_LIMITS type)) w'.
Proof.
  intros Httl Hexp Hlen Htimes.
  apply Forall_app in Htimes as [Htimes Hlast].
  inversion Hlast as [|? ? Hlast' _]; subst.
  pose proof (windowMs_RATE_LIMITS type) as Hwin.
  simpl rateLimits.
  pose proof (open_window_fresh t1 request type w Httl Hexp) as Hfirst.
  destruct (rateLimit t1 request type w) as [r1 w1].
  destruct Hfirst as [-> Hopen1].
  assert (Forall (fun now => t1 + windowMs (RATE_LIMITS type) - 1000 * 60 * 15
                             <= now <= t1 + windowMs (RATE_LIMITS type)) times)
    as Htimes'.
  { eapply List.Forall_impl; [|exact Htimes]. simpl. intros t Ht. lia. }
  pose proof (rateLimits_within_quota times request type w1 1 _ Hopen1 Htimes'
                ltac:(lia)) as Hmid.
  assert (rateLimits (times ++ [t_last])%list request type w1
          = let (results, w2) := rateLimits times request type w1 in
            let (r, w3) := rateLimit t_last request type w2 in
            ((results ++ [r])%list, w3)) as ->.
  { clear. revert w1. induction times as [|t ts IH]; intros w1; simpl.
    - now destruct (rateLimit t_last request type w1).
    - destruct (rateLimit t request type w1) as [r w2]. rewrite IH.
      destruct (rateLimits ts request type w2) as [rs w3].
      now destruct (rateLimit t_last request type w3). }
  destruct (rateLimits times request type w1) as [results w2].
  destruct Hmid as [Hall Hopen2].
  replace (1 + Z.of_nat (length times)) with (max (RATE_LIMITS type)) in Hopen2
    by lia.
  pose proof (open_window_step t_last request type w2 _ _ Hopen2
                ltac:(lia)) as Hdeny.
  destruct (rateLimit t_last request type w2) as [r w3].
  rewrite Z.leb_refl in Hdeny. destruct Hdeny as [Hfalse Hopen3].
  split; [|exact Hopen3].
  simpl. rewrite map_app, Hall. simpl. now rewrite Hfalse.
Qed.

End RateLimitQuota.

Section RateLimitFive.

Context {R : Runtime}.

(** C5. For every limit class whose maximum is 5 and every client: from
    an absent or expired window, the first five calls made within one
    window are allowed and the sixth, made before the reset time, is
    denied; a later call made after the reset time is allowed and
    installs a fresh window with count 1. *)
Theorem sixth_request_in_window_is_denied :
  forall (request : NextRequest.t) (type : RateLimitType) (w : World)
         (t1 t2 t3 t4 t5 t6 t7 : Z),
    let key := rateLimitKey request type in
    let limit := RATE_LIMITS type in
    max limit = 5 ->
    rate_cache_configured w ->
    window_expired t1 key w = true ->
    Forall (fun now => t1 <= now <= t1 + windowMs limit) [t2; t3; t4; t5; t6] ->
    t1 + windowMs limit < t7 ->
    let '(results, w6) := rateLimits [t1; t2; t3; t4; t5; t6] request type w in
    let '(seventh, w7) := rateLimit t7 request type w6 in
    map success results = [true; true; true; true; true; false]
    /\ success seventh = true
    /\ stored_window key w7
       = Some {| count := 1; resetTime := t7 + windowMs limit |}.
Proof.
  intros request type w t1 t2 t3 t4 t5 t6 t7 key limit Hmax Httl Hexp Htimes Hafter.
  subst key limit.
  pose proof (rateLimits_quota t1 [t2; t3; t4; t5] t6 request type w Httl Hexp
                ltac:(simpl; lia) Htimes) as Hquota.
  change (t1 :: [t2; t3; t4; t5] ++ [t6])%list with [t1; t2; t3; t4; t5; t6]
    in Hquota.
  destruct (rateLimits [t1; t2; t3; t4; t5; t6] request type w) as [results w6].
  destruct Hquota as [Hresults (_ & start & Hlookup & _)].
  assert (window_expired t7 (rateLimitKey request type) w6 = true) as Hexp7
      by (now apply (window_expired_after_reset t7 _ w6 _ Hlookup)).
  destruct (rateLimit_fresh t7 request type w6 Hexp7) as [Hres Hlookup7].
  destruct (rateLimit t7 request type w6) as [seventh w7]. simpl in *.
  split; [exact Hresults|]. subst seventh. split; [reflexivity|].
  now rewrite (stored_window_lookup _ _ _ Hlookup7).
Qed.

End RateLimitFive.

Lemma sixth_request_in_window_is_denied_witness :
  let R := Reference.runtime in
  let request :=
    Reference.request "/api/auth/login" [("x-forwarded-for", "203.0.113.7")] in
  let '(results, w6) :=
    rateLimits [1000; 2000; 3000; 4000; 5000; 901000] request auth initial in
  let '(seventh, w7) := rateLimit 901001 request auth w6 in
  map success results = [true; true; true; true; true; false]
  /\ success seventh = true
  /\ stored_window "auth:203.0.113.7" w7
     = Some {| count := 1; resetTime := 1801001 |}.
Proof.
  exact (sixth_request_in_window_is_denied (R := Reference.runtime)
           (Reference.request "/api/auth/login" [("x-forwarded-for", "203.0.113.7")])
           auth initial 1000 2000 3000 4000 5000 901000 901001
           eq_refl eq_refl eq_refl
           ltac:(repeat constructor; simpl; lia) ltac:(vm_compute; reflexivity)).
Defined.

Lemma window_count_within_epoch_witness :
  let R := Reference.runtime in
  let request :=
    Reference.request "/api/auth/login" [("x-forwarded-for", "203.0.113.7")] in
  let w := snd (rateLimit 1000 request auth initial) in
  stored_window "auth:203.0.113.7" w = Some {| count := 1; resetTime := 901000 |}
  /\ stored_window "auth:203.0.113.7" (snd (rateLimit 2000 request auth w))
     = Some {| count := 2; resetTime := 901000 |}.
Proof.
  intros R request w. split; [reflexivity|].
  assert (reachable 2000 w) as Hreach.
  { apply reach_wait with 1000; [|lia].
    apply reach_rateLimit, reach_initial. }
  destruct (window_count_within_epoch 2000 request auth w
              {| count := 1; resetTime := 901000 |} Hreach eq_refl)
    as [Hepoch _].
  destruct (Hepoch ltac:(simpl; lia)) as (current' & Hstored & Hreset & _ & Hcount).
  refine (eq_trans Hstored _). f_equal.
  change (success (fst (rateLimit 2000 request auth w))) with true in Hcount.
  destruct Hcount as [_ Hcount]. destruct current'. simpl in *.
  subst. reflexivity.
Defined.

(** *** C8: the headers of the first request of an epoch *)

(** C8 at its failing input.  The first request of a client in an epoch
    is allowed by a result that carries no rate-limit header at all,
    whereas the second request of the same epoch is allowed by a result
    that carries the three headers. *)
Theorem first_request_of_epoch_has_no_rate_limit_headers :
  let R := Reference.runtime in
  let request :=
    Reference.request "/api/auth/login" [("x-forwarded-for", "203.0.113.7")] in
  let '(first, w1) := rateLimit 1000 request auth initial in
  let '(second, _) := rateLimit 2000 request auth w1 in
  (success first = true
   /\ result_headers first = None
   /\ header "X-RateLimit-Limit" first = None
   /\ header "X-RateLimit-Remaining" first = None
   /\ header "X-RateLimit-Reset" first = None)
  /\
  (success second = true
   /\ header "X-RateLimit-Limit" second = Some "5"
   /\ header "X-RateLimit-Remaining" second = Some "3"
   /\ header "X-RateLimit-Reset" second = Some (toISOString 901000)).
Proof. vm_compute. repeat split. Qed.

(** ** C9: the origin check *)

Section Origin.

Variable env : ProcessEnv.

Lemma validateOrigin_spec (request : NextRequest.t) :
  validateOrigin env request = true
  <-> (NextRequest.get request "origin" = None
       \/ NextRequest.get request "origin" = Some ""
       \/ exists origin, NextRequest.get request "origin" = Some origin
                         /\ In origin (allowedOrigins env)).
Proof.
  unfold validateOrigin.
  destruct (NextRequest.get request "origin") as [origin|]; simpl.
  - unfold JS.truthy_string.
    destruct (String.eqb origin "") eqn:Hempty; simpl.
    + apply String.eqb_eq in Hempty. subst. intuition.
    + apply String.eqb_neq in Hempty. rewrite existsb_exists. split.
      * intros (o & Hin & Heq). apply String.eqb_eq in Heq. subst o.
        right. right. eauto.
      * intros [H | [H | (o & [= <-] & Hin)]]; try congruence.
        exists origin. split; [assumption | apply String.eqb_refl].
  - intuition.
Qed.

(** C9, as the code has it.  A request whose Origin header has a
    non-empty value outside the configured allow-list is answered 403
    (Invalid origin); a request whose Origin header is absent or empty
    passes the origin check whatever the allow-list holds. *)
Theorem origin_outside_allow_list_is_forbidden :
  forall request : NextRequest.t,
    (forall origin : string,
        NextRequest.get request "origin" = Some origin ->
        origin <> "" ->
        ~ In origin (allowedOrigins env) ->
        securityMiddleware env request
        = NextResponse.json [("error", "Invalid origin")] 403)
    /\
    (NextRequest.get request "origin" = None
     \/ NextRequest.get request "origin" = Some "" ->
     validateOrigin env request = true
     /\ NextResponse.status (securityMiddleware env request) = 200).
Proof.
  intros request. split.
  - intros origin Hget Hne Hout. unfold securityMiddleware.
    destruct (validateOrigin env request) eqn:Hvalid; [|reflexivity].
    apply validateOrigin_spec in Hvalid
      as [H | [H | (o & H & Hin)]]; congruence.
  - intros Habsent.
    assert (validateOrigin env request = true) as Hvalid
        by (apply validateOrigin_spec; tauto).
    split; [assumption|]. unfold securityMiddleware. now rewrite Hvalid.
Qed.

End Origin.

Lemma origin_outside_allow_list_is_forbidden_witness :
  securityMiddleware Reference.env
    (Reference.request "/api/bookings" [("origin", "https://evil.example")])
  = NextResponse.json [("error", "Invalid origin")] 403.
Proof.
  apply (proj1 (origin_outside_allow_list_is_forbidden Reference.env
                  (Reference.request "/api/bookings"
                     [("origin", "https://evil.example")]))
           "https://evil.example");
    [reflexivity | discriminate |].
  vm_compute. intros [H | []]. discriminate.
Defined.

(** C9, as stated, fails: an Origin header that is present with an empty
    value is not in the allow-list, and the gate lets the request pass. *)
Lemma empty_origin_header_is_not_forbidden :
  let request := Reference.request "/api/bookings" [("origin", "")] in
  NextRequest.get request "origin" = Some ""
  /\ allowedOrigins Reference.env = ["http://localhost:3000"]
  /\ ~ In "" (allowedOrigins Reference.env)
  /\ validateOrigin Reference.env request = true
  /\ NextResponse.status (securityMiddleware Reference.env request) = 200.
Proof.
  vm_compute. repeat split. intros [H | []]. discriminate.
Qed.

(** ** C7: the order of the checks in [withAuth] *)

Section AuthGate.

Context {J : Jsonwebtoken} {R : Runtime}.
Variable env : ProcessEnv.

Lemma startsWith_truthy (s p : string) :
  p <> "" -> JS.startsWith s p = true -> JS.truthy (Some s) = true.
Proof.
  intros Hp Hs. simpl. apply truthy_string_true. intros ->.
  destruct p; [congruence | discriminate].
Qed.

(** C7, as the code has it.  [withAuth] looks at the shape of the
    Authorization header before it calls the rate limiter:
    - a request whose header is absent or does not start with "Bearer "
      is answered 401 (Authentication required) and the world, rate
      window included, is left as it was;
    - only a request whose header starts with "Bearer " reaches the rate
      limiter, which is charged before the token is looked at: with an
      exhausted window the answer is 429, and when nothing stands
      between "Bearer " and the next space (as in "Bearer  abc", with
      two spaces) the answer is 401 (Access token required) with the
      [no_token] event logged, after the window was charged. *)
Theorem bearer_shape_is_checked_before_rate_limit :
  forall (C : Type) (handler : NextRequest.t -> C -> Js NextResponse.t)
         (now : Z) (request : NextRequest.t) (context : C) (w : World),
    let authHeader := default "" (NextRequest.get request "authorization") in
    let type :=
      if isAuthEndpoint (NextRequest.pathname request) then auth else api in
    (JS.startsWith authHeader "Bearer " = false ->
     withAuth env handler now request context w
     = (inr (NextResponse.json [("error", "Authentication required")] 401), w))
    /\
    (JS.startsWith authHeader "Bearer " = true ->
     let '(result, w1) := rateLimit now request type w in
     (success result = false ->
      exists errorMessage : string,
        withAuth env handler now request context w
        = (inr (NextResponse.json [("error", errorMessage)] 429), w1))
     /\
     (success result = true ->
      JS.truthy (JS.split " " authHeader !! 1%nat) = false ->
      withAuth env handler now request context w
      = (inr (NextResponse.json [("error", "Access token required")] 401),
         logSecurityEvent now "authentication_failed"
           [ ("reason", "no_token"); ("ip", ip_of request);
             ("endpoint", NextRequest.pathname request) ] w1))).
Proof.
  intros C handler now request context w authHeader type. split.
  - intros Hshape. unfold withAuth, authMiddleware. fold authHeader.
    rewrite Hshape. simpl. now rewrite orb_true_r.
  - intros Hshape.
    assert (JS.truthy (NextRequest.get request "authorization") = true) as Hset.
    { subst authHeader.
      destruct (NextRequest.get request "authorization") as [h|];
        [|discriminate].
      now apply startsWith_truthy with "Bearer ". }
    unfold withAuth, authMiddleware. fold authHeader.
    rewrite Hshape, Hset. simpl. fold type.
    destruct (rateLimit now request type w) as [result w1]. split.
    + intros ->. simpl. eauto.
    + intros -> Htoken. simpl. unfold authenticateToken.
      fold authHeader. rewrite Hset. now rewrite Htoken.
Qed.

End AuthGate.

Lemma bearer_shape_is_checked_before_rate_limit_witness :
  let request :=
    Reference.request "/api/bookings"
      [("authorization", "Bearer  abc"); ("x-forwarded-for", "203.0.113.7")] in
  withAuth (J := Reference.jsonwebtoken) (R := Reference.runtime) Reference.env
    (fun _ (_ : unit) => ret NextResponse.next) 1000 request tt initial
  = (inr (NextResponse.json [("error", "Access token required")] 401),
     logSecurityEvent (R := Reference.runtime) 1000 "authentication_failed"
       [ ("reason", "no_token"); ("ip", "203.0.113.7");
         ("endpoint", "/api/bookings") ]
       (snd (rateLimit (R := Reference.runtime) 1000 request api initial))).
Proof.
  intros request.
  destruct (bearer_shape_is_checked_before_rate_limit
              (J := Reference.jsonwebtoken) (R := Reference.runtime)
              Reference.env unit (fun _ _ => ret NextResponse.next)
              1000 request tt initial) as [_ Hbearer].
  specialize (Hbearer eq_refl).
  change (if isAuthEndpoint (NextRequest.pathname request) then auth else api)
    with api in Hbearer.
  destruct (rateLimit (R := Reference.runtime) 1000 request api initial)
    as [result w1] eqn:Hcall.
  destruct Hbearer as [_ Hallowed].
  assert (success result = true) as Hok
      by (now replace result with (fst (rateLimit (R := Reference.runtime)
                                          1000 request api initial))
            by now rewrite Hcall).
  exact (Hallowed Hok eq_refl).
Defined.

(** C7, as stated, fails: with the window of the client exhausted, a
    request without Authorization header is answered 401, not 429, and
    the rate limiter is not consulted (the world is unchanged), whereas
    the same request with a bearer token is answered 429; and a request
    from an origin outside the allow-list whose header is "Bearer  abc"
    (two spaces, so that nothing stands where the token is read) is
    answered 401 (Access token required), not 403. *)
Lemma missing_bearer_is_answered_before_rate_limit :
  let J := Reference.jsonwebtoken in
  let R := Reference.runtime in
  let handler := fun (_ : NextRequest.t) (_ : unit) => ret NextResponse.next in
  let anonymous :=
    Reference.request "/api/bookings" [("x-forwarded-for", "203.0.113.7")] in
  let bearer :=
    Reference.request "/api/bookings"
      [("authorization", "Bearer abc"); ("x-forwarded-for", "203.0.113.7")] in
  let foreign :=
    Reference.request "/api/bookings"
      [("authorization", "Bearer  abc"); ("origin", "https://evil.example")] in
  let w := snd (rateLimits (repeat 1000 100) anonymous api initial) in
  success (fst (rateLimit 2000 anonymous api w)) = false
  /\ withAuth Reference.env handler 2000 anonymous tt w
     = (inr (NextResponse.json [("error", "Authentication required")] 401), w)
  /\ fst (withAuth Reference.env handler 2000 bearer tt w)
     = inr (NextResponse.json [("error", "Too many requests")] 429)
  /\ validateOrigin Reference.env foreign = false
  /\ fst (withAuth Reference.env handler 2000 foreign tt initial)
     = inr (NextResponse.json [("error", "Access token required")] 401).
Proof. vm_compute. repeat split. Qed.

(** ** C3 and C10: the refresh entry point *)

Section Refresh.

Context {J : Jsonwebtoken} {R : Runtime} {U : UserService}.
Context {L : JsonwebtokenLaws J}.
Variable env : ProcessEnv.

Lemma verifyRefreshToken_ext now token w w' :
  blacklistedRefreshTokens w = blacklistedRefreshTokens w' ->
  verifyRefreshToken env now token w = verifyRefreshToken env now token w'.
Proof. intros H. unfold verifyRefreshToken. now rewrite H. Qed.

Lemma verifyRefreshToken_configured now token w claims :
  verifyRefreshToken env now token w = inr claims ->
  exists secret,
    JWT_REFRESH_SECRET env = Some secret /\ JS.truthy_string secret = true
    /\ LRU.has now token (blacklistedRefreshTokens w) = false
    /\ jwt_verify token secret now = inr claims.
Proof.
  unfold verifyRefreshToken.
  destruct (JWT_REFRESH_SECRET env) as [secret|]; [|discriminate].
  destruct (JS.truthy_string secret) eqn:Htruthy; [|discriminate].
  destruct (LRU.has now token (blacklistedRefreshTokens w)) eqn:Hhas;
    [discriminate|].
  intros Hjwt. exists secret. now repeat split.
Qed.

Lemma generateTokenPair_inv now tokenId uid em accessToken refreshToken :
  generateTokenPair env now tokenId uid em = inr (accessToken, refreshToken) ->
  generateAccessToken env now (JWTPayload uid em) = inr accessToken
  /\ generateRefreshToken env now (RefreshTokenPayload uid tokenId)
     = inr refreshToken.
Proof.
  unfold generateTokenPair.
  destruct (generateAccessToken env now _) as [e|a]; [discriminate|].
  destruct (generateRefreshToken env now _) as [e|r]; [discriminate|].
  now intros [= <- <-].
Qed.

(** With both secrets configured and both expiry settings readable, a
    token pair is issued for every user. *)
Lemma generateTokenPair_succeeds now draw uid em :
  configured (JWT_SECRET env) ->
  configured (JWT_REFRESH_SECRET env) ->
  is_Some (timespan (JS.or_default (JWT_EXPIRES_IN env) "15m")) ->
  is_Some (timespan (JS.or_default (JWT_REFRESH_EXPIRES_IN env) "7d")) ->
  exists pair, generateTokenPair env now draw uid em = inr pair.
Proof.
  intros Haccess Hrefresh [span Hspan] [span' Hspan'].
  destruct (configured_inv _ Haccess) as (secret & Hs & Ht).
  destruct (configured_inv _ Hrefresh) as (secret' & Hs' & Ht').
  unfold generateTokenPair.
  rewrite (generateAccessToken_spec env now _ secret Hs Ht).
  rewrite (generateRefreshToken_spec env now _ secret' Hs' Ht').
  destruct (jwt_sign_succeeds (JWTPayload uid em) secret _ now span Hspan
              (proj1 (truthy_string_true secret) Ht) eq_refl eq_refl)
    as [accessToken ->].
  destruct (jwt_sign_succeeds (RefreshTokenPayload uid draw) secret' _ now span'
              Hspan' (proj1 (truthy_string_true secret') Ht') eq_refl eq_refl)
    as [refreshToken ->].
  eauto.
Qed.

(** Settles the parts of the statement on a path that leaves the
    revocation sets as they were. *)
Ltac untouched :=
  repeat split; intros;
  first [ reflexivity | assumption | discriminate | congruence
        | left; first [reflexivity | assumption | congruence]
        | eexists; split;
          [reflexivity | intros; first [reflexivity | assumption | congruence]]
        | idtac ].

(** Unfolds the handler down to the calls it makes. *)
Ltac open_handler :=
  unfold GETHandler, verify_or_respond, try_catch, bind, ret, throw,
    total, writes, reads, pure, securityMiddleware.

(** C10. The refresh entry point never writes to the access revocation
    set, and writes to the refresh revocation set only to revoke the
    submitted token on the path where its verification and the user
    lookup have both succeeded: a request without x-refresh-token header,
    a token that fails verification (revoked, expired, malformed or
    otherwise), and a token whose user is not found all leave both sets
    as they were; on the path where both succeeded the token is revoked
    before the new pair is issued, whether or not issuing succeeds.  With
    the access secret configured and both expiry settings readable,
    issuing cannot fail, the handler always answers, and every answer
    other than 200 leaves the refresh revocation set as it was. *)
Theorem refresh_revokes_only_after_verification_and_lookup :
  forall (now : Z) (tokenId : string) (request : NextRequest.t) (w : World),
    let submitted := NextRequest.get request "x-refresh-token" in
    let w' := snd (GETHandler env now tokenId request w) in
    blacklistedTokens w' = blacklistedTokens w
    /\ (JS.truthy submitted = false ->
        blacklistedRefreshTokens w' = blacklistedRefreshTokens w)
    /\ (forall (token : string) (e : Exn),
          submitted = Some token ->
          verifyRefreshToken env now token w = inl e ->
          blacklistedRefreshTokens w' = blacklistedRefreshTokens w)
    /\ (forall (token : string) (claims : Payload),
          submitted = Some token ->
          verifyRefreshToken env now token w = inr claims ->
          (forall doc, findUserById (userId claims) <> inr (Some doc)) ->
          blacklistedRefreshTokens w' = blacklistedRefreshTokens w)
    /\ (blacklistedRefreshTokens w' = blacklistedRefreshTokens w
        \/ exists (token : string) (claims : Payload) (doc : IUserResponse),
             submitted = Some token
             /\ verifyRefreshToken env now token w = inr claims
             /\ findUserById (userId claims) = inr (Some doc)
             /\ blacklistedRefreshTokens w'
                = LRU.set now token true (blacklistedRefreshTokens w))
    /\ (forall (token : string) (claims : Payload) (doc : IUserResponse),
          validateOrigin env request = true ->
          success (fst (rateLimit now request auth w)) = true ->
          submitted = Some token -> token <> "" ->
          verifyRefreshToken env now token w = inr claims ->
          findUserById (userId claims) = inr (Some doc) ->
          blacklistedRefreshTokens w'
          = LRU.set now token true (blacklistedRefreshTokens w))
    /\ (configured (JWT_SECRET env) ->
        is_Some (timespan (JS.or_default (JWT_EXPIRES_IN env) "15m")) ->
        is_Some (timespan (JS.or_default (JWT_REFRESH_EXPIRES_IN env) "7d")) ->
        exists resp : NextResponse.t,
          fst (GETHandler env now tokenId request w) = inr resp
          /\ (NextResponse.status resp <> 200 ->
              blacklistedRefreshTokens w' = blacklistedRefreshTokens w)).
Proof.
  intros now tokenId request w submitted w'. subst w'.
  destruct (rateLimit_touches_only_the_rate_cache now request auth w)
    as (Haccess & Hrefresh & _).
  open_handler.
  destruct (validateOrigin env request); simpl; [|now untouched].
  destruct (rateLimit now request auth w) as [result w1]. simpl in *.
  destruct (success result); simpl; [|now untouched].
  fold submitted.
  destruct submitted as [token|]; simpl; [|now untouched].
  destruct (JS.truthy_string token) eqn:Htruthy; simpl.
  2:{ untouched.
      match goal with H : _ <> "" |- _ => apply truthy_string_true in H end.
      congruence. }
  rewrite (verifyRefreshToken_ext now token w1 w Hrefresh).
  destruct (verifyRefreshToken env now token w) as [e|claims] eqn:Hverify.
  { destruct e; simpl; now untouched. }
  simpl.
  destruct (findUserById (userId claims)) as [e|[doc|]] eqn:Hfind; simpl;
    [now untouched | | now untouched].
  assert (blacklistedRefreshTokens
            (blacklistRefreshToken now token w1)
          = LRU.set now token true (blacklistedRefreshTokens w)) as Hset
      by (simpl; now rewrite Hrefresh).
  destruct (generateTokenPair env now tokenId (userId claims) (user_email doc))
    as [e|pair] eqn:Hpair; simpl in *; rewrite Hrefresh.
  - repeat split; intros; try congruence.
    + right. exists token, claims, doc. tauto.
    + exfalso.
      destruct (verifyRefreshToken_configured now token w claims Hverify)
        as (secret & Hsecret & Hnonempty & _).
      destruct (generateTokenPair_succeeds now tokenId (userId claims)
                  (user_email doc)) as [pair Hissued]; try assumption.
      * unfold configured. now rewrite Hsecret.
      * congruence.
  - repeat split; intros; try congruence.
    + right. exists token, claims, doc. tauto.
    + eexists. split; [reflexivity|]. intros Hstatus. exfalso. apply Hstatus.
      now destruct (result_headers result).
Qed.

(** What a successful refresh has done. *)
Lemma GETHandler_success now tokenId request w resp w' :
  GETHandler env now tokenId request w = (inr resp, w') ->
  NextResponse.status resp = 200 ->
  exists (token : string) (claims : Payload) (doc : IUserResponse)
         (accessToken refreshToken : string),
    validateOrigin env request = true
    /\ success (fst (rateLimit now request auth w)) = true
    /\ NextRequest.get request "x-refresh-token" = Some token
    /\ token <> ""
    /\ verifyRefreshToken env now token w = inr claims
    /\ findUserById (userId claims) = inr (Some doc)
    /\ generateTokenPair env now tokenId (userId claims) (user_email doc)
       = inr (accessToken, refreshToken)
    /\ NextResponse.body resp
       = [("accessToken", accessToken); ("refreshToken", refreshToken)]
    /\ blacklistedRefreshTokens w'
       = LRU.set now token true (blacklistedRefreshTokens w)
    /\ blacklistedTokens w' = blacklistedTokens w.
Proof.
  destruct (rateLimit_touches_only_the_rate_cache now request auth w)
    as (Haccess & Hrefresh & _).
  open_handler.
  destruct (validateOrigin env request); simpl;
    [|intros [= <- <-]; discriminate].
  destruct (rateLimit now request auth w) as [result w1]. simpl in *.
  destruct (success result); simpl; [|intros [= <- <-]; discriminate].
  destruct (NextRequest.get request "x-refresh-token") as [token|]; simpl;
    [|intros [= <- <-]; discriminate].
  destruct (JS.truthy_string token) eqn:Htruthy; simpl;
    [|intros [= <- <-]; discriminate].
  rewrite (verifyRefreshToken_ext now token w1 w Hrefresh).
  destruct (verifyRefreshToken env now token w) as [e|claims] eqn:Hverify.
  { destruct e; simpl; intros [= <- <-]; discriminate. }
  simpl.
  destruct (findUserById (userId claims)) as [e|[doc|]] eqn:Hfind; simpl;
    [intros [= <- <-]; discriminate | | intros [= <- <-]; discriminate].
  destruct (generateTokenPair env now tokenId (userId claims) (user_email doc))
    as [e|[accessToken refreshToken]] eqn:Hpair; simpl;
    [intros [= <- <-]; discriminate|].
  intros [= <- <-] _.
  exists token, claims, doc, accessToken, refreshToken.
  apply truthy_string_true in Htruthy. simpl.
  repeat split; try assumption; try reflexivity.
  - now destruct (result_headers result).
  - now rewrite Hrefresh.
Qed.

(** A refresh token found in the revocation set is answered 401 by the
    entry point, once the request is past the origin check and the rate
    limiter. *)
Lemma GETHandler_revoked now tokenId request w token :
  configured (JWT_REFRESH_SECRET env) ->
  validateOrigin env request = true ->
  success (fst (rateLimit now request auth w)) = true ->
  NextRequest.get request "x-refresh-token" = Some token ->
  token <> "" ->
  LRU.has now token (blacklistedRefreshTokens w) = true ->
  fst (GETHandler env now tokenId request w)
  = inr (NextResponse.json
           [("error", "Refresh token has been revoked. Please login again.")]
           401).
Proof.
  intros Hsecret Horigin Hrate Hget Hne Hhas.
  destruct (rateLimit_touches_only_the_rate_cache now request auth w)
    as (_ & Hrefresh & _).
  open_handler. rewrite Horigin. simpl.
  destruct (rateLimit now request auth w) as [result w1]. simpl in *.
  rewrite Hrate, Hget. simpl.
  apply truthy_string_true in Hne. rewrite Hne. simpl.
  rewrite (verifyRefreshToken_ext now token w1 w Hrefresh).
  now rewrite (verifyRefreshToken_revoked env now token w Hsecret Hhas).
Qed.

End Refresh.

Lemma refresh_revokes_only_after_verification_and_lookup_witness :
  let probe := Reference.request "/api/auth/refresh" [] in
  let w' :=
    snd (GETHandler (J := Reference.jsonwebtoken) (R := Reference.runtime)
           (U := Reference.users) Reference.env 1000 "k3j2h1" probe initial) in
  blacklistedTokens w' = blacklistedTokens initial
  /\ blacklistedRefreshTokens w' = blacklistedRefreshTokens initial.
Proof.
  intros probe w'.
  destruct (refresh_revokes_only_after_verification_and_lookup
              (J := Reference.jsonwebtoken) (R := Reference.runtime)
              (U := Reference.users) (L := ReferenceFacts.laws)
              Reference.env 1000 "k3j2h1" probe initial)
    as (Haccess & Hmissing & _).
  split; [exact Haccess | exact (Hmissing eq_refl)].
Defined.

(** * Further properties *)

(** ** The cache: capacity, uniqueness of keys, expiry *)

Section LRUCapacity.

Context {V : Type}.
Implicit Types (c : LRU.t V) (e : LRU.Entry V) (k : string) (v : V)
  (l : list (LRU.Entry V)).

Lemma lru_keys_remove k l x :
  In x (map LRU.ekey (LRU.remove k l)) -> x <> k /\ In x (map LRU.ekey l).
Proof.
  intros Hin. apply in_map_iff in Hin as (e & <- & He).
  apply filter_In in He as [He Hk]. split.
  - intros Heq. apply lru_is_key_true in Heq. rewrite Heq in Hk. discriminate.
  - now apply in_map.
Qed.

Lemma NoDup_lru_remove k l :
  List.NoDup (map LRU.ekey l) -> List.NoDup (map LRU.ekey (LRU.remove k l)).
Proof.
  induction l as [|e l IH]; simpl; [intros; constructor|].
  intros Hnd. inversion Hnd as [|? ? Hnotin Hrest]; subst.
  destruct (LRU.is_key k e); simpl; [now apply IH|].
  constructor; [|now apply IH].
  intros Hin. apply lru_keys_remove in Hin as [_ Hin]. contradiction.
Qed.

Lemma In_removelast (A : Type) (x : A) (l' : list A) :
  In x (removelast l') -> In x l'.
Proof.
  induction l' as [|y l' IH]; simpl; [tauto|].
  destruct l' as [|z l'']; [simpl; tauto|].
  intros [-> | Hin]; [now left | right; now apply IH].
Qed.

Lemma NoDup_keys_removelast l :
  List.NoDup (map LRU.ekey l) -> List.NoDup (map LRU.ekey (removelast l)).
Proof.
  induction l as [|e l IH]; simpl; [intros; constructor|].
  intros Hnd. inversion Hnd as [|? ? Hnotin Hrest]; subst.
  destruct l as [|e' l']; [constructor|].
  change (map LRU.ekey (e :: removelast (e' :: l')))
    with (LRU.ekey e :: map LRU.ekey (removelast (e' :: l'))).
  constructor; [|now apply IH].
  intros Hin. apply Hnotin.
  apply in_map_iff in Hin as (x & Hx & Hin). apply In_removelast in Hin.
  rewrite <- Hx. now apply in_map.
Qed.

Lemma lru_lookup_None_keys k c :
  LRU.lookup k c = None -> ~ In k (map LRU.ekey (LRU.items c)).
Proof.
  unfold LRU.lookup. intros Hnone Hin.
  apply in_map_iff in Hin as (e & Hkey & He).
  apply (find_none _ _ Hnone) in He.
  apply lru_is_key_true in Hkey. congruence.
Qed.

Lemma length_removelast (A : Type) (l' : list A) :
  length (removelast l') = Nat.pred (length l').
Proof.
  induction l' as [|y l' IH]; [reflexivity|].
  destruct l' as [|z l'']; [reflexivity|].
  change (removelast (y :: z :: l'')) with (y :: removelast (z :: l'')).
  cbn [length] in *. now rewrite IH.
Qed.

(** With distinct keys, removing a stored key removes one entry. *)
Lemma length_lru_remove_present k l e :
  List.NoDup (map LRU.ekey l) ->
  List.find (LRU.is_key k) l = Some e ->
  S (length (LRU.remove k l)) = length l.
Proof.
  induction l as [|x l IH]; simpl; [discriminate|].
  intros Hnd Hfind. inversion Hnd as [|? ? Hnotin Hrest]; subst.
  destruct (LRU.is_key k x) eqn:Hk; simpl.
  - f_equal. apply lru_is_key_true in Hk.
    assert (LRU.remove k l = l) as ->; [|reflexivity].
    clear IH Hfind Hrest Hnd. induction l as [|y l IH]; [reflexivity|].
    simpl. destruct (LRU.is_key k y) eqn:Hy; simpl.
    + exfalso. apply Hnotin. left. apply lru_is_key_true in Hy. congruence.
    + f_equal. apply IH. intros Hin. apply Hnotin. now right.
  - f_equal. now apply IH.
Qed.

Lemma length_lru_remove_le k l : (length (LRU.remove k l) <= length l)%nat.
Proof.
  induction l as [|x l IH]; simpl; [lia|].
  destruct (LRU.is_key k x); simpl; lia.
Qed.

(** [set] keeps a cache within its capacity and its keys distinct. *)
Lemma cache_inv_set (max ttl : Z) k v c now :
  0 < max -> cache_inv max ttl c -> cache_inv max ttl (LRU.set now k v c).
Proof.
  intros Hpos (Hmax & Httl & Hsize & Hnd).
  split; [now rewrite lru_max_set|]. split; [now rewrite lru_ttl_set|].
  unfold LRU.set, LRU.size in *.
  destruct (LRU.lookup k c) as [e|] eqn:Hlookup; simpl.
  - split.
    + pose proof (length_lru_remove_present k _ e Hnd Hlookup). lia.
    + constructor; [|now apply NoDup_lru_remove].
      intros Hin. apply lru_keys_remove in Hin as [Hne _]. congruence.
  - apply lru_lookup_None_keys in Hlookup.
    destruct (Z.of_nat (length (LRU.items c)) =? LRU.max c) eqn:Hfull.
    + apply Z.eqb_eq in Hfull. split.
      * simpl. rewrite length_removelast. lia.
      * constructor; [|now apply NoDup_keys_removelast].
        intros Hin. apply Hlookup.
        apply in_map_iff in Hin as (x & Hx & Hin). apply In_removelast in Hin.
        rewrite <- Hx. now apply in_map.
    + apply Z.eqb_neq in Hfull. split; [simpl; lia|].
      now constructor.
Qed.

(** [get] keeps a cache within its capacity and its keys distinct. *)
Lemma cache_inv_get (max ttl : Z) k c now :
  cache_inv max ttl c -> cache_inv max ttl (snd (LRU.get now k c)).
Proof.
  intros (Hmax & Httl & Hsize & Hnd).
  split; [now rewrite lru_max_get|]. split; [now rewrite lru_ttl_get|].
  unfold LRU.get, LRU.size in *.
  destruct (LRU.lookup k c) as [e|] eqn:Hlookup; [|now split].
  pose proof (length_lru_remove_present k _ e Hnd Hlookup) as Hlen.
  destruct (LRU.isStale c now e); simpl.
  - split; [lia | now apply NoDup_lru_remove].
  - split; [lia|]. constructor; [|now apply NoDup_lru_remove].
    intros Hin. apply lru_keys_remove in Hin as [Hne _].
    apply lru_lookup_key in Hlookup. congruence.
Qed.

(** Setting a key that is stored does not change the number of
    entries. *)
Lemma lru_size_set_present k v c now e :
  List.NoDup (map LRU.ekey (LRU.items c)) ->
  LRU.lookup k c = Some e ->
  LRU.size (LRU.set now k v c) = LRU.size c.
Proof.
  intros Hnd Hlookup. unfold LRU.set, LRU.size. rewrite Hlookup. simpl.
  pose proof (length_lru_remove_present k _ e Hnd Hlookup). lia.
Qed.

(** An entry is stale once more than [ttl] has elapsed since it was set. *)
Lemma lru_has_set_expired k v c now now' :
  LRU.ttl c <> 0 -> now <> 0 -> LRU.ttl c < now' - now ->
  LRU.has now' k (LRU.set now k v c) = false.
Proof.
  intros Httl Hnow Hage. unfold LRU.has. rewrite lru_lookup_set.
  unfold LRU.isStale. rewrite lru_ttl_set. simpl.
  apply Z.eqb_neq in Httl. rewrite Httl. simpl.
  apply Z.eqb_neq in Hnow. rewrite Hnow. simpl.
  apply Z.ltb_lt in Hage. now rewrite Hage.
Qed.

End LRUCapacity.

(** ** The worlds the handlers produce *)

Section Reachability.

Context {J : Jsonwebtoken} {R : Runtime} {U : UserService}.
Variable env : ProcessEnv.

Lemma reachable_blacklistTokenPair now accessToken refreshToken w :
  reachable now w ->
  reachable now (blacklistTokenPair now accessToken refreshToken w).
Proof.
  intros Hreach. unfold blacklistTokenPair.
  destruct (JS.truthy_string accessToken && _)%bool;
    destruct (JS.truthy_string refreshToken && _)%bool;
    repeat first [assumption | apply reach_blacklistRefreshToken
                 | apply reach_blacklistToken].
Qed.

Lemma reachable_authMiddleware now request w :
  reachable now w -> reachable now (snd (authMiddleware now request w)).
Proof.
  intros Hreach. unfold authMiddleware.
  destruct (negb _ || negb _)%bool; [assumption|].
  set (type := if isAuthEndpoint _ then auth else api).
  pose proof (reach_rateLimit now w request type Hreach) as Hrate.
  destruct (rateLimit now request type w) as [result w1].
  now destruct (negb (success result)).
Qed.

Lemma reachable_authenticateToken now request w :
  reachable now w -> reachable now (snd (authenticateToken env now request w)).
Proof.
  intros Hreach. unfold authenticateToken.
  destruct (negb (JS.truthy _)); [now apply reach_logSecurityEvent|].
  destruct (verifyAccessToken env now _ w) as [[]|];
    now apply reach_logSecurityEvent.
Qed.

Lemma reachable_GETHandler now draw request w :
  reachable now w -> reachable now (snd (GETHandler env now draw request w)).
Proof.
  intros Hreach.
  pose proof (reach_rateLimit now w request auth Hreach) as Hrate.
  unfold GETHandler, verify_or_respond, try_catch, bind, ret, throw,
    total, writes, reads, pure, securityMiddleware.
  destruct (validateOrigin env request); simpl; [|assumption].
  destruct (rateLimit now request auth w) as [result w1]. simpl in *.
  destruct (success result); simpl; [|now apply reach_logSecurityEvent].
  destruct (NextRequest.get request "x-refresh-token") as [token|]; simpl;
    [|now apply reach_logSecurityEvent].
  destruct (JS.truthy_string token); simpl; [|now apply reach_logSecurityEvent].
  destruct (verifyRefreshToken env now token w1) as [[]|claims]; simpl;
    try now apply reach_logSecurityEvent.
  destruct (findUserById (userId claims)) as [e|[doc|]]; simpl;
    try now apply reach_logSecurityEvent.
  destruct (generateTokenPair env now draw (userId claims) (user_email doc));
    simpl; now apply reach_logSecurityEvent, reach_blacklistRefreshToken.
Qed.

Lemma reachable_POST {Body : Type} {S : LoginServices Body}
    now draw request (body : Exn + Body) w :
  reachable now w -> reachable now (snd (POST env now draw request body w)).
Proof.
  intros Hreach.
  pose proof (reach_rateLimit now w request auth Hreach) as Hrate.
  unfold POST, try_catch, bind, ret, throw, total, writes, reads, pure,
    securityMiddleware.
  destruct (validateOrigin env request); simpl; [|assumption].
  destruct (rateLimit now request auth w) as [result w1]. simpl in *.
  destruct (success result); simpl; [|now apply reach_logSecurityEvent].
  destruct body as [e|body]; simpl; [assumption|].
  destruct (loginSchema_parse body) as [errors|[email password]]; simpl;
    [now apply reach_logSecurityEvent|].
  destruct (findUserByEmail email) as [e|[user|]]; simpl;
    [assumption | | now apply reach_logSecurityEvent].
  destruct (verifyPassword user password) as [e|[]]; simpl;
    [assumption | | now apply reach_logSecurityEvent].
  destruct (IUser._id user) as [id|]; simpl; [|assumption].
  destruct (generateTokenPair env now draw id (IUser.email user)); simpl;
    [assumption | now apply reach_logSecurityEvent].
Qed.

End Reachability.

Section WorldInvariant.

Context {R : Runtime}.

Lemma world_inv_initial : world_inv initial.
Proof.
  repeat split; try reflexivity; try (unfold LRU.size; simpl; lia);
    constructor.
Qed.

(** Every reachable world keeps its three caches as they were created,
    within their capacity and without a key stored twice. *)
Lemma reachable_world_inv now w : reachable now w -> world_inv w.
Proof.
  induction 1 as [now | now now' w _ IH Hle | now w request type _ IH
                 | now w token _ IH | now w token _ IH
                 | now w event details _ IH].
  - apply world_inv_initial.
  - exact IH.
  - destruct IH as (Ha & Hr & Hc). split; [|split].
    + now rewrite (proj1 (rateLimit_touches_only_the_rate_cache now request type w)).
    + now rewrite (proj1 (proj2 (rateLimit_touches_only_the_rate_cache
                                   now request type w))).
    + pose proof (cache_inv_get _ _ (rateLimitKey request type) _ now Hc) as Hget.
      unfold rateLimit.
      destruct (LRU.get now _ (rateLimitCache w)) as [[current|] cache];
        simpl in *.
      * destruct (resetTime current <? now); simpl;
          [now apply cache_inv_set|].
        destruct (max (RATE_LIMITS type) <=? count current); simpl;
          [assumption | now apply cache_inv_set].
      * now apply cache_inv_set.
  - destruct IH as (Ha & Hr & Hc). split; [|split]; try assumption.
    simpl. now apply cache_inv_set.
  - destruct IH as (Ha & Hr & Hc). split; [|split]; try assumption.
    simpl. now apply cache_inv_set.
  - exact IH.
Qed.

End WorldInvariant.

(** ** The token codec and the revocation registry *)

Lemma trim_nonblank (s : string) : JS.trim s <> "" -> s <> "".
Proof. intros Hne ->. now apply Hne. Qed.

Section Registry.

Context {J : Jsonwebtoken} {R : Runtime}.
Variable env : ProcessEnv.

(** With the access secret missing or empty, issuing and verifying fail
    with the configuration error for every input, a revoked token
    included, and [authenticateToken] turns that error into the 401 it
    gives for an invalid token. *)
Theorem missing_access_secret_fails_every_call :
  JS.truthy (JWT_SECRET env) = false ->
  let missing := Error "JWT_SECRET environment variable is not defined" in
  (forall now payload, generateAccessToken env now payload = inl missing)
  /\ (forall now draw uid em, generateTokenPair env now draw uid em = inl missing)
  /\ (forall now token w, verifyAccessToken env now token w = inl missing)
  /\ (forall now request w,
        JS.truthy (token_of request) = true ->
        authenticateToken env now request w
        = (inl (NextResponse.json [("error", "Invalid or expired token")] 401),
           logSecurityEvent now "authentication_failed"
             [ ("reason", "invalid_token"); ("ip", ip_of request);
               ("endpoint", NextRequest.pathname request) ] w)).
Proof.
  intros Hmissing missing.
  assert (forall now payload, generateAccessToken env now payload = inl missing)
    as Hgen.
  { intros now payload. unfold generateAccessToken.
    destruct (JWT_SECRET env) as [secret|]; [|reflexivity].
    simpl in Hmissing. now rewrite Hmissing. }
  assert (forall now token w, verifyAccessToken env now token w = inl missing)
    as Hver.
  { intros now token w. unfold verifyAccessToken.
    destruct (JWT_SECRET env) as [secret|]; [|reflexivity].
    simpl in Hmissing. now rewrite Hmissing. }
  repeat split; try assumption.
  - intros now draw uid em. unfold generateTokenPair. now rewrite Hgen.
  - intros now request w Htoken. unfold authenticateToken.
    fold (token_of request). now rewrite Htoken, Hver.
Qed.

(** [blacklistTokenPair] revokes each token that is not blank and skips
    a blank or empty one; it touches nothing else. *)
Theorem logout_revokes_the_tokens_that_are_not_blank :
  forall (now : Z) (accessToken refreshToken : string) (w : World),
    let w' := blacklistTokenPair now accessToken refreshToken w in
    (JS.trim accessToken = "" -> blacklistedTokens w' = blacklistedTokens w)
    /\ (JS.trim refreshToken = "" ->
        blacklistedRefreshTokens w' = blacklistedRefreshTokens w)
    /\ (JS.trim accessToken <> "" -> configured (JWT_SECRET env) ->
        forall now' : Z,
          now' - now <= LRU.ttl (blacklistedTokens w) ->
          verifyAccessToken env now' accessToken w'
          = inl (TokenBlacklistedError "Token has been revoked"))
    /\ (JS.trim refreshToken <> "" -> configured (JWT_REFRESH_SECRET env) ->
        forall now' : Z,
          now' - now <= LRU.ttl (blacklistedRefreshTokens w) ->
          verifyRefreshToken env now' refreshToken w'
          = inl (RefreshTokenBlacklistedError "Refresh token has been revoked"))
    /\ rateLimitCache w' = rateLimitCache w
    /\ securityLog w' = securityLog w.
Proof.
  intros now accessToken refreshToken w w'. subst w'.
  unfold blacklistTokenPair.
  destruct (JS.truthy_string accessToken && JS.truthy_string (JS.trim accessToken))%bool
    eqn:Ha;
    destruct (JS.truthy_string refreshToken
              && JS.truthy_string (JS.trim refreshToken))%bool eqn:Hr;
    repeat split; simpl; try reflexivity; intros.
  all: try (apply andb_true_iff in Ha as [_ Ha];
            apply truthy_string_true in Ha; congruence).
  all: try (apply andb_true_iff in Hr as [_ Hr];
            apply truthy_string_true in Hr; congruence).
  all: try (apply verifyAccessToken_revoked; [assumption|]; simpl;
            now apply lru_has_set).
  all: try (apply verifyRefreshToken_revoked; [assumption|]; simpl;
            now apply lru_has_set).
  all: exfalso;
    match goal with
    | H : JS.trim ?t <> "", Hb : (JS.truthy_string ?t && _)%bool = false |- _ =>
        pose proof (trim_nonblank t H) as Hne;
        apply truthy_string_true in H, Hne; rewrite H, Hne in Hb;
        discriminate
    end.
Qed.

End Registry.

Section RegistryLaws.

Context {J : Jsonwebtoken} {L : JsonwebtokenLaws J} {R : Runtime}.
Variable env : ProcessEnv.

Lemma jwt_verdict p secret expiresIn token now span :
  jwt_sign p secret expiresIn now = inr token ->
  iat p = None -> exp p = None ->
  timespan expiresIn = Some span ->
  forall now' : Z,
    jwt_verify token secret now'
    = if now / 1000 + span <=? now' / 1000
      then inl (TokenExpiredError "jwt expired")
      else inr (stamp p (now / 1000) (now / 1000 + span)).
Proof.
  intros Hsign Hiat Hexp Hspan now'.
  destruct (jwt_verify_sign p secret expiresIn token now Hsign Hiat Hexp)
    as (span' & Hspan' & Hverify).
  assert (span' = span) as -> by congruence. apply Hverify.
Qed.

(** With both secrets configured and both expiry settings readable,
    [generateTokenPair] issues a pair for every user: until its expiry
    and outside the revocation sets the access token verifies to the
    user's id and email and the refresh token to the user's id and the
    random token id; from its expiry on each is rejected as expired. *)
Theorem issued_token_pair_verifies :
  forall (now : Z) (draw uid em : string) (access_span refresh_span : Z),
    configured (JWT_SECRET env) ->
    configured (JWT_REFRESH_SECRET env) ->
    timespan (JS.or_default (JWT_EXPIRES_IN env) "15m") = Some access_span ->
    timespan (JS.or_default (JWT_REFRESH_EXPIRES_IN env) "7d")
    = Some refresh_span ->
    exists accessToken refreshToken : string,
      generateTokenPair env now draw uid em = inr (accessToken, refreshToken)
      /\ (forall (now' : Z) (w : World),
            isTokenBlacklisted now' accessToken w = false ->
            verifyAccessToken env now' accessToken w
            = if now / 1000 + access_span <=? now' / 1000
              then inl (TokenExpiredError "jwt expired")
              else inr (stamp (JWTPayload uid em) (now / 1000)
                          (now / 1000 + access_span)))
      /\ (forall (now' : Z) (w : World),
            isRefreshTokenBlacklisted now' refreshToken w = false ->
            verifyRefreshToken env now' refreshToken w
            = if now / 1000 + refresh_span <=? now' / 1000
              then inl (TokenExpiredError "jwt expired")
              else inr (stamp (RefreshTokenPayload uid draw) (now / 1000)
                          (now / 1000 + refresh_span))).
Proof.
  intros now draw uid em access_span refresh_span Ha Hr Hspan_a Hspan_r.
  destruct (generateTokenPair_succeeds env now draw uid em Ha Hr
              ltac:(eauto) ltac:(eauto)) as [[accessToken refreshToken] Hpair].
  exists accessToken, refreshToken. split; [exact Hpair|].
  apply generateTokenPair_inv in Hpair as [Hissue_a Hissue_r].
  destruct (configured_inv _ Ha) as (secret & Hs & Ht).
  destruct (configured_inv _ Hr) as (secret' & Hs' & Ht').
  rewrite (generateAccessToken_spec env now _ secret Hs Ht) in Hissue_a.
  rewrite (generateRefreshToken_spec env now _ secret' Hs' Ht') in Hissue_r.
  split; intros now' w Hfree.
  - rewrite (verifyAccessToken_spec env now' _ w secret Hs Ht).
    unfold isTokenBlacklisted in Hfree. rewrite Hfree.
    now apply (jwt_verdict _ _ _ _ _ _ Hissue_a).
  - rewrite (verifyRefreshToken_spec env now' _ w secret' Hs' Ht').
    unfold isRefreshTokenBlacklisted in Hfree. rewrite Hfree.
    now apply (jwt_verdict _ _ _ _ _ _ Hissue_r).
Qed.

End RegistryLaws.

Section RegistryInvariants.

Context {J : Jsonwebtoken} {R : Runtime}.
Variable env : ProcessEnv.

(** In every reachable world the revocation sets hold at most 1000
    entries each and the rate cache at most 10000. *)
Theorem caches_stay_within_capacity :
  forall (now : Z) (w : World),
    reachable now w ->
    0 <= fst (getBlacklistStats w) <= 1000
    /\ 0 <= snd (getBlacklistStats w) <= 1000
    /\ 0 <= LRU.size (rateLimitCache w) <= 10000.
Proof.
  intros now w Hreach.
  destruct (reachable_world_inv now w Hreach)
    as ((_ & _ & Ha & _) & (_ & _ & Hr & _) & (_ & _ & Hc & _)).
  unfold getBlacklistStats, LRU.size in *. simpl. lia.
Qed.

(** Revoking a token grows the access revocation set by one entry, unless
    the token is already stored or the set is full, in which case the
    number of entries stays as it is. *)
Theorem revocation_is_idempotent_in_size :
  forall (now now' : Z) (token : string) (w : World),
    reachable now w ->
    fst (getBlacklistStats (blacklistToken now' token w))
    = match LRU.lookup token (blacklistedTokens w) with
      | Some _ => fst (getBlacklistStats w)
      | None =>
          if fst (getBlacklistStats w) =? 1000
          then 1000 else fst (getBlacklistStats w) + 1
      end.
Proof.
  intros now now' token w Hreach.
  destruct (reachable_world_inv now w Hreach) as ((Hmax & _ & Hsize & Hnd) & _).
  unfold getBlacklistStats, blacklistToken. simpl.
  destruct (LRU.lookup token (blacklistedTokens w)) as [e|] eqn:Hlookup.
  - now apply lru_size_set_present with e.
  - unfold LRU.set. rewrite Hlookup, Hmax.
    destruct (LRU.size (blacklistedTokens w) =? 1000) eqn:Hfull;
      unfold LRU.size in *; simpl.
    + apply Z.eqb_eq in Hfull. rewrite length_removelast. lia.
    + lia.
Qed.

(** A revocation lapses with its entry: more than 24 hours (7 days for a
    refresh token) after the token was revoked, the verifier again gives
    the verdict of [jwt.verify]. *)
Theorem revocation_lapses_with_its_entry :
  forall (now now' : Z) (token secret : string) (w : World),
    reachable now w -> now <> 0 -> secret <> "" ->
    (JWT_SECRET env = Some secret ->
     1000 * 60 * 60 * 24 < now' - now ->
     verifyAccessToken env now' token (blacklistToken now token w)
     = jwt_verify token secret now')
    /\
    (JWT_REFRESH_SECRET env = Some secret ->
     1000 * 60 * 60 * 24 * 7 < now' - now ->
     verifyRefreshToken env now' token (blacklistRefreshToken now token w)
     = jwt_verify token secret now').
Proof.
  intros now now' token secret w Hreach Hnow Hne.
  destruct (reachable_world_inv now w Hreach)
    as ((_ & Httl_a & _) & (_ & Httl_r & _) & _).
  apply truthy_string_true in Hne.
  split; intros Hsecret Hage.
  - rewrite (verifyAccessToken_spec env now' _ _ secret Hsecret Hne).
    simpl. rewrite lru_has_set_expired; [reflexivity | | assumption |];
      rewrite Httl_a; lia.
  - rewrite (verifyRefreshToken_spec env now' _ _ secret Hsecret Hne).
    simpl. rewrite lru_has_set_expired; [reflexivity | | assumption |];
      rewrite Httl_r; lia.
Qed.

End RegistryInvariants.

(** ** The rate limiter: keys, counts and headers *)

Section RateLimiterMore.

Context {R : Runtime}.
Implicit Types (w : World) (request : NextRequest.t) (type : RateLimitType).

(** The key tells the limit class and the client apart. *)
Lemma rateLimitKey_inj request request' type type' :
  rateLimitKey request type = rateLimitKey request' type' ->
  type = type' /\ getClientIP request = getClientIP request'.
Proof.
  unfold rateLimitKey.
  generalize (getClientIP request) (getClientIP request'). intros ip ip'.
  destruct type, type'; cbv [type_name String.append]; intros Heq;
    first [discriminate Heq | injection Heq as ->; now split].
Qed.

Lemma lru_lookup_get_other (V : Type) (k k' : string) (c : LRU.t V) now :
  k' <> k -> LRU.lookup k' (snd (LRU.get now k c)) = LRU.lookup k' c.
Proof.
  intros Hne. unfold LRU.get.
  destruct (LRU.lookup k c) as [e|] eqn:Hlookup; [|reflexivity].
  assert (LRU.is_key k' e = false) as Hkey.
  { destruct (LRU.is_key k' e) eqn:Hk; [|reflexivity].
    apply lru_is_key_true in Hk. apply lru_lookup_key in Hlookup. congruence. }
  destruct (LRU.isStale c now e); unfold LRU.lookup; simpl; rewrite ?Hkey;
    now apply lru_lookup_remove_other.
Qed.

(** With room left, setting a key leaves every other key as it is. *)
Lemma lru_lookup_set_other_room (V : Type) (k k' : string) (v : V)
    (c : LRU.t V) now :
  k' <> k -> LRU.size c < LRU.max c ->
  LRU.lookup k' (LRU.set now k v c) = LRU.lookup k' c.
Proof.
  intros Hne Hroom. unfold LRU.set, LRU.lookup.
  assert (LRU.is_key k' (LRU.mkEntry k v (if LRU.ttl c =? 0 then 0 else now))
          = false) as Hnew.
  { destruct (LRU.is_key k' _) eqn:Hk; [|reflexivity].
    apply lru_is_key_true in Hk. simpl in Hk. congruence. }
  destruct (List.find (LRU.is_key k) (LRU.items c)); simpl; rewrite Hnew.
  - now apply lru_lookup_remove_other.
  - destruct (LRU.size c =? LRU.max c) eqn:Hfull; [|reflexivity].
    apply Z.eqb_eq in Hfull. lia.
Qed.

Lemma lru_size_get_le (V : Type) (k : string) (c : LRU.t V) now :
  LRU.size (snd (LRU.get now k c)) <= LRU.size c.
Proof.
  unfold LRU.get, LRU.size.
  destruct (LRU.lookup k c) as [e|] eqn:Hlookup; [|simpl; lia].
  assert (length (LRU.remove k (LRU.items c)) < length (LRU.items c))%nat.
  { clear -Hlookup. unfold LRU.lookup in Hlookup.
    induction (LRU.items c) as [|x l IH]; simpl in *; [discriminate|].
    destruct (LRU.is_key k x); simpl.
    - pose proof (length_lru_remove_le k l). lia.
    - apply IH in Hlookup. lia. }
  destruct (LRU.isStale c now e); simpl; lia.
Qed.

(** A call of the limiter for one class and client leaves the window of
    every other class and every other client as it is, or evicts it when
    the cache is full; with room left in the cache it leaves it as it
    is. *)
Theorem rate_windows_are_counted_separately :
  forall (now : Z) (request request' : NextRequest.t)
         (type type' : RateLimitType) (w : World),
    type' <> type \/ getClientIP request' <> getClientIP request ->
    let w' := snd (rateLimit now request type w) in
    (stored_window (rateLimitKey request' type') w'
     = stored_window (rateLimitKey request' type') w
     \/ stored_window (rateLimitKey request' type') w' = None)
    /\ (LRU.size (rateLimitCache w) < LRU.max (rateLimitCache w) ->
        stored_window (rateLimitKey request' type') w'
        = stored_window (rateLimitKey request' type') w).
Proof.
  intros now request request' type type' w Hother w'. subst w'.
  set (key := rateLimitKey request type).
  set (key' := rateLimitKey request' type').
  assert (key' <> key) as Hne.
  { intros Heq. apply rateLimitKey_inj in Heq as [-> Hip]. tauto. }
  pose proof (lru_lookup_get_other _ key key' (rateLimitCache w) now Hne) as Hget.
  pose proof (lru_size_get_le _ key (rateLimitCache w) now) as Hsize.
  pose proof (lru_max_get key (rateLimitCache w) now) as Hmax.
  unfold stored_window, rateLimit. fold key.
  destruct (LRU.get now key (rateLimitCache w)) as [[current|] cache];
    simpl in *.
  - destruct (resetTime current <? now); simpl.
    + split.
      * destruct (lru_lookup_set_other key key'
                    {| count := 1;
                       resetTime := now + windowMs (RATE_LIMITS type) |}
                    cache now Hne) as [-> | ->];
          [now right | left; now rewrite Hget].
      * intros Hroom. rewrite lru_lookup_set_other_room; [|assumption|lia].
        now rewrite Hget.
    + destruct (max (RATE_LIMITS type) <=? count current); simpl.
      * rewrite Hget. now split; [left|].
      * split.
        -- destruct (lru_lookup_set_other key key'
                      {| count := count current + 1;
                         resetTime := resetTime current |}
                      cache now Hne) as [-> | ->];
             [now right | left; now rewrite Hget].
        -- intros Hroom. rewrite lru_lookup_set_other_room; [|assumption|lia].
           now rewrite Hget.
  - split.
    + destruct (lru_lookup_set_other key key'
                  {| count := 1;
                     resetTime := now + windowMs (RATE_LIMITS type) |}
                  cache now Hne) as [-> | ->];
        [now right | left; now rewrite Hget].
    + intros Hroom. rewrite lru_lookup_set_other_room; [|assumption|lia].
      now rewrite Hget.
Qed.

End RateLimiterMore.

Section RateLimiterBounds.

Context {R : Runtime}.
Implicit Types (w : World) (request : NextRequest.t) (type : RateLimitType).

Lemma lru_get_Some_lookup (V : Type) (k : string) (c : LRU.t V) now v :
  fst (LRU.get now k c) = Some v ->
  exists e, LRU.lookup k c = Some e /\ LRU.evalue e = v
            /\ LRU.isStale c now e = false.
Proof.
  unfold LRU.get. destruct (LRU.lookup k c) as [e|]; [|discriminate].
  destruct (LRU.isStale c now e) eqn:Hstale; simpl; [discriminate|].
  intros [= <-]. eauto.
Qed.

Lemma max_RATE_LIMITS_pos type : 1 <= max (RATE_LIMITS type).
Proof. destruct type; simpl; lia. Qed.

(** The result of a call, read off the window the cache returns. *)
Lemma rateLimit_result now request type w :
  fst (rateLimit now request type w)
  = match fst (LRU.get now (rateLimitKey request type) (rateLimitCache w)) with
    | None => fresh_result
    | Some current =>
        if resetTime current <? now then fresh_result
        else if max (RATE_LIMITS type) <=? count current
             then denied_result (RATE_LIMITS type) current now
             else allowed_result (RATE_LIMITS type) (bump current)
    end.
Proof.
  unfold rateLimit.
  destruct (LRU.get now _ (rateLimitCache w)) as [[current|] cache]; simpl;
    [|reflexivity].
  destruct (resetTime current <? now); [reflexivity|].
  now destruct (max (RATE_LIMITS type) <=? count current).
Qed.

Lemma count_inv_rateLimit now request type w :
  count_inv w -> count_inv (snd (rateLimit now request type w)).
Proof.
  unfold count_inv. intros Hall.
  set (key := rateLimitKey request type).
  pose proof (Forall_lru_get _ key (rateLimitCache w) now Hall) as Hget.
  pose proof (lru_get_Some_lookup _ key (rateLimitCache w) now) as Hsome.
  assert (forall n, 1 <= n <= max (RATE_LIMITS type) ->
            forall request' type', key = rateLimitKey request' type' ->
            1 <= n <= max (RATE_LIMITS type')) as Hkey.
  { intros n Hn request' type' Heq.
    apply rateLimitKey_inj in Heq as [<- _]. exact Hn. }
  pose proof (max_RATE_LIMITS_pos type) as Hpos.
  unfold rateLimit. fold key.
  destruct (LRU.get now key (rateLimitCache w)) as [[current|] cache];
    simpl in *.
  - destruct (Hsome current eq_refl) as (e & Hlookup & <- & _).
    pose proof (lru_lookup_In _ _ _ Hlookup) as Hin.
    pose proof (proj1 (List.Forall_forall _ _) Hall e Hin request type
                  (lru_lookup_key _ _ _ Hlookup)) as Hcount.
    destruct (resetTime (LRU.evalue e) <? now); simpl.
    + apply Forall_lru_set; [assumption|]. simpl. apply Hkey. lia.
    + destruct (max (RATE_LIMITS type) <=? count (LRU.evalue e)) eqn:Hmax;
        simpl; [assumption|].
      apply Z.leb_gt in Hmax.
      apply Forall_lru_set; [assumption|]. simpl. apply Hkey. lia.
  - apply Forall_lru_set; [assumption|]. simpl. apply Hkey. lia.
Qed.

Lemma reachable_count_inv now w : reachable now w -> count_inv w.
Proof.
  induction 1 as [now | now now' w _ IH Hle | now w request type _ IH
                 | now w token _ IH | now w token _ IH
                 | now w event details _ IH]; try exact IH.
  - constructor.
  - now apply count_inv_rateLimit.
Qed.

(** In a reachable world a stored window has counted at least one
    request and never more than the maximum of its limit class. *)
Theorem stored_count_never_exceeds_the_maximum :
  forall (now : Z) (request : NextRequest.t) (type : RateLimitType)
         (w : World) (current : RateWindow),
    reachable now w ->
    stored_window (rateLimitKey request type) w = Some current ->
    1 <= count current <= max (RATE_LIMITS type).
Proof.
  intros now request type w current Hreach Hstored.
  apply reachable_count_inv in Hreach.
  unfold stored_window in Hstored.
  destruct (LRU.lookup _ (rateLimitCache w)) as [e|] eqn:Hlookup;
    [|discriminate].
  injection Hstored as <-.
  exact (proj1 (List.Forall_forall _ _) Hreach e (lru_lookup_In _ _ _ Hlookup)
           request type (lru_lookup_key _ _ _ Hlookup)).
Qed.

(** In a reachable world the numbers the limiter reports are within
    bounds: an allowed result after the first of an epoch reports a
    remaining quota from 0 to the maximum minus 2, a denied result
    reports remaining 0 and a Retry-After from 0 to 900 seconds. *)
Theorem rate_limit_headers_are_within_bounds :
  forall (now : Z) (request : NextRequest.t) (type : RateLimitType) (w : World),
    reachable now w ->
    let result := fst (rateLimit now request type w) in
    let limit := max (RATE_LIMITS type) in
    result = fresh_result
    \/ (success result = true
        /\ header "X-RateLimit-Limit" result = Some (JS.toString limit)
        /\ exists remaining : Z,
             header "X-RateLimit-Remaining" result = Some (JS.toString remaining)
             /\ 0 <= remaining <= limit - 2)
    \/ (success result = false
        /\ header "X-RateLimit-Limit" result = Some (JS.toString limit)
        /\ header "X-RateLimit-Remaining" result = Some "0"
        /\ exists seconds : Z,
             header "Retry-After" result = Some (JS.toString seconds)
             /\ 0 <= seconds <= 900).
Proof.
  intros now request type w Hreach result limit. subst result limit.
  pose proof (reachable_count_inv now w Hreach) as Hcount.
  pose proof (reachable_rate_inv now w Hreach) as [_ Hrate].
  rewrite rateLimit_result.
  destruct (fst (LRU.get now _ (rateLimitCache w))) as [current|] eqn:Hget;
    [|now left].
  destruct (lru_get_Some_lookup _ _ _ _ _ Hget) as (e & Hlookup & <- & _).
  pose proof (lru_lookup_In _ _ _ Hlookup) as Hin.
  pose proof (proj1 (List.Forall_forall _ _) Hcount e Hin request type
                (lru_lookup_key _ _ _ Hlookup)) as Hc.
  pose proof (proj1 (List.Forall_forall _ _) Hrate e Hin) as [Hstart Hreset].
  simpl in Hstart, Hreset.
  destruct (resetTime (LRU.evalue e) <? now) eqn:Hpast; [now left|].
  apply Z.ltb_ge in Hpast. right.
  destruct (max (RATE_LIMITS type) <=? count (LRU.evalue e)) eqn:Hmax.
  - right. repeat split.
    exists (JS.ceil_div (resetTime (LRU.evalue e) - now) 1000).
    split; [reflexivity|]. unfold JS.ceil_div.
    assert (- 900 <= - (resetTime (LRU.evalue e) - now) / 1000 <= 0); [|lia].
    split.
    + apply Z.div_le_lower_bound; lia.
    + apply Z.div_le_upper_bound; lia.
  - left. apply Z.leb_gt in Hmax. repeat split.
    exists (max (RATE_LIMITS type) - (count (LRU.evalue e) + 1)).
    split; [reflexivity|]. simpl. lia.
Qed.

Lemma rateLimits_app times later request type w :
  rateLimits (times ++ later)%list request type w
  = let (results, w1) := rateLimits times request type w in
    let (results', w2) := rateLimits later request type w1 in
    ((results ++ results')%list, w2).
Proof.
  revert w. induction times as [|t ts IH]; intros w; simpl.
  - now destruct (rateLimits later request type w).
  - destruct (rateLimit t request type w) as [r w1]. rewrite IH.
    destruct (rateLimits ts request type w1) as [rs w2].
    now destruct (rateLimits later request type w2).
Qed.

(** Once the quota is used up, every call within the epoch is denied. *)
Lemma rateLimits_beyond_quota later request type :
  forall w reset,
    open_window (rateLimitKey request type) (max (RATE_LIMITS type)) reset w ->
    Forall (fun now => reset - 1000 * 60 * 15 <= now <= reset) later ->
    let '(results, w') := rateLimits later request type w in
    map success results = repeat false (length later)
    /\ open_window (rateLimitKey request type) (max (RATE_LIMITS type)) reset w'.
Proof.
  induction later as [|now later IH]; intros w reset Hopen Htimes.
  - now split.
  - inversion Htimes as [|? ? Hnow Hlater]; subst. simpl rateLimits.
    pose proof (open_window_step now request type w _ reset Hopen Hnow) as Hstep.
    destruct (rateLimit now request type w) as [result w1].
    rewrite Z.leb_refl in Hstep. destruct Hstep as [Hdenied Hopen1].
    specialize (IH w1 reset Hopen1 Hlater).
    destruct (rateLimits later request type w1) as [results w2].
    destruct IH as [Hall Hopen2]. split; [|exact Hopen2].
    simpl. now rewrite Hdenied, Hall.
Qed.

(** The quota of every limit class: from an absent or expired window,
    the first call and the next [max - 1] calls within the window are
    allowed, and every further call before the reset time is denied,
    however many there are. *)
Theorem quota_of_every_limit_class :
  forall (request : NextRequest.t) (type : RateLimitType) (w : World)
         (t1 : Z) (times later : list Z),
    rate_cache_configured w ->
    window_expired t1 (rateLimitKey request type) w = true ->
    Z.of_nat (length times) = max (RATE_LIMITS type) - 1 ->
    Forall (fun now => t1 <= now <= t1 + windowMs (RATE_LIMITS type))
      (times ++ later)%list ->
    map success
      (fst (rateLimits (t1 :: times ++ later)%list request type w))
    = (repeat true (S (length times)) ++ repeat false (length later))%list.
Proof.
  intros request type w t1 times later Httl Hexp Hlen Hall.
  apply Forall_app in Hall as [Htimes Hlater].
  pose proof (windowMs_RATE_LIMITS type) as Hwin.
  simpl rateLimits.
  pose proof (open_window_fresh t1 request type w Httl Hexp) as Hfirst.
  destruct (rateLimit t1 request type w) as [r1 w1].
  destruct Hfirst as [-> Hopen1].
  rewrite rateLimits_app.
  assert (forall l,
            Forall (fun now => t1 <= now <= t1 + windowMs (RATE_LIMITS type)) l ->
            Forall (fun now => t1 + windowMs (RATE_LIMITS type) - 1000 * 60 * 15
                               <= now <= t1 + windowMs (RATE_LIMITS type)) l)
    as Hwiden.
  { intros l Hl. eapply List.Forall_impl; [|exact Hl]. simpl. intros t Ht. lia. }
  pose proof (rateLimits_within_quota times request type w1 1 _ Hopen1
                (Hwiden _ Htimes) ltac:(lia)) as Hmid.
  destruct (rateLimits times request type w1) as [results w2].
  destruct Hmid as [Hallowed Hopen2].
  replace (1 + Z.of_nat (length times)) with (max (RATE_LIMITS type)) in Hopen2
    by lia.
  pose proof (rateLimits_beyond_quota later request type w2 _ Hopen2
                (Hwiden _ Hlater)) as Hrest.
  destruct (rateLimits later request type w2) as [results' w3].
  destruct Hrest as [Hdenied _].
  simpl. now rewrite map_app, Hallowed, Hdenied.
Qed.

End RateLimiterBounds.

(** ** The gate: what it leaves alone, and [middleware.ts] *)

Section GateFrame.

Context {J : Jsonwebtoken} {R : Runtime}.
Variable env : ProcessEnv.

Lemma revocations_rateLimit now request type w :
  revocations (snd (rateLimit now request type w)) = revocations w.
Proof.
  destruct (rateLimit_touches_only_the_rate_cache now request type w)
    as (Ha & Hr & _).
  unfold revocations. now rewrite Ha, Hr.
Qed.

Lemma revocations_authMiddleware now request w :
  revocations (snd (authMiddleware now request w)) = revocations w.
Proof.
  unfold authMiddleware.
  destruct (negb _ || negb _)%bool; [reflexivity|].
  set (type := if isAuthEndpoint _ then auth else api).
  pose proof (revocations_rateLimit now request type w) as Hrate.
  destruct (rateLimit now request type w) as [result w1].
  now destruct (negb (success result)).
Qed.

Lemma revocations_authenticateToken now request w :
  revocations (snd (authenticateToken env now request w)) = revocations w.
Proof.
  unfold authenticateToken.
  destruct (negb (JS.truthy _)); [reflexivity|].
  now destruct (verifyAccessToken env now _ w) as [[]|].
Qed.

Lemma rateLimitCache_authenticateToken now request w :
  rateLimitCache (snd (authenticateToken env now request w)) = rateLimitCache w.
Proof.
  unfold authenticateToken.
  destruct (negb (JS.truthy _)); [reflexivity|].
  now destruct (verifyAccessToken env now _ w) as [[]|].
Qed.

Lemma verifyAccessToken_ext now token w w' :
  revocations w = revocations w' ->
  verifyAccessToken env now token w = verifyAccessToken env now token w'.
Proof.
  unfold revocations, verifyAccessToken. intros [= -> _]. reflexivity.
Qed.

(** Neither the rate limiter, nor the header gate, nor the
    authentication of a request, nor a login writes to a revocation
    set: after any of them every access token verifies as it did
    before. *)
Theorem gate_and_login_never_revoke :
  forall (Body : Type) (S : LoginServices Body) (now : Z) (draw : string)
         (request : NextRequest.t) (type : RateLimitType)
         (body : Exn + Body) (w w' : World),
    w' = snd (rateLimit now request type w)
    \/ w' = snd (authMiddleware now request w)
    \/ w' = snd (authenticateToken env now request w)
    \/ w' = snd (POST env now draw request body w) ->
    revocations w' = revocations w
    /\ forall (now' : Z) (token : string),
         verifyAccessToken env now' token w' = verifyAccessToken env now' token w.
Proof.
  intros Body S now draw request type body w w' Hw'.
  assert (revocations w' = revocations w) as Hrev.
  { destruct Hw' as [-> | [-> | [-> | ->]]].
    - apply revocations_rateLimit.
    - apply revocations_authMiddleware.
    - apply revocations_authenticateToken.
    - pose proof (revocations_rateLimit now request auth w) as Hrate.
      unfold POST, try_catch, bind, ret, throw, total, writes, reads, pure,
        securityMiddleware.
      destruct (validateOrigin env request); simpl; [|reflexivity].
      destruct (rateLimit now request auth w) as [result w1]. simpl in *.
      destruct (success result); simpl; [|assumption].
      destruct body as [e|body]; simpl; [assumption|].
      destruct (loginSchema_parse body) as [errors|[email password]]; simpl;
        [assumption|].
      destruct (findUserByEmail email) as [e|[user|]]; simpl;
        [assumption | | assumption].
      destruct (verifyPassword user password) as [e|[]]; simpl;
        [assumption | | assumption].
      destruct (IUser._id user) as [id|]; simpl; [|assumption].
      now destruct (generateTokenPair env now draw id (IUser.email user)). }
  split; [exact Hrev|]. intros now' token. now apply verifyAccessToken_ext.
Qed.

Lemma set_all_next_lookup (k : string) :
  NextResponse.headers (NextResponse.set_all SECURITY_HEADERS NextResponse.next)
  !! k = SECURITY_HEADERS !! k.
Proof. simpl. now rewrite (right_id_L ∅ (∪)). Qed.

Lemma SECURITY_HEADERS_no_cors (k v : string) :
  SECURITY_HEADERS !! k = Some v ->
  k <> "Access-Control-Allow-Origin"
  /\ k <> "Access-Control-Allow-Methods"
  /\ k <> "Access-Control-Allow-Headers"
  /\ k <> "Access-Control-Allow-Credentials".
Proof. intros Hk. repeat split; intros ->; vm_compute in Hk; discriminate. Qed.

(** [middleware] answers 403 only to a request to an [/api/] path whose
    origin is refused, and that answer carries none of the security
    headers; every other request is let through with status 200 and
    each of the security headers set. *)
Theorem middleware_sets_the_security_headers :
  forall (method : string) (request : NextRequest.t),
    let response := middleware env method request in
    let refused :=
      (JS.startsWith (NextRequest.pathname request) "/api/"
       && negb (validateOrigin env request))%bool in
    if refused
    then response = NextResponse.json [("error", "Invalid origin")] 403
         /\ forall k v : string,
              SECURITY_HEADERS !! k = Some v ->
              NextResponse.headers response !! k = None
    else NextResponse.status response = 200
         /\ NextResponse.body response = []
         /\ forall k v : string,
              SECURITY_HEADERS !! k = Some v ->
              NextResponse.headers response !! k = Some v.
Proof.
  intros method request response refused. subst response refused.
  unfold middleware.
  destruct (JS.startsWith (NextRequest.pathname request) "/api/");
    cbn [andb negb].
  - destruct (validateOrigin env request); cbn [andb negb];
      [|split; [reflexivity | intros k v _; apply lookup_empty]].
    destruct (JS.truthy _ && _)%bool; destruct (String.eqb method "OPTIONS");
      cbn [NextResponse.status NextResponse.body NextResponse.headers
           set_header NextResponse.set_all NextResponse.next];
      (split; [reflexivity|]); (split; [reflexivity|]);
      intros k v Hk;
      destruct (SECURITY_HEADERS_no_cors k v Hk) as (H1 & H2 & H3 & H4);
      rewrite !lookup_insert_ne by congruence;
      now rewrite (right_id_L ∅ (∪)).
  - split; [reflexivity|]. split; [reflexivity|].
    intros k v Hk. now rewrite set_all_next_lookup.
Qed.

(** [middleware] echoes an origin in Access-Control-Allow-Origin only
    on an [/api/] path and only when it is the request's own Origin
    header and belongs to the allow list; on every [/api/] response it
    lets through it allows credentials. *)
Theorem middleware_echoes_only_allowed_origins :
  forall (method : string) (request : NextRequest.t),
    let response := middleware env method request in
    (forall origin : string,
        NextResponse.headers response !! "Access-Control-Allow-Origin"
        = Some origin ->
        JS.startsWith (NextRequest.pathname request) "/api/" = true
        /\ NextRequest.get request "origin" = Some origin
        /\ origin <> ""
        /\ In origin (allowedOrigins env))
    /\ (forall origin : string,
          JS.startsWith (NextRequest.pathname request) "/api/" = true ->
          NextRequest.get request "origin" = Some origin ->
          origin <> "" ->
          In origin (allowedOrigins env) ->
          NextResponse.headers response !! "Access-Control-Allow-Origin"
          = Some origin
          /\ NextResponse.headers response !! "Access-Control-Allow-Credentials"
             = Some "true").
Proof.
  intros method request response. subst response. unfold middleware.
  assert ((SECURITY_HEADERS ∪ ∅ : gmap string string)
          !! "Access-Control-Allow-Origin" = None) as Hnone
      by (rewrite (right_id_L ∅ (∪)); reflexivity).
  split.
  - intros origin.
    destruct (JS.startsWith (NextRequest.pathname request) "/api/");
      cbn [andb negb].
    + destruct (validateOrigin env request) eqn:Hvalid; cbn [andb negb];
        [|cbn [NextResponse.json NextResponse.headers];
          rewrite lookup_empty; discriminate].
      destruct (JS.truthy _ && existsb _ _)%bool eqn:Hcond;
        destruct (String.eqb method "OPTIONS");
        cbn [NextResponse.status NextResponse.body NextResponse.headers
             set_header NextResponse.set_all NextResponse.next];
        rewrite !lookup_insert_ne by discriminate;
        try (rewrite Hnone; discriminate).
      all: rewrite lookup_insert_eq; intros Horigin.
      all: apply andb_true_iff in Hcond as [Htruthy Hin].
      all: destruct (NextRequest.get request "origin") as [o|] eqn:Hget;
        [|discriminate].
      all: cbn [from_option id] in *; injection Horigin as <-.
      all: apply truthy_string_true in Htruthy.
      all: apply existsb_exists in Hin as (o' & Hin & Heq).
      all: apply String.eqb_eq in Heq; subst o'; now repeat split.
    + cbn [NextResponse.status NextResponse.body NextResponse.headers
           NextResponse.set_all NextResponse.next].
      rewrite Hnone. discriminate.
  - intros origin Hapi Hget Hne Hin. rewrite Hapi.
    assert (validateOrigin env request = true) as ->
        by (apply validateOrigin_spec; eauto).
    cbn [andb negb]. rewrite Hget. cbn [JS.truthy from_option id].
    apply truthy_string_true in Hne. rewrite Hne.
    assert (existsb (String.eqb origin) (allowedOrigins env) = true) as ->.
    { apply existsb_exists. exists origin. split; [assumption|].
      apply String.eqb_refl. }
    destruct (String.eqb method "OPTIONS");
      cbn [andb NextResponse.status NextResponse.body NextResponse.headers
           set_header NextResponse.set_all NextResponse.next];
      split; try (now rewrite lookup_insert_eq);
      rewrite !lookup_insert_ne by discriminate; now rewrite lookup_insert_eq.
Qed.

End GateFrame.
(** ** Authentication of a protected route *)

Section Authentication.

Context {J : Jsonwebtoken} {R : Runtime}.
Variable env : ProcessEnv.

Lemma split_app (sep : ascii) (a b : string) :
  ~ In sep (list_ascii_of_string a) ->
  JS.split sep (a +:+ String sep b) = a :: JS.split sep b.
Proof.
  induction a as [|c a IH]; intros Hsep.
  - change ("" +:+ String sep b) with (String sep b).
    cbn [JS.split]. now rewrite Ascii.eqb_refl.
  - change (String c a +:+ String sep b) with (String c (a +:+ String sep b)).
    cbn [JS.split]. destruct (Ascii.eqb c sep) eqn:Hc.
    + apply Ascii.eqb_eq in Hc. subst c. exfalso. apply Hsep. now left.
    + rewrite IH; [reflexivity|]. intros Hin. apply Hsep. now right.
Qed.

Lemma split_no_sep (sep : ascii) (s : string) :
  ~ In sep (list_ascii_of_string s) -> JS.split sep s = [s].
Proof.
  induction s as [|c s IH]; intros Hsep; [reflexivity|].
  cbn [JS.split]. destruct (Ascii.eqb c sep) eqn:Hc.
  - apply Ascii.eqb_eq in Hc. subst c. exfalso. apply Hsep. now left.
  - rewrite IH; [reflexivity|]. intros Hin. apply Hsep. now right.
Qed.


(** The verdict of [authenticateToken], read off its token. *)
Lemma authenticateToken_result now request w :
  fst (authenticateToken env now request w)
  = if negb (JS.truthy (token_of request))
    then inl (NextResponse.json [("error", "Access token required")] 401)
    else match verifyAccessToken env now (default "" (token_of request)) w with
         | inr claims => inr claims
         | inl (TokenBlacklistedError _) =>
             inl (NextResponse.json
                    [("error", "Token has been revoked. Please login again.")]
                    401)
         | inl _ =>
             inl (NextResponse.json [("error", "Invalid or expired token")] 401)
         end.
Proof.
  unfold authenticateToken. fold (token_of request).
  destruct (negb (JS.truthy (token_of request))); [reflexivity|].
  now destruct (verifyAccessToken env now _ w) as [[]|].
Qed.

Lemma truthy_Some (o : option string) :
  JS.truthy o = true <-> exists s, o = Some s /\ s <> "".
Proof.
  destruct o as [s|]; simpl.
  - rewrite truthy_string_true. split; [eauto|].
    now intros (s' & [= <-] & Hne).
  - split; [discriminate | now intros (s & H & _)].
Qed.


(** What a call of [authenticateToken] returns and writes. *)
Lemma authenticateToken_outcome :
  forall (now : Z) (request : NextRequest.t) (w : World),
    exists e : SecurityEvent,
      snd (authenticateToken env now request w)
      = with_securityLog (securityLog w ++ [e]) w
      /\ timestamp e = toISOString now
      /\ In ("endpoint", NextRequest.pathname request) (details e)
      /\ match fst (authenticateToken env now request w) with
         | inr claims =>
             event e = "authentication_successful"
             /\ In ("userId", userId claims) (details e)
             /\ exists token : string,
                  token_of request = Some token /\ token <> ""
                  /\ verifyAccessToken env now token w = inr claims
         | inl response =>
             event e = "authentication_failed"
             /\ NextResponse.status response = 401
         end.
Proof.
  intros now request w. unfold authenticateToken. fold (token_of request).
  destruct (JS.truthy (token_of request)) eqn:Htruthy; cbn [negb].
  - apply truthy_Some in Htruthy as (token & -> & Hne). cbn [from_option id].
    destruct (verifyAccessToken env now token w) as [[]|claims] eqn:Hverify;
      eexists; cbn [fst snd]; unfold logSecurityEvent;
      (split; [reflexivity|]); cbn [timestamp details event];
      (split; [reflexivity|]);
      (split; [rewrite ?in_app_iff; cbn [In]; tauto|]);
      try (split; reflexivity).
    split; [reflexivity|]. split; [now left|]. eauto.
  - eexists; cbn [fst snd]; unfold logSecurityEvent.
    split; [reflexivity|]. cbn [timestamp details event].
    split; [reflexivity|]. split; [cbn [In]; tauto|]. now split.
Qed.

(** Every call of [authenticateToken] adds exactly one event to the
    audit trail and changes nothing else.  It returns claims only for a
    token that is not empty and that [verifyAccessToken] accepts, and
    then the event is [authentication_successful]; every other answer is
    a 401 and the event is [authentication_failed]. *)
Theorem authentication_adds_one_event_to_the_log :
  forall (now : Z) (request : NextRequest.t) (w : World),
    let w' := snd (authenticateToken env now request w) in
    exists e : SecurityEvent,
      securityLog w' = (securityLog w ++ [e])%list
      /\ revocations w' = revocations w
      /\ rateLimitCache w' = rateLimitCache w
      /\ timestamp e = toISOString now
      /\ In ("endpoint", NextRequest.pathname request) (details e)
      /\ match fst (authenticateToken env now request w) with
         | inr claims =>
             event e = "authentication_successful"
             /\ In ("userId", userId claims) (details e)
             /\ exists token : string,
                  token_of request = Some token /\ token <> ""
                  /\ verifyAccessToken env now token w = inr claims
         | inl response =>
             event e = "authentication_failed"
             /\ NextResponse.status response = 401
         end.
Proof.
  intros now request w w'. subst w'.
  destruct (authenticateToken_outcome now request w)
    as (e & Hworld & Htime & Hendpoint & Hresult).
  exists e. rewrite Hworld. cbn [with_securityLog securityLog].
  split; [reflexivity|]. split; [reflexivity|]. split; [reflexivity|].
  split; [exact Htime|]. split; [exact Hendpoint|]. exact Hresult.
Qed.

(** The export of a protected route runs its handler only for a request
    whose origin passes and whose token is verified, and hands it the
    verified claims as [request.user]; any other request is answered
    403 or 401 whatever the handler is.  Either way, nothing but the
    audit trail has changed when the handler starts or the answer is
    given: the export does not call the rate limiter. *)
Theorem protected_route_runs_its_handler_only_for_a_verified_token :
  forall (C : Type) (handler : NextRequest.t -> C -> Js NextResponse.t)
         (now : Z) (request : NextRequest.t) (context : C) (w : World),
    (exists (token : string) (claims : Payload) (w1 : World),
        validateOrigin env request = true
        /\ token_of request = Some token /\ token <> ""
        /\ verifyAccessToken env now token w = inr claims
        /\ GET env handler now request context w
           = handler (NextRequest.set_user request claims) context w1
        /\ rateLimitCache w1 = rateLimitCache w
        /\ revocations w1 = revocations w)
    \/ (exists (response : NextResponse.t) (w' : World),
          (NextResponse.status response = 403
           \/ NextResponse.status response = 401)
          /\ rateLimitCache w' = rateLimitCache w
          /\ revocations w' = revocations w
          /\ forall handler' : NextRequest.t -> C -> Js NextResponse.t,
               GET env handler' now request context w = (inr response, w')).
Proof.
  intros C handler now request context w. unfold GET, securityMiddleware.
  destruct (validateOrigin env request) eqn:Hvalid; cbn [negb];
    [|right; exists (NextResponse.json [("error", "Invalid origin")] 403), w;
      repeat split; now left].
  cbn [NextResponse.set_all NextResponse.next NextResponse.status].
  cbn [Z.eqb Pos.eqb negb].
  destruct (authenticateToken_outcome now request w)
    as (e & Hw1 & _ & _ & Hresult).
  pose proof (authenticateToken_result now request w) as Hfst.
  destruct (authenticateToken env now request w) as [[response|claims] w1];
    cbn [fst snd] in *; subst w1.
  - right. exists response, (with_securityLog (securityLog w ++ [e]) w).
    repeat split. right.
    destruct (negb (JS.truthy (token_of request))); [now injection Hfst as ->|].
    destruct (verifyAccessToken env now _ w) as [[]|]; try discriminate;
      now injection Hfst as ->.
  - left. destruct Hresult as (_ & _ & token & Htoken & Hne & Hverify).
    exists token, claims, (with_securityLog (securityLog w ++ [e]) w).
    now repeat split.
Qed.

(** [withAuth] runs its handler only behind both checks: the
    Authorization header starts with Bearer and a space, the rate
    limiter lets the request through, and the token is verified; the
    handler then gets the verified claims as [request.user].  Any other
    request is answered 401 or 429 whatever the handler is. *)
Theorem withAuth_runs_its_handler_only_behind_both_checks :
  forall (C : Type) (handler : NextRequest.t -> C -> Js NextResponse.t)
         (now : Z) (request : NextRequest.t) (context : C) (w : World),
    let type :=
      if isAuthEndpoint (NextRequest.pathname request) then auth else api in
    (exists (header token : string) (claims : Payload) (w1 : World),
        NextRequest.get request "authorization" = Some header
        /\ JS.startsWith header "Bearer " = true
        /\ success (fst (rateLimit now request type w)) = true
        /\ token_of request = Some token /\ token <> ""
        /\ verifyAccessToken env now token w = inr claims
        /\ withAuth env handler now request context w
           = handler (NextRequest.set_user request claims) context w1
        /\ rateLimitCache w1 = rateLimitCache (snd (rateLimit now request type w))
        /\ revocations w1 = revocations w)
    \/ (exists (response : NextResponse.t) (w' : World),
          (NextResponse.status response = 401
           \/ NextResponse.status response = 429)
          /\ forall handler' : NextRequest.t -> C -> Js NextResponse.t,
               withAuth env handler' now request context w = (inr response, w')).
Proof.
  intros C handler now request context w type.
  unfold withAuth, authMiddleware. fold type.
  destruct (NextRequest.get request "authorization") as [header|] eqn:Hget;
    cbn [JS.truthy from_option id negb orb];
    [|right; do 2 eexists; (split; [|intros; reflexivity]); now left].
  destruct (JS.truthy_string header); cbn [negb orb];
    [|right; do 2 eexists; (split; [|intros; reflexivity]); now left].
  destruct (JS.startsWith header "Bearer ") eqn:Hbearer; cbn [negb];
    [|right; do 2 eexists; (split; [|intros; reflexivity]); now left].
  pose proof (revocations_rateLimit now request type w) as Hrev.
  destruct (rateLimit now request type w) as [result w1]. cbn [fst snd] in *.
  destruct (success result); cbn [negb];
    [|right; do 2 eexists; (split; [|intros; reflexivity]); now right].
  cbn [NextResponse.next NextResponse.status Z.eqb Pos.eqb negb].
  destruct (authenticateToken_outcome now request w1)
    as (e & Hw2 & _ & _ & Hresult).
  pose proof (authenticateToken_result now request w1) as Hfst.
  destruct (authenticateToken env now request w1) as [[response|claims] w2];
    cbn [fst snd] in *; subst w2.
  - right. exists response, (with_securityLog (securityLog w1 ++ [e]) w1).
    split; [|reflexivity]. left.
    destruct (negb (JS.truthy (token_of request))); [now injection Hfst as ->|].
    destruct (verifyAccessToken env now _ w1) as [[]|]; try discriminate;
      now injection Hfst as ->.
  - left. destruct Hresult as (_ & _ & token & Htoken & Hne & Hverify).
    exists header, token, claims, (with_securityLog (securityLog w1 ++ [e]) w1).
    repeat split; try assumption.
    now rewrite <- (verifyAccessToken_ext env now token w1 w Hrev).
Qed.

End Authentication.
(** ** The refresh and login entry points *)

Section EntryPoints.

Context {J : Jsonwebtoken} {L : JsonwebtokenLaws J} {R : Runtime}
        {U : UserService}.
Variable env : ProcessEnv.

(** Unfolds the refresh handler down to the calls it makes. *)
Ltac open_refresh :=
  unfold GETHandler, verify_or_respond, try_catch, bind, ret, throw,
    total, writes, reads, pure, securityMiddleware.

(** What a pair issued by [generateTokenPair] verifies to. *)
Lemma generateTokenPair_verdicts now draw uid em accessToken refreshToken :
  generateTokenPair env now draw uid em = inr (accessToken, refreshToken) ->
  (forall (span now' : Z) (w : World),
      timespan (JS.or_default (JWT_EXPIRES_IN env) "15m") = Some span ->
      isTokenBlacklisted now' accessToken w = false ->
      verifyAccessToken env now' accessToken w
      = if now / 1000 + span <=? now' / 1000
        then inl (TokenExpiredError "jwt expired")
        else inr (stamp (JWTPayload uid em) (now / 1000) (now / 1000 + span)))
  /\ (forall (span now' : Z) (w : World),
        timespan (JS.or_default (JWT_REFRESH_EXPIRES_IN env) "7d") = Some span ->
        isRefreshTokenBlacklisted now' refreshToken w = false ->
        verifyRefreshToken env now' refreshToken w
        = if now / 1000 + span <=? now' / 1000
          then inl (TokenExpiredError "jwt expired")
          else inr (stamp (RefreshTokenPayload uid draw) (now / 1000)
                      (now / 1000 + span))).
Proof.
  intros Hpair. apply generateTokenPair_inv in Hpair as [Hissue_a Hissue_r].
  split; intros span now' w Hspan Hfree.
  - unfold generateAccessToken in Hissue_a. unfold verifyAccessToken.
    destruct (JWT_SECRET env) as [secret|]; [|discriminate].
    destruct (JS.truthy_string secret); [|discriminate].
    unfold isTokenBlacklisted in Hfree. rewrite Hfree.
    now apply (jwt_verdict _ _ _ _ _ _ Hissue_a).
  - unfold generateRefreshToken in Hissue_r. unfold verifyRefreshToken.
    destruct (JWT_REFRESH_SECRET env) as [secret|]; [|discriminate].
    destruct (JS.truthy_string secret); [|discriminate].
    unfold isRefreshTokenBlacklisted in Hfree. rewrite Hfree.
    now apply (jwt_verdict _ _ _ _ _ _ Hissue_r).
Qed.

(** The refresh entry point never throws: it answers 200, 401, 403, 429
    or 500.  It answers 403 exactly when the origin is refused, and then
    the state is left as it was; every other request has charged the
    auth rate window once and added exactly one event to the audit
    trail, whatever the answer. *)
Theorem refresh_always_answers :
  forall (now : Z) (draw : string) (request : NextRequest.t) (w : World),
    exists response : NextResponse.t,
      fst (GETHandler env now draw request w) = inr response
      /\ In (NextResponse.status response) [200; 401; 403; 429; 500]
      /\ (NextResponse.status response = 403
          <-> validateOrigin env request = false)
      /\ (validateOrigin env request = false ->
          snd (GETHandler env now draw request w) = w)
      /\ (validateOrigin env request = true ->
          rateLimitCache (snd (GETHandler env now draw request w))
          = rateLimitCache (snd (rateLimit now request auth w))
          /\ exists e : SecurityEvent,
               securityLog (snd (GETHandler env now draw request w))
               = (securityLog w ++ [e])%list
               /\ timestamp e = toISOString now).
Proof.
  intros now draw request w.
  destruct (rateLimit_touches_only_the_rate_cache now request auth w)
    as (_ & _ & Hlog).
  open_refresh.
  destruct (validateOrigin env request); simpl.
  2:{ eexists. split; [reflexivity|]. simpl. intuition congruence. }
  destruct (rateLimit now request auth w) as [result w1]. simpl in *.
  assert (forall (response : NextResponse.t) (w2 : World) (e : SecurityEvent),
            In (NextResponse.status response) [200; 401; 429; 500] ->
            rateLimitCache w2 = rateLimitCache w1 ->
            securityLog w2 = (securityLog w1 ++ [e])%list ->
            timestamp e = toISOString now ->
            exists response' : NextResponse.t,
              (inr response : Exn + NextResponse.t) = inr response'
              /\ In (NextResponse.status response') [200; 401; 403; 429; 500]
              /\ (NextResponse.status response' = 403 <-> true = false)
              /\ (true = false -> w2 = w)
              /\ (true = true ->
                  rateLimitCache w2 = rateLimitCache w1
                  /\ exists e' : SecurityEvent,
                       securityLog w2 = (securityLog w ++ [e'])%list
                       /\ timestamp e' = toISOString now)) as Hanswer.
  { intros response w2 e Hstatus Hcache Hevent Htime. exists response.
    split; [reflexivity|]. repeat split; try discriminate; try assumption.
    - simpl in *. intuition.
    - intros H403. rewrite H403 in Hstatus. simpl in Hstatus.
      intuition discriminate.
    - exists e. now rewrite Hevent, Hlog. }
  destruct (success result); simpl;
    [|eapply Hanswer; try reflexivity; simpl; tauto].
  destruct (NextRequest.get request "x-refresh-token") as [token|]; simpl;
    [|eapply Hanswer; try reflexivity; simpl; tauto].
  destruct (JS.truthy_string token); simpl;
    [|eapply Hanswer; try reflexivity; simpl; tauto].
  destruct (verifyRefreshToken env now token w1) as [[]|claims]; simpl;
    try (eapply Hanswer; try reflexivity; simpl; tauto).
  destruct (findUserById (userId claims)) as [e|[doc|]]; simpl;
    try (eapply Hanswer; try reflexivity; simpl; tauto).
  destruct (generateTokenPair env now draw (userId claims) (user_email doc));
    simpl; [eapply Hanswer; try reflexivity; simpl; tauto|].
  destruct (result_headers result); simpl;
    eapply Hanswer; try reflexivity; simpl; tauto.
Qed.

(** A successful refresh answers with a pair made for the user the
    store holds under the id of the submitted token: the new access
    token verifies to that id and the email of the stored document, the
    new refresh token to that id and the random token id, each until its
    expiry and while it is outside its revocation set. *)
Theorem refreshed_pair_is_issued_to_the_stored_user :
  forall (now : Z) (draw : string) (request : NextRequest.t) (w w' : World)
         (response : NextResponse.t),
    GETHandler env now draw request w = (inr response, w') ->
    NextResponse.status response = 200 ->
    exists (token : string) (claims : Payload) (doc : IUserResponse)
           (accessToken refreshToken : string),
      NextRequest.get request "x-refresh-token" = Some token
      /\ verifyRefreshToken env now token w = inr claims
      /\ findUserById (userId claims) = inr (Some doc)
      /\ NextResponse.body response
         = [("accessToken", accessToken); ("refreshToken", refreshToken)]
      /\ (forall (span now' : Z) (w0 : World),
            timespan (JS.or_default (JWT_EXPIRES_IN env) "15m") = Some span ->
            isTokenBlacklisted now' accessToken w0 = false ->
            now' / 1000 < now / 1000 + span ->
            verifyAccessToken env now' accessToken w0
            = inr (stamp (JWTPayload (userId claims) (user_email doc))
                     (now / 1000) (now / 1000 + span)))
      /\ (forall (span now' : Z) (w0 : World),
            timespan (JS.or_default (JWT_REFRESH_EXPIRES_IN env) "7d")
            = Some span ->
            isRefreshTokenBlacklisted now' refreshToken w0 = false ->
            now' / 1000 < now / 1000 + span ->
            verifyRefreshToken env now' refreshToken w0
            = inr (stamp (RefreshTokenPayload (userId claims) draw)
                     (now / 1000) (now / 1000 + span))).
Proof.
  intros now draw request w w' response Hrun Hstatus.
  destruct (GETHandler_success env now draw request w response w' Hrun Hstatus)
    as (token & claims & doc & accessToken & refreshToken & _ & _ & Hget & _
        & Hverify & Hfind & Hpair & Hbody & _).
  exists token, claims, doc, accessToken, refreshToken.
  destruct (generateTokenPair_verdicts _ _ _ _ _ _ Hpair) as [Ha Hr].
  repeat split; try assumption.
  - intros span now' w0 Hspan Hfree Hlive.
    rewrite (Ha span now' w0 Hspan Hfree).
    destruct (now / 1000 + span <=? now' / 1000) eqn:Hexp; [|reflexivity].
    apply Z.leb_le in Hexp. lia.
  - intros span now' w0 Hspan Hfree Hlive.
    rewrite (Hr span now' w0 Hspan Hfree).
    destruct (now / 1000 + span <=? now' / 1000) eqn:Hexp; [|reflexivity].
    apply Z.leb_le in Hexp. lia.
Qed.

(** Settles the answer on one path of the login handler. *)
Ltac answered :=
  eexists; (split; [reflexivity|]); simpl; repeat split; intros;
  try discriminate; try assumption; try reflexivity; tauto.

(** Unfolds the login handler down to the calls it makes. *)
Ltac open_login :=
  unfold POST, try_catch, bind, ret, throw, total, writes, reads, pure,
    securityMiddleware.

(** The login entry point never throws: it answers 200, 400, 401, 403,
    429 or 500, and 403 exactly when the origin is refused, leaving the
    state as it was.  Every other attempt, successful or not, has
    charged the auth rate window once. *)
Theorem login_always_answers :
  forall (Body : Type) (S : LoginServices Body) (now : Z) (draw : string)
         (request : NextRequest.t) (body : Exn + Body) (w : World),
    exists response : NextResponse.t,
      fst (POST env now draw request body w) = inr response
      /\ In (NextResponse.status response) [200; 400; 401; 403; 429; 500]
      /\ (NextResponse.status response = 403
          <-> validateOrigin env request = false)
      /\ (validateOrigin env request = false ->
          snd (POST env now draw request body w) = w)
      /\ (validateOrigin env request = true ->
          rateLimitCache (snd (POST env now draw request body w))
          = rateLimitCache (snd (rateLimit now request auth w))).
Proof.
  intros Body S now draw request body w. open_login.
  destruct (validateOrigin env request); simpl.
  2:{ eexists. split; [reflexivity|]. simpl. intuition congruence. }
  destruct (rateLimit now request auth w) as [result w1]. simpl in *.
  destruct (success result); simpl; [|answered].
  destruct body as [e|body]; simpl; [answered|].
  destruct (loginSchema_parse body) as [errors|[email password]]; simpl;
    [answered|].
  destruct (findUserByEmail email) as [e|[user|]]; simpl; try answered.
  destruct (verifyPassword user password) as [e|[]]; simpl; try answered.
  destruct (IUser._id user) as [id|]; simpl; [|answered].
  destruct (generateTokenPair env now draw id (IUser.email user)); simpl;
    [answered|].
  destruct (result_headers result); simpl; answered.
Qed.

(** The login entry point gives the same answer to an unknown email and
    to a wrong password: the same 401, body and headers, so that the
    answer does not tell whether an account exists. *)
Theorem login_answers_alike_for_unknown_user_and_wrong_password :
  forall (Body : Type) (S : LoginServices Body) (now : Z) (draw draw' : string)
         (request : NextRequest.t) (body body' : Body)
         (email password email' password' : string) (user : IUser.t)
         (w : World),
    loginSchema_parse body = inr (email, password) ->
    findUserByEmail email = inr None ->
    loginSchema_parse body' = inr (email', password') ->
    findUserByEmail email' = inr (Some user) ->
    verifyPassword user password' = inr false ->
    fst (POST env now draw request (inr body) w)
    = fst (POST env now draw' request (inr body') w).
Proof.
  intros Body S now draw draw' request body body' email password email'
    password' user w Hparse Hfind Hparse' Hfind' Hverify.
  open_login.
  destruct (validateOrigin env request); simpl; [|reflexivity].
  destruct (rateLimit now request auth w) as [result w1]. simpl.
  destruct (success result); simpl; [|reflexivity].
  rewrite Hparse, Hparse'. simpl. rewrite Hfind, Hfind'. simpl.
  now rewrite Hverify.
Qed.

(** Once the auth rate window of a client is used up, the login entry
    point answers 429 without reading the body or calling the user
    store: the outcome is the same for every body and every store. *)
Theorem exhausted_login_quota_is_answered_before_the_credentials :
  forall (now : Z) (request : NextRequest.t) (w : World),
    validateOrigin env request = true ->
    success (fst (rateLimit now request auth w)) = false ->
    exists (response : NextResponse.t) (w' : World),
      NextResponse.status response = 429
      /\ forall (Body : Type) (S : LoginServices Body) (draw : string)
                (body : Exn + Body),
           POST env now draw request body w = (inr response, w').
Proof.
  intros now request w Hvalid Hdenied. open_login. rewrite Hvalid. simpl.
  destruct (rateLimit now request auth w) as [result w1]. simpl in *.
  rewrite Hdenied. simpl. do 2 eexists. split; [|intros; reflexivity].
  reflexivity.
Qed.

(** The login entry point answers 200 only when the body passed the
    schema, the store holds a user under the validated email and the
    password was verified against that user; the pair in the answer was
    made for that user, and its access token verifies to the user's id
    and email until its expiry, while it is outside the revocation
    set. *)
Theorem login_succeeds_only_with_a_verified_password :
  forall (Body : Type) (S : LoginServices Body) (now : Z) (draw : string)
         (request : NextRequest.t) (body : Exn + Body) (w w' : World)
         (response : NextResponse.t),
    POST env now draw request body w = (inr response, w') ->
    NextResponse.status response = 200 ->
    exists (parsed : Body) (email password id accessToken refreshToken : string)
           (user : IUser.t),
      body = inr parsed
      /\ loginSchema_parse parsed = inr (email, password)
      /\ findUserByEmail email = inr (Some user)
      /\ verifyPassword user password = inr true
      /\ IUser._id user = Some id
      /\ NextResponse.body response
         = [ ("message", "Login successful");
             ("user", userWithoutPassword user);
             ("accessToken", accessToken);
             ("refreshToken", refreshToken) ]
      /\ (forall (span now' : Z) (w0 : World),
            timespan (JS.or_default (JWT_EXPIRES_IN env) "15m") = Some span ->
            isTokenBlacklisted now' accessToken w0 = false ->
            now' / 1000 < now / 1000 + span ->
            verifyAccessToken env now' accessToken w0
            = inr (stamp (JWTPayload id (IUser.email user))
                     (now / 1000) (now / 1000 + span))).
Proof.
  intros Body S now draw request body w w' response. open_login.
  destruct (validateOrigin env request); simpl;
    [|intros [= <- <-]; discriminate].
  destruct (rateLimit now request auth w) as [result w1]. simpl.
  destruct (success result); simpl; [|intros [= <- <-]; discriminate].
  destruct body as [e|parsed]; simpl; [intros [= <- <-]; discriminate|].
  destruct (loginSchema_parse parsed) as [errors|[email password]] eqn:Hparse;
    simpl; [intros [= <- <-]; discriminate|].
  destruct (findUserByEmail email) as [e|[user|]] eqn:Hfind; simpl;
    try (intros [= <- <-]; discriminate).
  destruct (verifyPassword user password) as [e|[]] eqn:Hverify; simpl;
    try (intros [= <- <-]; discriminate).
  destruct (IUser._id user) as [id|] eqn:Hid; simpl;
    [|intros [= <- <-]; discriminate].
  destruct (generateTokenPair env now draw id (IUser.email user))
    as [e|[accessToken refreshToken]] eqn:Hpair; simpl;
    [intros [= <- <-]; discriminate|].
  intros [= <- <-] _.
  exists parsed, email, password, id, accessToken, refreshToken, user.
  destruct (generateTokenPair_verdicts _ _ _ _ _ _ Hpair) as [Ha _].
  repeat split; try assumption; try reflexivity.
  - now destruct (result_headers result).
  - intros span now' w0 Hspan Hfree Hlive.
    rewrite (Ha span now' w0 Hspan Hfree).
    destruct (now / 1000 + span <=? now' / 1000) eqn:Hexp; [|reflexivity].
    apply Z.leb_le in Hexp. lia.
Qed.

End EntryPoints.
(** ** The validation helpers and the client address *)

Section Helpers.

Lemma test_exists (cls : ascii -> bool) (s : string) :
  Regex.test cls s = true
  <-> exists c : ascii, In c (list_ascii_of_string s) /\ cls c = true.
Proof.
  induction s as [|c s IH]; simpl.
  - split; [discriminate | now intros (c & [] & _)].
  - rewrite orb_true_iff, IH. split.
    + intros [Hc | (c' & Hin & Hc')]; eauto.
    + intros (c' & [<- | Hin] & Hc'); eauto.
Qed.

(** [validatePassword] accepts exactly the passwords of at least eight
    characters that hold an upper-case letter, a lower-case letter, a
    digit and a special character; it reports one error for each rule
    that fails, and accepts exactly when it reports none. *)
Theorem validatePassword_accepts_exactly_the_strong_passwords :
  forall password : string,
    let result := validatePassword password in
    let holds (cls : ascii -> bool) :=
      exists c : ascii, In c (list_ascii_of_string password) /\ cls c = true in
    (valid result = true
     <-> (8 <= String.length password)%nat
         /\ holds Regex.is_upper /\ holds Regex.is_lower
         /\ holds Regex.is_digit /\ holds Regex.is_special)
    /\ (valid result = true <-> errors result = [])
    /\ length (errors result)
       = ((if Nat.ltb (String.length password) 8 then 1 else 0)
          + (if Regex.test Regex.is_upper password then 0 else 1)
          + (if Regex.test Regex.is_lower password then 0 else 1)
          + (if Regex.test Regex.is_digit password then 0 else 1)
          + (if Regex.test Regex.is_special password then 0 else 1))%nat.
Proof.
  intros password result holds. subst result holds. cbv beta.
  rewrite <- !test_exists. unfold validatePassword.
  destruct (Nat.ltb (String.length password) 8) eqn:Hlen;
    [apply Nat.ltb_lt in Hlen | apply Nat.ltb_ge in Hlen];
    destruct (Regex.test Regex.is_upper password);
    destruct (Regex.test Regex.is_lower password);
    destruct (Regex.test Regex.is_digit password);
    destruct (Regex.test Regex.is_special password);
    simpl; repeat split; intros; try discriminate; try tauto; try lia;
    intuition (try discriminate; try lia).
Qed.

Lemma concat_empty_cons (x : string) (l : list string) :
  String.concat "" (x :: l) = x +:+ String.concat "" l.
Proof.
  destruct l as [|y l]; simpl; [|reflexivity].
  symmetry. apply ReferenceFacts.append_nil_r.
Qed.

Lemma padded_byte (b : Byte.byte) :
  exists hi lo : ascii,
    padStart 2 "0" (byte_toString16 b) = String hi (String lo "")
    /\ forall rest : string,
         parse_hex (String hi (String lo rest))
         = match parse_hex rest with
           | Some bytes => Some (b :: bytes)
           | None => None
           end.
Proof.
  destruct b; do 2 eexists; (split; [reflexivity|]); intros rest; simpl;
    now destruct (parse_hex rest).
Qed.

(** The token made from an array of random bytes holds two lower-case
    hexadecimal digits per byte, from which the bytes can be read back:
    arrays that differ give tokens that differ. *)
Theorem secure_token_spells_its_bytes :
  forall array : list Byte.byte,
    String.length (generateSecureToken array) = (2 * length array)%nat
    /\ parse_hex (generateSecureToken array) = Some array
    /\ forall array' : list Byte.byte,
         generateSecureToken array' = generateSecureToken array ->
         array' = array.
Proof.
  assert (forall array : list Byte.byte,
            String.length (generateSecureToken array) = (2 * length array)%nat
            /\ parse_hex (generateSecureToken array) = Some array) as Hround.
  { unfold generateSecureToken.
    induction array as [|b array [IHlen IHparse]]; [now split|].
    cbn [map]. rewrite concat_empty_cons.
    destruct (padded_byte b) as (hi & lo & -> & Hparse).
    change (String hi (String lo "") +:+ ?r) with (String hi (String lo r)).
    split.
    - cbn [String.length length]. rewrite IHlen. simpl. lia.
    - now rewrite Hparse, IHparse. }
  intros array. destruct (Hround array) as [Hlen Hparse].
  repeat split; try assumption.
  intros array' Heq. destruct (Hround array') as [_ Hparse'].
  rewrite Heq in Hparse'. congruence.
Qed.

(** The client address is read in the headers the client sends: the
    text before the first comma of a non-empty x-forwarded-for, trimmed,
    whatever the other headers say; without one, x-real-ip, then
    cf-connecting-ip, then the word unknown.  The rate window of a
    request is the one of that address. *)
Theorem client_address_is_the_first_forwarded_hop :
  forall (request : NextRequest.t),
    (forall first rest : string,
        NextRequest.get request "x-forwarded-for"
        = Some (first +:+ String "," rest) ->
        ~ In ","%char (list_ascii_of_string first) ->
        getClientIP request = JS.trim first)
    /\ (forall only : string,
          NextRequest.get request "x-forwarded-for" = Some only ->
          only <> "" ->
          ~ In ","%char (list_ascii_of_string only) ->
          getClientIP request = JS.trim only)
    /\ (JS.truthy (NextRequest.get request "x-forwarded-for") = false ->
        getClientIP request
        = JS.or_default (NextRequest.get request "x-real-ip")
            (JS.or_default (NextRequest.get request "cf-connecting-ip")
               "unknown"))
    /\ (forall (request' : NextRequest.t) (type : RateLimitType),
          getClientIP request' = getClientIP request ->
          rateLimitKey request' type = rateLimitKey request type).
Proof.
  intros request. repeat split.
  1-3: unfold getClientIP.
  - intros first rest Hget Hcomma. rewrite Hget.
    assert (JS.truthy (Some (first +:+ String "," rest)) = true) as ->
        by now destruct first.
    cbn [from_option id]. now rewrite split_app.
  - intros only Hget Hne Hcomma. rewrite Hget.
    apply truthy_string_true in Hne. cbn [JS.truthy]. rewrite Hne.
    cbn [from_option id]. now rewrite split_no_sep.
  - intros ->. unfold JS.or_default.
    destruct (NextRequest.get request "x-real-ip") as [realIP|]; simpl.
    + destruct (JS.truthy_string realIP); [reflexivity|].
      destruct (NextRequest.get request "cf-connecting-ip") as [cf|]; simpl;
        [|reflexivity].
      now destruct (JS.truthy_string cf).
    + destruct (NextRequest.get request "cf-connecting-ip") as [cf|]; simpl;
        [|reflexivity].
      now destruct (JS.truthy_string cf).
  - intros request' type Heq. unfold rateLimitKey. now rewrite Heq.
Qed.

End Helpers.
(** ** [sanitizeInput] *)

Section Sanitize.

Implicit Types (s : string) (cls : ascii -> bool).

Lemma trim_start_sublist s :
  list_ascii_of_string (JS.trim_start s) `sublist_of` list_ascii_of_string s.
Proof.
  induction s as [|c s IH]; simpl; [constructor|].
  destruct (JS.is_space c); [now apply sublist_cons | reflexivity].
Qed.

Lemma trim_end_sublist s :
  list_ascii_of_string (JS.trim_end s) `sublist_of` list_ascii_of_string s.
Proof.
  induction s as [|c s IH]; simpl; [constructor|].
  destruct (JS.trim_end s) as [|c' r].
  - destruct (JS.is_space c); simpl.
    + apply sublist_nil_l.
    + apply sublist_skip, sublist_nil_l.
  - simpl in *. now apply sublist_skip.
Qed.

Lemma remove_class_sublist cls s :
  list_ascii_of_string (Regex.remove_class cls s)
  `sublist_of` list_ascii_of_string s.
Proof.
  induction s as [|c s IH]; simpl; [constructor|].
  destruct (cls c); simpl; [now apply sublist_cons | now apply sublist_skip].
Qed.

Lemma remove_matches_sublist (matcher : string -> option nat) s :
  forall skip : nat,
    list_ascii_of_string (Regex.remove_matches matcher skip s)
    `sublist_of` list_ascii_of_string s.
Proof.
  induction s as [|c s IH]; intros skip; [constructor|].
  cbn [Regex.remove_matches list_ascii_of_string].
  destruct skip as [|k]; [|apply sublist_cons, IH].
  destruct (matcher (String c s)) as [[|k]|]; cbn [list_ascii_of_string];
    first [apply sublist_skip, IH | apply sublist_cons, IH].
Qed.

Lemma test_sublist cls s s' :
  list_ascii_of_string s' `sublist_of` list_ascii_of_string s ->
  Regex.test cls s = false -> Regex.test cls s' = false.
Proof.
  intros Hsub Hnone.
  destruct (Regex.test cls s') eqn:Hsome; [|reflexivity].
  apply test_exists in Hsome as (c & Hin & Hc).
  assert (Regex.test cls s = true) as Hs; [|congruence].
  apply test_exists. exists c. split; [|assumption].
  apply list_elem_of_In. eapply elem_of_sublist; [|eassumption].
  now apply list_elem_of_In.
Qed.

Lemma test_remove_class cls s :
  Regex.test cls (Regex.remove_class cls s) = false.
Proof.
  induction s as [|c s IH]; simpl; [reflexivity|].
  destruct (cls c) eqn:Hc; simpl; [assumption | now rewrite Hc].
Qed.

Lemma remove_class_none cls s :
  Regex.test cls s = false -> Regex.remove_class cls s = s.
Proof.
  induction s as [|c s IH]; simpl; [reflexivity|].
  intros Hnone. apply orb_false_iff in Hnone as [-> Hrest].
  now rewrite IH.
Qed.

Lemma remove_matches_none (matcher : string -> option nat) (mark : ascii) s :
  (forall (t : string) (n : nat),
      matcher t = Some n -> In mark (list_ascii_of_string t)) ->
  ~ In mark (list_ascii_of_string s) ->
  Regex.remove_matches matcher 0 s = s.
Proof.
  intros Hmark. induction s as [|c s IH]; intros Hnone; [reflexivity|].
  cbn [Regex.remove_matches].
  destruct (matcher (String c s)) as [n|] eqn:Hmatch.
  - exfalso. apply Hnone. eapply Hmark. eassumption.
  - rewrite IH; [reflexivity|]. intros Hin. apply Hnone. now right.
Qed.

Lemma lower_colon (c : ascii) : Regex.lower c = ":"%char -> c = ":"%char.
Proof.
  destruct c as [[] [] [] [] [] [] [] []]; vm_compute; intros H;
    first [reflexivity | discriminate H].
Qed.

Lemma literal_i_In (pattern : string) (p : ascii) s :
  Regex.literal_i pattern s = true ->
  In p (list_ascii_of_string pattern) ->
  exists c : ascii, In c (list_ascii_of_string s) /\ Regex.lower c = p.
Proof.
  revert s. induction pattern as [|q pattern IH]; intros s Hlit Hin;
    [destruct Hin|].
  destruct s as [|c s]; [discriminate|].
  cbn [Regex.literal_i] in Hlit. apply andb_true_iff in Hlit as [Hq Hrest].
  apply Ascii.eqb_eq in Hq. destruct Hin as [<- | Hin].
  - exists c. split; [now left | assumption].
  - destruct (IH s Hrest Hin) as (c' & Hc' & Hlower).
    exists c'. split; [now right | assumption].
Qed.

Lemma match_javascript_colon (t : string) (n : nat) :
  Regex.match_javascript t = Some n -> In ":"%char (list_ascii_of_string t).
Proof.
  unfold Regex.match_javascript.
  destruct (Regex.literal_i "javascript:" t) eqn:Hlit; [|discriminate].
  intros _.
  destruct (literal_i_In "javascript:" ":" t Hlit) as (c & Hin & Hlower).
  - simpl. tauto.
  - apply lower_colon in Hlower. now subst c.
Qed.

Lemma get_In (n : nat) s (c : ascii) :
  String.get n s = Some c -> In c (list_ascii_of_string s).
Proof.
  revert n. induction s as [|c' s IH]; intros n; [discriminate|].
  destruct n as [|n]; simpl.
  - intros [= <-]. now left.
  - intros Hget. right. eapply IH. eassumption.
Qed.

Lemma match_handler_equals (t : string) (n : nat) :
  Regex.match_handler t = Some n -> In "="%char (list_ascii_of_string t).
Proof.
  unfold Regex.match_handler.
  destruct t as [|o [|n' rest]]; try discriminate.
  destruct (Ascii.eqb (Regex.lower o) "o" && Ascii.eqb (Regex.lower n') "n")%bool;
    [|discriminate].
  destruct (String.get (Regex.run Regex.is_word rest) rest) as [c|] eqn:Hget;
    [|now rewrite andb_false_r].
  destruct (Ascii.eqb c "=") eqn:Hc; [|now rewrite andb_false_r].
  intros _. apply Ascii.eqb_eq in Hc. subst c.
  right. right. eapply get_In. eassumption.
Qed.

Lemma length_list_ascii (s : string) :
  length (list_ascii_of_string s) = String.length s.
Proof. induction s; simpl; congruence. Qed.

(** [sanitizeInput] only deletes: its result is the input with some
    characters left out, in the same order, and holds neither [<] nor
    [>].  An input whose trimmed text holds none of [<], [>], [:] and
    [=] comes back trimmed and otherwise unchanged. *)
Theorem sanitizeInput_only_deletes :
  forall input : string,
    list_ascii_of_string (sanitizeInput input)
    `sublist_of` list_ascii_of_string input
    /\ (String.length (sanitizeInput input) <= String.length input)%nat
    /\ Regex.test Regex.is_angle (sanitizeInput input) = false
    /\ ((forall c : ascii,
            In c (list_ascii_of_string (JS.trim input)) ->
            ~ In c (list_ascii_of_string "<>:=")) ->
        sanitizeInput input = JS.trim input).
Proof.
  intros input.
  assert (list_ascii_of_string (sanitizeInput input)
          `sublist_of` list_ascii_of_string input) as Hsub.
  { unfold sanitizeInput, JS.trim.
    etransitivity; [apply remove_matches_sublist|].
    etransitivity; [apply remove_matches_sublist|].
    etransitivity; [apply remove_class_sublist|].
    etransitivity; [apply trim_end_sublist | apply trim_start_sublist]. }
  split; [exact Hsub|]. split; [|split].
  - rewrite <- !length_list_ascii. now apply sublist_length.
  - unfold sanitizeInput.
    eapply test_sublist; [apply remove_matches_sublist|].
    eapply test_sublist; [apply remove_matches_sublist|].
    apply test_remove_class.
  - intros Hplain. unfold sanitizeInput.
    assert (forall c : ascii,
              In c (list_ascii_of_string "<>:=") ->
              ~ In c (list_ascii_of_string (JS.trim input))) as Hnone
        by (intros c Hc Hin; exact (Hplain c Hin Hc)).
    rewrite remove_class_none.
    + rewrite (remove_matches_none _ ":" _ match_javascript_colon)
        by (apply Hnone; simpl; tauto).
      apply (remove_matches_none _ "=" _ match_handler_equals).
      apply Hnone. simpl. tauto.
    + destruct (Regex.test Regex.is_angle (JS.trim input)) eqn:Hangle;
        [|reflexivity].
      apply test_exists in Hangle as (c & Hin & Hc). exfalso.
      apply (Hplain c Hin). unfold Regex.is_angle in Hc.
      apply orb_true_iff in Hc as [Hc | Hc]; apply Ascii.eqb_eq in Hc;
        subst c; simpl; tauto.
Qed.

End Sanitize.
(** ** Eviction from a full revocation set *)

Section Eviction.

Context {V : Type}.
Implicit Types (c : LRU.t V) (e : LRU.Entry V) (k : string) (v : V)
  (l : list (LRU.Entry V)).

Lemma lru_remove_absent k l :
  ~ In k (map LRU.ekey l) -> LRU.remove k l = l.
Proof.
  induction l as [|e l IH]; simpl; [reflexivity|]. intros Hnotin.
  destruct (LRU.is_key k e) eqn:Hk.
  - apply lru_is_key_true in Hk. tauto.
  - simpl. rewrite IH; [reflexivity | tauto].
Qed.

Lemma lru_find_absent k l :
  ~ In k (map LRU.ekey l) -> List.find (LRU.is_key k) l = None.
Proof.
  intros Hnotin. destruct (List.find (LRU.is_key k) l) as [e|] eqn:Hfind;
    [|reflexivity].
  apply find_some in Hfind as [Hin Hk]. apply lru_is_key_true in Hk.
  exfalso. apply Hnotin. rewrite <- Hk. now apply in_map.
Qed.

Lemma lru_set_pushes_back token seen k v c now :
  k <> token -> ~ In k seen ->
  List.NoDup (map LRU.ekey (LRU.items c)) ->
  lru_behind token seen c ->
  LRU.lookup token (LRU.set now k v c) = None
  \/ lru_behind token (k :: seen) (LRU.set now k v c).
Proof.
  intros Hne Hfresh Hnd (front & e & back & Hitems & Hkey & Hseen).
  set (new := LRU.mkEntry k v (if LRU.ttl c =? 0 then 0 else now)).
  assert (LRU.is_key k e = false) as Hk.
  { destruct (LRU.is_key k e) eqn:Hk; [|reflexivity].
    apply lru_is_key_true in Hk. congruence. }
  unfold LRU.set, LRU.lookup. fold new.
  destruct (List.find (LRU.is_key k) (LRU.items c)); cbn [LRU.with_items LRU.items].
  - right. exists (new :: front), e, (LRU.remove k back).
    split; [|split; [assumption | simpl; now rewrite Hseen]].
    rewrite Hitems. unfold LRU.remove. rewrite List.filter_app. simpl.
    rewrite Hk. simpl. fold (LRU.remove k front).
    rewrite lru_remove_absent; [reflexivity | now rewrite Hseen].
  - destruct (LRU.size c =? LRU.max c).
    + rewrite Hitems, removelast_app by discriminate.
      destruct back as [|b back].
      * left. simpl. rewrite app_nil_r.
        assert (LRU.is_key token new = false) as ->.
        { destruct (LRU.is_key token new) eqn:Ht; [|reflexivity].
          apply lru_is_key_true in Ht. simpl in Ht. congruence. }
        apply lru_find_absent. rewrite Hitems, map_app in Hnd.
        apply NoDup_remove_2 in Hnd. rewrite Hkey in Hnd.
        intros Hin. apply Hnd. apply in_or_app. now left.
      * right. exists (new :: front), e, (removelast (b :: back)).
        split; [reflexivity|]. split; [assumption | simpl; now rewrite Hseen].
    + right. exists (new :: front), e, back.
      split; [|split; [assumption | simpl; now rewrite Hseen]].
      now rewrite Hitems.
Qed.

Lemma lru_sets_push_back token (later : list (Z * string)) v (max ttl : Z) :
  0 < max ->
  forall c (seen : list string),
    cache_inv max ttl c ->
    List.NoDup (map snd later) ->
    (forall k, In k (map snd later) -> k <> token /\ ~ In k seen) ->
    LRU.lookup token c = None \/ lru_behind token seen c ->
    let c' := fold_left (fun c r => LRU.set (fst r) (snd r) v c) later c in
    cache_inv max ttl c'
    /\ (LRU.lookup token c' = None
        \/ exists seen' : list string,
             lru_behind token seen' c'
             /\ length seen' = (length later + length seen)%nat).
Proof.
  intros Hpos. induction later as [|[now k] later IH];
    intros c seen Hinv Hnd Hother Hstate.
  - simpl. split; [assumption|].
    destruct Hstate as [Hnone | Hbehind]; [now left | right; eauto].
  - cbn [fold_left fst snd]. cbn [map snd] in Hnd, Hother.
    inversion Hnd as [|? ? Hnotin Hnd']; subst.
    destruct (Hother k (or_introl eq_refl)) as [Hne Hfresh].
    assert (LRU.lookup token (LRU.set now k v c) = None
            \/ lru_behind token (k :: seen) (LRU.set now k v c)) as Hstate'.
    { destruct Hstate as [Hnone | Hbehind].
      - left. destruct (lru_lookup_set_other k token v c now) as [H | H];
          [congruence | assumption | congruence].
      - destruct Hinv as (_ & _ & _ & Hkeys).
        now apply lru_set_pushes_back. }
    destruct (IH (LRU.set now k v c) (k :: seen)
                (cache_inv_set max ttl k v c now Hpos Hinv) Hnd')
      as [Hinv' Hfinal]; [|exact Hstate'|].
    + intros k' Hin. destruct (Hother k' (or_intror Hin)) as [Hne' Hfresh'].
      split; [assumption|]. intros [<- | Hseen]; tauto.
    + split; [exact Hinv'|].
      destruct Hfinal as [Hnone | (seen' & Hbehind & Hlen)]; [now left|].
      right. exists seen'. split; [assumption|]. simpl in *. lia.
Qed.

(** After the revocation of [token], as many revocations of other,
    distinct tokens as the set holds evict its entry. *)
Lemma lru_set_is_evicted token (later : list (Z * string)) v (max ttl : Z) c now :
  0 < max ->
  cache_inv max ttl c ->
  List.NoDup (map snd later) ->
  ~ In token (map snd later) ->
  max <= Z.of_nat (length later) ->
  LRU.lookup token
    (fold_left (fun c r => LRU.set (fst r) (snd r) v c) later
       (LRU.set now token v c)) = None.
Proof.
  intros Hpos Hinv Hnd Hother Hmany.
  destruct (lru_sets_push_back token later v max ttl Hpos
              (LRU.set now token v c) []
              (cache_inv_set max ttl token v c now Hpos Hinv) Hnd)
    as [(_ & _ & Hsize & _) [Hnone | (seen' & Hbehind & Hlen)]];
    [| |assumption|].
  - intros k Hin. split; [|tauto]. intros ->. contradiction.
  - right. unfold LRU.set.
    destruct (LRU.lookup token c); cbn [LRU.with_items];
      eexists [], _, _; cbn [LRU.items app]; now repeat split.
  - exfalso. destruct Hbehind as (front & e & back & Hitems & _ & Hseen).
    unfold LRU.size in Hsize. rewrite Hitems, length_app in Hsize.
    rewrite <- Hseen, length_map in Hlen. simpl in *. lia.
Qed.

End Eviction.

Section Forgetting.

Context {J : Jsonwebtoken} {R : Runtime}.
Variable env : ProcessEnv.

(** The access revocation set forgets: once a thousand other, distinct
    access tokens have been revoked after [token], the entry of [token]
    is gone, whatever its age, and [verifyAccessToken] hands the token
    to [jwt.verify] as if it had never been revoked. *)
Theorem revocation_is_forgotten_after_a_thousand_newer_ones :
  forall (start now now' : Z) (token : string) (later : list (Z * string))
         (w : World),
    reachable start w ->
    List.NoDup (map snd later) ->
    ~ In token (map snd later) ->
    (1000 <= length later)%nat ->
    let w' := blacklistTokens later (blacklistToken now token w) in
    isTokenBlacklisted now' token w' = false
    /\ forall secret : string,
         JWT_SECRET env = Some secret -> secret <> "" ->
         verifyAccessToken env now' token w' = jwt_verify token secret now'.
Proof.
  intros start now now' token later w Hreach Hnd Hother Hmany w'.
  assert (isTokenBlacklisted now' token w' = false) as Hfree.
  { subst w'. unfold isTokenBlacklisted, LRU.has.
    assert (blacklistedTokens
              (blacklistTokens later (blacklistToken now token w))
            = fold_left (fun c r => LRU.set (fst r) (snd r) true c) later
                (LRU.set now token true (blacklistedTokens w))) as ->.
    { unfold blacklistTokens.
      change (LRU.set now token true (blacklistedTokens w))
        with (blacklistedTokens (blacklistToken now token w)).
      generalize (blacklistToken now token w). clear.
      induction later as [|r later IH]; intros w0; [reflexivity|].
      simpl. now rewrite IH. }
    destruct (reachable_world_inv start w Hreach) as (Hinv & _).
    rewrite (lru_set_is_evicted token later true 1000 _ _ now ltac:(lia) Hinv
               Hnd Hother ltac:(lia)).
    reflexivity. }
  split; [exact Hfree|]. intros secret Hsecret Hne.
  apply truthy_string_true in Hne.
  rewrite (verifyAccessToken_spec env now' token w' secret Hsecret Hne).
  unfold isTokenBlacklisted in Hfree. now rewrite Hfree.
Qed.

End Forgetting.
(** ** The further properties on the reference platform *)


Lemma NoDup_map_inj (A B : Type) (f : A -> B) (l : list A) :
  (forall x y : A, f x = f y -> x = y) ->
  List.NoDup l -> List.NoDup (map f l).
Proof.
  intros Hinj. induction 1 as [|x l Hnotin _ IH]; simpl; constructor;
    [|assumption].
  intros Hin. apply in_map_iff in Hin as (y & Heq & Hy).
  apply Hinj in Heq. now subst y.
Qed.

Lemma missing_access_secret_fails_every_call_witness :
  let env := {| JWT_SECRET := Some "";
                JWT_EXPIRES_IN := None;
                JWT_REFRESH_SECRET := Some "refresh-secret";
                JWT_REFRESH_EXPIRES_IN := None;
                ALLOWED_ORIGINS := None |} in
  verifyAccessToken (J := Reference.jsonwebtoken) env 5000 "not-even-a-jwt"
    initial
  = inl (Error "JWT_SECRET environment variable is not defined").
Proof.
  intros env.
  destruct (missing_access_secret_fails_every_call
              (J := Reference.jsonwebtoken) (R := Reference.runtime)
              env eq_refl) as (_ & _ & Hverify & _).
  apply Hverify.
Defined.

Lemma issued_token_pair_verifies_witness :
  exists accessToken refreshToken : string,
    generateTokenPair (J := Reference.jsonwebtoken) Reference.env 5000
      "k3j2h1" "64b7f0c2a1" "ann@example.com"
    = inr (accessToken, refreshToken)
    /\ verifyAccessToken (J := Reference.jsonwebtoken) Reference.env 6000
         accessToken initial
       = inr (stamp (JWTPayload "64b7f0c2a1" "ann@example.com") 5 905)
    /\ verifyAccessToken (J := Reference.jsonwebtoken) Reference.env 905000
         accessToken initial
       = inl (TokenExpiredError "jwt expired").
Proof.
  destruct (issued_token_pair_verifies (L := ReferenceFacts.laws)
              Reference.env 5000 "k3j2h1" "64b7f0c2a1" "ann@example.com"
              900 604800 eq_refl eq_refl eq_refl eq_refl)
    as (accessToken & refreshToken & Hpair & Haccess & _).
  exists accessToken, refreshToken. split; [exact Hpair|]. split.
  - exact (Haccess 6000 initial eq_refl).
  - exact (Haccess 905000 initial eq_refl).
Defined.

Lemma caches_stay_within_capacity_witness :
  0 <= fst (getBlacklistStats (blacklistToken 1000 "not-even-a-jwt" initial))
    <= 1000.
Proof.
  exact (proj1 (caches_stay_within_capacity (R := Reference.runtime) 1000 _
                  (reach_blacklistToken 1000 initial "not-even-a-jwt"
                     (reach_initial 1000)))).
Defined.

Lemma revocation_is_idempotent_in_size_witness :
  let w := blacklistToken 1000 "not-even-a-jwt" initial in
  fst (getBlacklistStats (blacklistToken 2000 "not-even-a-jwt" w)) = 1
  /\ fst (getBlacklistStats (blacklistToken 2000 "another" w)) = 2.
Proof.
  intros w.
  assert (reachable (R := Reference.runtime) 1000 w) as Hreach
      by apply reach_blacklistToken, reach_initial.
  split.
  - exact (revocation_is_idempotent_in_size (R := Reference.runtime)
             1000 2000 "not-even-a-jwt" w Hreach).
  - exact (revocation_is_idempotent_in_size (R := Reference.runtime)
             1000 2000 "another" w Hreach).
Defined.

Lemma revocation_lapses_with_its_entry_witness :
  verifyAccessToken (J := Reference.jsonwebtoken) Reference.env 86401001
    "not-even-a-jwt" (blacklistToken 1000 "not-even-a-jwt" initial)
  = inl (JsonWebTokenError "jwt malformed").
Proof.
  destruct (revocation_lapses_with_its_entry (J := Reference.jsonwebtoken)
              (R := Reference.runtime) Reference.env 1000 86401001
              "not-even-a-jwt" "access-secret" initial (reach_initial 1000)
              ltac:(discriminate) ltac:(discriminate)) as [Haccess _].
  exact (Haccess eq_refl ltac:(lia)).
Defined.

Lemma rate_windows_are_counted_separately_witness :
  let R := Reference.runtime in
  let request :=
    Reference.request "/api/auth/login" [("x-forwarded-for", "203.0.113.7")] in
  let request' :=
    Reference.request "/api/auth/login" [("x-forwarded-for", "198.51.100.9")] in
  let w := snd (rateLimit 1000 request' auth initial) in
  stored_window "auth:198.51.100.9" (snd (rateLimit 2000 request auth w))
  = Some {| count := 1; resetTime := 901000 |}.
Proof.
  intros R request request' w.
  destruct (rate_windows_are_counted_separately 2000 request request' auth auth w
              ltac:(right; vm_compute; discriminate)) as [_ Hroom].
  exact (Hroom ltac:(vm_compute; reflexivity)).
Defined.

Lemma stored_count_never_exceeds_the_maximum_witness :
  let R := Reference.runtime in
  let request :=
    Reference.request "/api/auth/login" [("x-forwarded-for", "203.0.113.7")] in
  let w := snd (rateLimit 2000 request auth
                  (snd (rateLimit 1000 request auth initial))) in
  stored_window (rateLimitKey request auth) w
  = Some {| count := 2; resetTime := 901000 |}
  /\ 1 <= 2 <= max (RATE_LIMITS auth).
Proof.
  intros R request w. split; [reflexivity|].
  assert (reachable 2000 w) as Hreach.
  { apply reach_rateLimit. apply reach_wait with 1000; [|lia].
    apply reach_rateLimit, reach_initial. }
  exact (stored_count_never_exceeds_the_maximum 2000 request auth w
           {| count := 2; resetTime := 901000 |} Hreach eq_refl).
Defined.

Lemma rate_limit_headers_are_within_bounds_witness :
  let R := Reference.runtime in
  let request :=
    Reference.request "/api/auth/login" [("x-forwarded-for", "203.0.113.7")] in
  let w := snd (rateLimit 1000 request auth initial) in
  exists remaining : Z,
    header "X-RateLimit-Remaining" (fst (rateLimit 2000 request auth w))
    = Some (JS.toString remaining)
    /\ 0 <= remaining <= 3.
Proof.
  intros R request w.
  assert (reachable 2000 w) as Hreach.
  { apply reach_wait with 1000; [|lia].
    apply reach_rateLimit, reach_initial. }
  destruct (rate_limit_headers_are_within_bounds 2000 request auth w Hreach)
    as [Hfresh | [(_ & _ & Hremaining) | (Hdenied & _)]].
  - vm_compute in Hfresh. discriminate.
  - exact Hremaining.
  - vm_compute in Hdenied. discriminate.
Defined.

Lemma quota_of_every_limit_class_witness :
  let R := Reference.runtime in
  let request :=
    Reference.request "/api/upload" [("x-forwarded-for", "203.0.113.7")] in
  map success
    (fst (rateLimits
            [1000; 2000; 3000; 4000; 5000; 6000; 7000; 8000; 9000; 10000;
             11000; 901000]
            request strict initial))
  = [true; true; true; true; true; true; true; true; true; true; false; false].
Proof.
  intros R request.
  exact (quota_of_every_limit_class request strict initial 1000
           [2000; 3000; 4000; 5000; 6000; 7000; 8000; 9000; 10000]
           [11000; 901000] eq_refl eq_refl eq_refl
           ltac:(repeat constructor; simpl; lia)).
Defined.

Lemma gate_and_login_never_revoke_witness :
  let request :=
    Reference.request "/api/auth/login" [("x-forwarded-for", "203.0.113.7")] in
  let w := blacklistToken 1000 "not-even-a-jwt" initial in
  revocations
    (snd (POST (J := Reference.jsonwebtoken) (R := Reference.runtime)
            (S := ReferenceLogin.services) Reference.env 2000 "k3j2h1" request
            (inr ("ann@example.com", "Correct-horse-1")) w))
  = revocations w.
Proof.
  intros request w.
  exact (proj1 (gate_and_login_never_revoke (J := Reference.jsonwebtoken)
                  (R := Reference.runtime) Reference.env _
                  ReferenceLogin.services 2000 "k3j2h1" request auth
                  (inr ("ann@example.com", "Correct-horse-1")) w _
                  (or_intror (or_intror (or_intror eq_refl))))).
Defined.


Lemma refreshed_pair_is_issued_to_the_stored_user_witness :
  let J := Reference.jsonwebtoken in
  let R := Reference.runtime in
  let U := Reference.users in
  let token :=
    Reference.encode "refresh-secret"
      (stamp (RefreshTokenPayload "64b7f0c2a1" "k3j2h1") 1 604801) in
  let refresh :=
    Reference.request "/api/auth/refresh" [("x-refresh-token", token)] in
  match GETHandler Reference.env 5000 "p0q9r8" refresh initial with
  | (inr response, w') =>
      exists accessToken refreshToken : string,
        NextResponse.body response
        = [("accessToken", accessToken); ("refreshToken", refreshToken)]
        /\ verifyAccessToken Reference.env 6000 accessToken w'
           = inr (stamp (JWTPayload "64b7f0c2a1" "ann@example.com") 5 905)
  | (inl _, _) => False
  end.
Proof.
  intros J R U token refresh.
  destruct (GETHandler Reference.env 5000 "p0q9r8" refresh initial)
    as [[e|response] w'] eqn:Hrun.
  - vm_compute in Hrun. discriminate.
  - assert (NextResponse.status response = 200) as Hstatus
        by (vm_compute in Hrun; injection Hrun as <- <-; reflexivity).
    destruct (refreshed_pair_is_issued_to_the_stored_user
                (L := ReferenceFacts.laws) Reference.env 5000 "p0q9r8" refresh
                initial w' response Hrun Hstatus)
      as (token' & claims & doc & accessToken & refreshToken & Hget & Hverify
          & Hfind & Hbody & Haccess & _).
    exists accessToken, refreshToken. split; [exact Hbody|].
    vm_compute in Hget. injection Hget as <-.
    vm_compute in Hverify. injection Hverify as <-.
    vm_compute in Hfind. injection Hfind as <-.
    apply (Haccess 900 6000 w' eq_refl); [|vm_compute; reflexivity].
    vm_compute in Hrun. injection Hrun as _ <-. reflexivity.
Defined.

Lemma login_answers_alike_for_unknown_user_and_wrong_password_witness :
  let J := Reference.jsonwebtoken in
  let R := Reference.runtime in
  let S := ReferenceLogin.services in
  let request :=
    Reference.request "/api/auth/login" [("x-forwarded-for", "203.0.113.7")] in
  fst (POST Reference.env 5000 "k3j2h1" request
         (inr ("nobody@example.com", "Correct-horse-1")) initial)
  = fst (POST Reference.env 5000 "p0q9r8" request
           (inr ("ann@example.com", "wrong")) initial).
Proof.
  intros J R S request.
  exact (login_answers_alike_for_unknown_user_and_wrong_password
           Reference.env _ ReferenceLogin.services 5000 "k3j2h1" "p0q9r8"
           request ("nobody@example.com", "Correct-horse-1")
           ("ann@example.com", "wrong")
           "nobody@example.com" "Correct-horse-1" "ann@example.com" "wrong"
           ReferenceLogin.account initial
           eq_refl eq_refl eq_refl eq_refl eq_refl).
Defined.

Lemma exhausted_login_quota_is_answered_before_the_credentials_witness :
  let J := Reference.jsonwebtoken in
  let R := Reference.runtime in
  let S := ReferenceLogin.services in
  let request :=
    Reference.request "/api/auth/login" [("x-forwarded-for", "203.0.113.7")] in
  let w := snd (rateLimits [1000; 2000; 3000; 4000; 5000] request auth initial) in
  exists (response : NextResponse.t) (w' : World),
    NextResponse.status response = 429
    /\ POST Reference.env 6000 "k3j2h1" request
         (inr ("ann@example.com", "Correct-horse-1")) w
       = (inr response, w').
Proof.
  intros J R S request w.
  destruct (exhausted_login_quota_is_answered_before_the_credentials
              Reference.env 6000 request w
              ltac:(vm_compute; reflexivity) ltac:(vm_compute; reflexivity))
    as (response & w' & Hstatus & Hsame).
  exists response, w'. split; [exact Hstatus|].
  apply (Hsame _ ReferenceLogin.services).
Defined.

Lemma login_succeeds_only_with_a_verified_password_witness :
  let J := Reference.jsonwebtoken in
  let R := Reference.runtime in
  let S := ReferenceLogin.services in
  let request :=
    Reference.request "/api/auth/login" [("x-forwarded-for", "203.0.113.7")] in
  match POST Reference.env 5000 "k3j2h1" request
          (inr ("ann@example.com", "Correct-horse-1")) initial with
  | (inr response, w') =>
      NextResponse.status response = 200
      /\ exists user : IUser.t,
           findUserByEmail "ann@example.com" = inr (Some user)
           /\ verifyPassword user "Correct-horse-1" = inr true
  | (inl _, _) => False
  end.
Proof.
  intros J R S request.
  destruct (POST Reference.env 5000 "k3j2h1" request
              (inr ("ann@example.com", "Correct-horse-1")) initial)
    as [[e|response] w'] eqn:Hrun.
  - vm_compute in Hrun. discriminate.
  - assert (NextResponse.status response = 200) as Hstatus
        by (vm_compute in Hrun; injection Hrun as <- <-; reflexivity).
    split; [exact Hstatus|].
    destruct (login_succeeds_only_with_a_verified_password
                (L := ReferenceFacts.laws) Reference.env _
                ReferenceLogin.services 5000 "k3j2h1" request _ initial w'
                response Hrun Hstatus)
      as (parsed & email & password & id & accessToken & refreshToken & user
          & Hbody & Hparse & Hfind & Hverify & _).
    injection Hbody as <-. vm_compute in Hparse. injection Hparse as <- <-.
    exists user. split; assumption.
Defined.

Lemma revocation_is_forgotten_after_a_thousand_newer_ones_witness :
  let later := map (fun n : nat => (2000 + Z.of_nat n, pretty n)) (seq 0 1000) in
  isTokenBlacklisted 5000 (pretty 1000%nat)
    (blacklistTokens later (blacklistToken 1000 (pretty 1000%nat) initial))
  = false.
Proof.
  intros later.
  assert (map snd later = map pretty (seq 0 1000)) as Hkeys
      by (subst later; rewrite map_map; reflexivity).
  refine (proj1 (revocation_is_forgotten_after_a_thousand_newer_ones
                   (J := Reference.jsonwebtoken) (R := Reference.runtime)
                   Reference.env 1000 1000 5000 (pretty 1000%nat) later initial
                   (reach_initial 1000) _ _ _)).
  - rewrite Hkeys. apply NoDup_map_inj; [|apply List.seq_NoDup].
    intros x y Heq. now apply (inj pretty).
  - rewrite Hkeys. intros Hin. apply in_map_iff in Hin as (n & Heq & Hn).
    apply (inj pretty) in Heq. subst n. apply in_seq in Hn. lia.
  - subst later. rewrite length_map, length_seq. lia.
Defined.

(** * Revocation, for as long as the entry lives *)

Section EntryLife.

Context {V : Type}.

(** The entry set for [k] at [now] is still live at [now'], within the
    life time of the cache, after fewer sets of other keys than the
    cache holds entries. *)
Lemma lru_has_set_then_others (sets : list (Z * string)) (v : V)
    (c : LRU.t V) (k : string) (now now' : Z) :
  Forall (fun r => snd r <> k) sets ->
  Z.of_nat (length sets) < LRU.max c ->
  now' - now <= LRU.ttl c ->
  LRU.has now' k
    (fold_left (fun c r => LRU.set (fst r) (snd r) v c) sets
       (LRU.set now k v c)) = true.
Proof.
  intros Hother Hroom Hage.
  destruct (lru_sets_other_keep sets v (LRU.set now k v c) k _
              (lru_lookup_set k v c now) Hother) as [Hkept Httl].
  { rewrite lru_max_set.
    assert (lru_rank k (LRU.items (LRU.set now k v c)) = 0%nat) as ->; [|lia].
    unfold LRU.set.
    destruct (LRU.lookup k c); simpl; unfold LRU.is_key; simpl;
      now rewrite String.eqb_refl. }
  unfold LRU.has. rewrite Hkept. unfold LRU.isStale. simpl.
  rewrite Httl, lru_ttl_set.
  destruct (LRU.ttl c =? 0); simpl; [reflexivity|].
  destruct (now =? 0); simpl; [reflexivity|].
  destruct (LRU.ttl c <? now' - now) eqn:Hlt; [|reflexivity].
  apply Z.ltb_lt in Hlt. lia.
Qed.

End EntryLife.

Lemma blacklistedTokens_blacklistTokens (later : list (Z * string)) (w : World) :
  blacklistedTokens (blacklistTokens later w)
  = fold_left (fun c r => LRU.set (fst r) (snd r) true c) later
      (blacklistedTokens w).
Proof.
  unfold blacklistTokens. revert w.
  induction later as [|r later IH]; intros w; [reflexivity|].
  simpl. now rewrite IH.
Qed.

Lemma blacklistedRefreshTokens_blacklistRefreshTokens
    (later : list (Z * string)) (w : World) :
  blacklistedRefreshTokens (blacklistRefreshTokens later w)
  = fold_left (fun c r => LRU.set (fst r) (snd r) true c) later
      (blacklistedRefreshTokens w).
Proof.
  unfold blacklistRefreshTokens. revert w.
  induction later as [|r later IH]; intros w; [reflexivity|].
  simpl. now rewrite IH.
Qed.

Section RevokedAccessToken.

Context {J : Jsonwebtoken} {R : Runtime}.
Variable env : ProcessEnv.

(** C1, as the code has it.  With the access secret configured, after
    [blacklistToken token] in a world reached from [initial],
    [verifyAccessToken token] throws [TokenBlacklistedError], for every
    token string and whatever [jwt.verify] would say of its signature
    and expiry, for as long as the revocation entry lives: up to 24
    hours after the revocation, and while fewer than 1000 other access
    tokens have been revoked since.  [later] lists those revocations
    and [w'] is any world that holds the access revocation set they
    leave, whatever else was done in between. *)
Theorem revoked_access_token_is_rejected :
  forall (start now now' : Z) (token : string) (later : list (Z * string))
         (w w' : World),
    configured (JWT_SECRET env) ->
    reachable start w ->
    Forall (fun r => snd r <> token) later ->
    (length later < 1000)%nat ->
    now' - now <= 1000 * 60 * 60 * 24 ->
    blacklistedTokens w'
    = blacklistedTokens (blacklistTokens later (blacklistToken now token w)) ->
    verifyAccessToken env now' token w'
    = inl (TokenBlacklistedError "Token has been revoked").
Proof.
  intros start now now' token later w w' Hsecret Hreach Hother Hfew Hage Hset.
  destruct (reachable_world_inv start w Hreach) as ((Hmax & Httl & _) & _).
  apply verifyAccessToken_revoked; [assumption|].
  rewrite Hset, blacklistedTokens_blacklistTokens.
  change (blacklistedTokens (blacklistToken now token w))
    with (LRU.set now token true (blacklistedTokens w)).
  apply lru_has_set_then_others; [assumption | rewrite Hmax; lia|].
  rewrite Httl. lia.
Qed.

End RevokedAccessToken.

Lemma revoked_access_token_is_rejected_witness :
  let J := Reference.jsonwebtoken in
  let R := Reference.runtime in
  let request :=
    Reference.request "/api/bookings" [("x-forwarded-for", "203.0.113.7")] in
  let w :=
    snd (rateLimit 3000 request api
           (blacklistToken 2000 "another"
              (blacklistToken 1000 "not-even-a-jwt" initial))) in
  verifyAccessToken Reference.env 86401000 "not-even-a-jwt" w
  = inl (TokenBlacklistedError "Token has been revoked").
Proof.
  intros J R request w.
  apply (revoked_access_token_is_rejected Reference.env 0 1000 86401000
           "not-even-a-jwt" [(2000, "another")] initial w).
  - reflexivity.
  - apply reach_initial.
  - repeat constructor. simpl. discriminate.
  - simpl. lia.
  - lia.
  - reflexivity.
Defined.

(** C1, as stated, fails: a revoked access token whose signature is
    valid and that has not expired is accepted again
    - one millisecond more than 24 hours after its revocation, when
      JWT_EXPIRES_IN is 7 days (it was still rejected as revoked one
      millisecond earlier);
    - within the hour, with the default expiry, once 1000 other access
      tokens have been revoked after it (it was still rejected as
      revoked after 999). *)
Lemma revoked_access_token_is_accepted_again :
  let J := Reference.jsonwebtoken in
  let R := Reference.runtime in
  let payload := JWTPayload "64b7f0c2a1" "ann@example.com" in
  let week := {| JWT_SECRET := Some "access-secret";
                 JWT_EXPIRES_IN := Some "7d";
                 JWT_REFRESH_SECRET := Some "refresh-secret";
                 JWT_REFRESH_EXPIRES_IN := None;
                 ALLOWED_ORIGINS := None |} in
  let long := Reference.encode "access-secret" (stamp payload 1 604801) in
  let short := Reference.encode "access-secret" (stamp payload 1 901) in
  let others (n : nat) :=
    map (fun i : nat => (3000 + Z.of_nat i, pretty i)) (seq 0 n) in
  generateAccessToken week 1000 payload = inr long
  /\ verifyAccessToken week 86402000 long (blacklistToken 2000 long initial)
     = inl (TokenBlacklistedError "Token has been revoked")
  /\ verifyAccessToken week 86402001 long (blacklistToken 2000 long initial)
     = inr (stamp payload 1 604801)
  /\ generateAccessToken Reference.env 1000 payload = inr short
  /\ verifyAccessToken Reference.env 5000 short
       (blacklistTokens (others 999%nat) (blacklistToken 2000 short initial))
     = inl (TokenBlacklistedError "Token has been revoked")
  /\ verifyAccessToken Reference.env 5000 short
       (blacklistTokens (others 1000%nat) (blacklistToken 2000 short initial))
     = inr (stamp payload 1 901).
Proof. vm_compute. repeat split. Qed.

Section RotatedRefreshToken.

Context {J : Jsonwebtoken} {R : Runtime} {U : UserService}.
Context {L : JsonwebtokenLaws J}.
Variable env : ProcessEnv.

(** C3, as the code has it.  After a refresh request has succeeded in
    a world reached from [initial], the submitted refresh token is in
    the refresh revocation set for as long as its entry lives: up to 7
    days after the refresh, and while fewer than 1000 other refresh
    tokens have been revoked since.  During that time, re-submitting the
    same token in a request that passes the origin check and the rate
    limiter is answered 401 (Refresh token has been revoked. Please
    login again.).  [later] lists the revocations made since and [w'']
    is any world that holds the refresh revocation set they leave,
    whatever else was done in between.  The newly issued refresh token,
    provided its random id differs from the id of the submitted token,
    is accepted by [verifyRefreshToken] at every time before its expiry
    at which it was not in the revocation set before the request. *)
Theorem rotated_refresh_token_is_rejected :
  forall (start now : Z) (draw : string) (request : NextRequest.t)
         (w w' : World) (resp : NextResponse.t),
    reachable start w ->
    GETHandler env now draw request w = (inr resp, w') ->
    NextResponse.status resp = 200 ->
    exists (token : string) (claims : Payload)
           (accessToken refreshToken : string),
      NextRequest.get request "x-refresh-token" = Some token
      /\ verifyRefreshToken env now token w = inr claims
      /\ NextResponse.body resp
         = [("accessToken", accessToken); ("refreshToken", refreshToken)]
      /\ (forall (later : list (Z * string)) (now' : Z) (w'' : World),
            blacklistedRefreshTokens w''
            = blacklistedRefreshTokens (blacklistRefreshTokens later w') ->
            Forall (fun r => snd r <> token) later ->
            (length later < 1000)%nat ->
            now' - now <= 1000 * 60 * 60 * 24 * 7 ->
            isRefreshTokenBlacklisted now' token w'' = true
            /\ forall (draw' : string) (request' : NextRequest.t),
                 NextRequest.get request' "x-refresh-token" = Some token ->
                 validateOrigin env request' = true ->
                 success (fst (rateLimit now' request' auth w'')) = true ->
                 fst (GETHandler env now' draw' request' w'')
                 = inr (NextResponse.json
                          [("error",
                            "Refresh token has been revoked. Please login again.")]
                          401))
      /\ (tokenId claims <> Some draw ->
          exists span : Z,
            timespan (JS.or_default (JWT_REFRESH_EXPIRES_IN env) "7d")
            = Some span
            /\ forall now' : Z,
                 now' / 1000 < now / 1000 + span ->
                 isRefreshTokenBlacklisted now' refreshToken w = false ->
                 exists claims' : Payload,
                   verifyRefreshToken env now' refreshToken w' = inr claims'
                   /\ userId claims' = userId claims
                   /\ tokenId claims' = Some draw).
Proof.
  intros start now draw request w w' resp Hreach Hrun Hstatus.
  destruct (reachable_world_inv start w Hreach) as (_ & (Hmax & Httl & _) & _).
  destruct (GETHandler_success env now draw request w resp w' Hrun Hstatus)
    as (token & claims & doc & accessToken & refreshToken & Horigin & Hrate
        & Hget & Hne & Hverify & Hfind & Hpair & Hbody & Hrevoked & _).
  destruct (verifyRefreshToken_configured env now token w claims Hverify)
    as (secret & Hsecret & Htruthy & Hfree & Hjwt).
  assert (configured (JWT_REFRESH_SECRET env)) as Hconf
      by (unfold configured; now rewrite Hsecret).
  exists token, claims, accessToken, refreshToken.
  split; [exact Hget|]. split; [exact Hverify|]. split; [exact Hbody|].
  split.
  - intros later now' w'' Hset Hother Hfew Hage.
    assert (LRU.has now' token (blacklistedRefreshTokens w'') = true) as Hhas.
    { rewrite Hset, blacklistedRefreshTokens_blacklistRefreshTokens, Hrevoked.
      apply lru_has_set_then_others; [assumption | rewrite Hmax; lia|].
      rewrite Httl. lia. }
    split; [exact Hhas|].
    intros draw' request' Hget' Horigin' Hrate'.
    now apply GETHandler_revoked with token.
  - intros Hfresh.
    apply generateTokenPair_inv in Hpair as [_ Hissue].
    rewrite (generateRefreshToken_spec env now _ secret Hsecret Htruthy)
      in Hissue.
    destruct (jwt_verify_sign _ secret _ refreshToken now Hissue eq_refl eq_refl)
      as (span & Hspan & Hnew).
    exists span. split; [exact Hspan|].
    intros now' Hbefore Hfree'.
    assert (refreshToken <> token) as Hdiff.
    { intros ->. rewrite Hnew in Hjwt.
      destruct (now / 1000 + span <=? now / 1000); [discriminate|].
      injection Hjwt as Heq. apply Hfresh. now rewrite <- Heq. }
    exists (stamp (RefreshTokenPayload (userId claims) draw)
              (now / 1000) (now / 1000 + span)).
    rewrite (verifyRefreshToken_spec env now' refreshToken w' secret Hsecret
               Htruthy).
    rewrite Hrevoked.
    rewrite (lru_has_set_other token refreshToken true _ now now' Hdiff Hfree').
    rewrite Hnew.
    destruct (now / 1000 + span <=? now' / 1000) eqn:Hle;
      [apply Z.leb_le in Hle; lia|].
    now repeat split.
Qed.

End RotatedRefreshToken.

Lemma rotated_refresh_token_is_rejected_witness :
  let J := Reference.jsonwebtoken in
  let R := Reference.runtime in
  let U := Reference.users in
  let token :=
    Reference.encode "refresh-secret"
      (stamp (RefreshTokenPayload "64b7f0c2a1" "k3j2h1") 1 604801) in
  let refresh :=
    Reference.request "/api/auth/refresh" [("x-refresh-token", token)] in
  match GETHandler Reference.env 5000 "p0q9r8" refresh initial with
  | (inr resp, w') =>
      NextResponse.status resp = 200
      /\ fst (GETHandler Reference.env 7000 "s7t6u5" refresh
                (blacklistRefreshToken 6000 "another" w'))
         = inr (NextResponse.json
                  [("error",
                    "Refresh token has been revoked. Please login again.")]
                  401)
  | (inl _, _) => False
  end.
Proof.
  intros J R U token refresh.
  destruct (GETHandler Reference.env 5000 "p0q9r8" refresh initial)
    as [[e|resp] w'] eqn:Hrun.
  - vm_compute in Hrun. discriminate.
  - assert (NextResponse.status resp = 200) as Hstatus
        by (vm_compute in Hrun; injection Hrun as <- <-; reflexivity).
    split; [exact Hstatus|].
    destruct (rotated_refresh_token_is_rejected (L := ReferenceFacts.laws)
                Reference.env 0 5000 "p0q9r8" refresh initial w' resp
                (reach_initial 0) Hrun Hstatus)
      as (token' & claims & accessToken & refreshToken & Hget & _ & _
          & Hreplay & _).
    vm_compute in Hget. injection Hget as <-.
    destruct (Hreplay [(6000, "another")] 7000
                (blacklistRefreshToken 6000 "another" w') eq_refl)
      as [_ Hanswer].
    + repeat constructor. simpl. vm_compute. discriminate.
    + simpl. lia.
    + lia.
    + apply Hanswer; [reflexivity | reflexivity|].
      vm_compute in Hrun. injection Hrun as <- <-. reflexivity.
Defined.

(** C3, as stated, fails: after a successful refresh, the same refresh
    token submitted again is not always answered 401 as revoked.
    - When the successful refresh was the fifth request of the client to
      the authentication endpoints within the window, the replay is
      answered 429 by the rate limiter, although the token is in the
      revocation set; sent from an origin outside the allow-list, it is
      answered 403.
    - When JWT_REFRESH_EXPIRES_IN is 30 days, the replay is answered 200
      one millisecond more than 7 days after the refresh (and 401 as
      revoked one millisecond earlier).
    - Once 1000 other refresh tokens have been revoked after the refresh,
      the replay is answered 200 (and 401 as revoked after 999).
    And the newly issued refresh token does not always verify: when the
    random id drawn equals the id of the submitted token and both are
    issued in the same second, the new token is the submitted one, and
    a new token that was revoked beforehand is revoked. *)
Lemma replayed_refresh_token_is_not_always_rejected_as_revoked :
  let J := Reference.jsonwebtoken in
  let R := Reference.runtime in
  let U := Reference.users in
  let month := {| JWT_SECRET := Some "access-secret";
                  JWT_EXPIRES_IN := None;
                  JWT_REFRESH_SECRET := Some "refresh-secret";
                  JWT_REFRESH_EXPIRES_IN := Some "30d";
                  ALLOWED_ORIGINS := None |} in
  let payload := RefreshTokenPayload "64b7f0c2a1" "k3j2h1" in
  let token := Reference.encode "refresh-secret" (stamp payload 1 604801) in
  let long := Reference.encode "refresh-secret" (stamp payload 1 2592001) in
  let request (t : string) :=
    Reference.request "/api/auth/refresh" [("x-refresh-token", t)] in
  let probe := Reference.request "/api/auth/refresh" [] in
  let status (answer : Exn + NextResponse.t) : option Z :=
    match answer with
    | inr resp => Some (NextResponse.status resp)
    | inl _ => None
    end in
  let revoked :=
    inr (NextResponse.json
           [("error", "Refresh token has been revoked. Please login again.")]
           401) in
  let others (n : nat) :=
    map (fun i : nat => (6000 + Z.of_nat i, pretty i)) (seq 0 n) in
  (* the replay is rate-limited *)
  (let w1 := snd (GETHandler Reference.env 1000 "a" probe initial) in
   let w2 := snd (GETHandler Reference.env 2000 "b" probe w1) in
   let w3 := snd (GETHandler Reference.env 3000 "c" probe w2) in
   let w4 := snd (GETHandler Reference.env 4000 "d" probe w3) in
   let '(fifth, w5) := GETHandler Reference.env 5000 "p0q9r8" (request token) w4 in
   generateRefreshToken Reference.env 1000 payload = inr token
   /\ status fifth = Some 200
   /\ isRefreshTokenBlacklisted 6000 token w5 = true
   /\ fst (GETHandler Reference.env 6000 "s7t6u5" (request token) w5)
      = inr (NextResponse.json
               [("error", "Too many refresh attempts. Please try again later.")]
               429))
  (* the replay comes from a refused origin *)
  /\ (let '(first, w') :=
        GETHandler Reference.env 5000 "p0q9r8" (request token) initial in
      let foreign :=
        Reference.request "/api/auth/refresh"
          [("x-refresh-token", token); ("origin", "https://evil.example")] in
      status first = Some 200
      /\ fst (GETHandler Reference.env 6000 "s7t6u5" foreign w')
         = inr (NextResponse.json [("error", "Invalid origin")] 403))
  (* the entry has lapsed *)
  /\ (let '(first, w') := GETHandler month 5000 "p0q9r8" (request long) initial in
      generateRefreshToken month 1000 payload = inr long
      /\ status first = Some 200
      /\ fst (GETHandler month 604805000 "s7t6u5" (request long) w') = revoked
      /\ status (fst (GETHandler month 604805001 "s7t6u5" (request long) w'))
         = Some 200)
  (* the entry has been evicted *)
  /\ (let '(first, w') :=
        GETHandler Reference.env 5000 "p0q9r8" (request token) initial in
      status first = Some 200
      /\ fst (GETHandler Reference.env 8000 "s7t6u5" (request token)
                (blacklistRefreshTokens (others 999%nat) w')) = revoked
      /\ status (fst (GETHandler Reference.env 8000 "s7t6u5" (request token)
                        (blacklistRefreshTokens (others 1000%nat) w')))
         = Some 200)
  (* the new token is the submitted one *)
  /\ (let '(first, w') :=
        GETHandler Reference.env 1000 "k3j2h1" (request token) initial in
      status first = Some 200
      /\ (exists accessToken : string,
             first = inr (NextResponse.json
                            [("accessToken", accessToken);
                             ("refreshToken", token)] 200))
      /\ verifyRefreshToken Reference.env 2000 token w'
         = inl (RefreshTokenBlacklistedError "Refresh token has been revoked"))
  (* the new token was revoked beforehand *)
  /\ (let fresh :=
        Reference.encode "refresh-secret"
          (stamp (RefreshTokenPayload "64b7f0c2a1" "p0q9r8") 5 604805) in
      let '(first, w') :=
        GETHandler Reference.env 5000 "p0q9r8" (request token)
          (blacklistRefreshToken 4000 fresh initial) in
      status first = Some 200
      /\ (exists accessToken : string,
             first = inr (NextResponse.json
                            [("accessToken", accessToken);
                             ("refreshToken", fresh)] 200))
      /\ verifyRefreshToken Reference.env 6000 fresh w'
         = inl (RefreshTokenBlacklistedError "Refresh token has been revoked")).
Proof.
  vm_compute. repeat split; eexists; reflexivity.
Qed.
